(** * Social-Sync: the single-pass composite rendering core

    A shallow embedding of the timeline arithmetic, the overlap-avoidance
    pass, the caption time formatter, the composite builder's render loop
    and the orchestrator's stage gating, with the properties of the
    specification stated and settled against them.

    Numbers.  A Python float is an IEEE 754 binary64 number, here the
    rational ([Q]) it denotes; results are compared with [==] ([Qeq]).
    Module [binary64] rounds an exact result to the nearest binary64
    number, and the arithmetic of video_analysis.py and the copy counts of
    the two music steps are modelled with that rounding after every
    operation.  The other float code is read in exact arithmetic; what is
    stated of it are values and order facts that do not depend on the
    rounding.  Python's [<], [<=], [>], [>=] on floats become the boolean
    tests [Qlt_bool] and [Qle_bool] below. *)

From Stdlib Require Import QArith Qminmax Qround Qabs Qpower ZArith List Bool Lia Lqa.
From Stdlib Require Import String Ascii Permutation DecimalString.
From Stdlib Require Floats.
Import ListNotations.
Open Scope Q_scope.

(** ** Comparisons on floats *)

Definition Qlt_bool (x y : Q) : bool := negb (Qle_bool y x).

(** ** IEEE 754 binary64 *)

Module binary64.

Definition pow2 (z : Z) : Q := 2 ^ z.

(** The binary exponent of [x > 0]: the largest [e] with [2^e <= x]. *)
Definition ilog2 (x : Q) : Z :=
  let d := (Z.log2 (Qnum x) - Z.log2 (Zpos (Qden x)))%Z in
  if Qle_bool (pow2 d) x then d else (d - 1)%Z.

(** The nearest whole number, a tie going to the even one. *)
Definition nearest_even (x : Q) : Z :=
  let f := Qfloor x in
  let r := x - inject_Z f in
  if Qlt_bool r (1 # 2) then f
  else if Qlt_bool (1 # 2) r then (f + 1)%Z
  else if Z.even f then f else (f + 1)%Z.

(** 53 bits of significand; the least exponent of a normal number. *)
Definition precision : Z := 53.
Definition emin : Z := -1022.

(** The spacing of the binary64 numbers around [x]; below [2^emin] the
    numbers are the subnormal ones, spaced by [2^-1074]. *)
Definition ulp (x : Q) : Q :=
  pow2 (Z.max (ilog2 (Qabs x)) emin - (precision - 1)).

(** Rounding to nearest, ties to even.  Overflow to infinity, beyond
    [2^1024], is not modelled: every value below is a time in seconds. *)
Definition rnd (x : Q) : Q :=
  if Qeq_bool x 0 then 0 else inject_Z (nearest_even (x / ulp x)) * ulp x.

(** Python's [x + y], [x - y] and [x / y] on floats. *)
Definition fadd (x y : Q) : Q := rnd (x + y).
Definition fsub (x y : Q) : Q := rnd (x - y).
Definition fdiv (x y : Q) : Q := rnd (x / y).

(** A whole multiple of [2^-k]. *)
Definition on_grid (k : Z) (x : Q) : Prop :=
  exists n : Z, x == inject_Z n * pow2 (- k).

(** The rational a finite binary64 number of the kernel denotes. *)
Definition of_float (f : PrimFloat.float) : option Q :=
  match FloatOps.Prim2SF f with
  | SpecFloat.S754_zero _ => Some 0
  | SpecFloat.S754_finite s m e =>
      Some ((if s then -1 else 1) * inject_Z (Zpos m) * pow2 e)
  | _ => None
  end.

(** [x] is the value of the kernel's binary64 number [f]. *)
Definition is_float (f : PrimFloat.float) (x : Q) : bool :=
  match of_float f with
  | Some y => Qeq_bool x y
  | None => false
  end.

End binary64.

(* ================================================================== *)
(** * Definitions                                                      *)
(* ================================================================== *)

(** ** src/core/composite_builder.py: effect descriptors *)

Module composite_builder.

(** [SilenceCut]: a segment to keep after silence removal. *)
Record SilenceCut : Type := mkSilenceCut {
  start : Q;
  end_ : Q
}.

(** [ZoomKeyframe]: a zoom transformation at a specific time. *)
Record ZoomKeyframe : Type := mkZoomKeyframe {
  time : Q;
  zoom_factor : Q;
  center_x : Q;
  center_y : Q
}.

(** The zoom factor and centre that [zoom_function] settles on. *)
Definition zoom_params : Type := (Q * Q * Q)%type.

Definition keyframe_params (kf : ZoomKeyframe) : zoom_params :=
  (zoom_factor kf, center_x kf, center_y kf).

(** The [for i, kf in enumerate(self.zoom_keyframes)] loop inside
    [zoom_function] of [_apply_zoom_effect].  [prev_kf] is
    [self.zoom_keyframes[i-1]], absent when [i == 0]; at the end of the list
    it is [self.zoom_keyframes[-1]], so the empty list falls through to the
    initial values 1.0 and (0.5, 0.5).  [None] stands for the
    [ZeroDivisionError] of [progress] when both keyframes have one time. *)
Fixpoint zoom_loop (t : Q) (prev_kf : option ZoomKeyframe)
    (zoom_keyframes : list ZoomKeyframe) : option zoom_params :=
  match zoom_keyframes with
  | [] =>
      (* for ... else: after all keyframes, use last keyframe *)
      match prev_kf with
      | Some last_kf => Some (keyframe_params last_kf)
      | None => Some (1, 1 # 2, 1 # 2)
      end
  | kf :: rest =>
      if Qlt_bool t (time kf) then
        match prev_kf with
        | None =>
            (* before first keyframe, use first keyframe values *)
            Some (keyframe_params kf)
        | Some prev_kf =>
            if Qeq_bool (time kf - time prev_kf) 0 then None
            else
              let progress := (t - time prev_kf) / (time kf - time prev_kf) in
              Some (zoom_factor prev_kf + progress * (zoom_factor kf - zoom_factor prev_kf),
                    center_x prev_kf + progress * (center_x kf - center_x prev_kf),
                    center_y prev_kf + progress * (center_y kf - center_y prev_kf))
        end
      else zoom_loop t (Some kf) rest
  end.

(** The values [zoom_function] uses at time [t]. *)
Definition zoom_at (zoom_keyframes : list ZoomKeyframe) (t : Q) : option zoom_params :=
  zoom_loop t None zoom_keyframes.

(** [MediaOverlay]: an image or B-roll overlay. *)
Record MediaOverlay : Type := mkMediaOverlay {
  start_time : Q;
  duration : Q;
  media_path : string;
  media_type : string;          (* 'image' or 'video' *)
  transition : string;
  position : Z * Z;
  size : option (nat * nat)
}.

(** *** MoviePy clips

    The builder only composes MoviePy objects; a clip is the tree of the
    library calls that made it.  [VideoFileClip], [AudioFileClip] and
    [ImageClip] open a media file and carry the handle they hold; every
    other constructor is a method or function of the library applied to
    clips. *)
#[warnings="-register-all"]
Inductive Clip : Type :=
| VideoFileClip (handle : nat) (path : string)
| AudioFileClip (handle : nat) (path : string)
| ImageClip (handle : nat) (path : string)
| subclip (c : Clip) (t_start t_end : Q)
| set_duration (c : Clip) (d : Q)
| crossfadein (c : Clip) (d : Q)
| crossfadeout (c : Clip) (d : Q)
| resize (c : Clip) (new_size : nat * nat)
| set_start (c : Clip) (t : Q)
| set_position (c : Clip) (pos : Z * Z)
| fl_zoom (c : Clip) (keyframes : list ZoomKeyframe)
| concatenate_videoclips (clips : list Clip) (method : string)
| CompositeVideoClip (clips : list Clip)
| audio (c : Clip)
| volumex (c : Clip) (factor : Q)
| audio_fadein (c : Clip) (d : Q)
| audio_fadeout (c : Clip) (d : Q)
| CompositeAudioClip (clips : list Clip)
| set_audio (c : Clip) (a : Clip).

(** The file handle a clip holds.  A clip derived from a file clip by a
    method (a copy, in MoviePy) shares the reader of its source, so closing
    it closes that handle; compositions hold none of their own. *)
Fixpoint reader (c : Clip) : option nat :=
  match c with
  | VideoFileClip handle _ | AudioFileClip handle _ | ImageClip handle _ => Some handle
  | subclip c _ _ | set_duration c _ | crossfadein c _ | crossfadeout c _
  | resize c _ | set_start c _ | set_position c _ | fl_zoom c _
  | audio c | volumex c _ | audio_fadein c _ | audio_fadeout c _
  | set_audio c _ => reader c
  | concatenate_videoclips _ _ | CompositeVideoClip _ | CompositeAudioClip _ => None
  end.

(** *** The builder object *)

Record CompositeVideoBuilder : Type := mkBuilder {
  input_video_path : string;
  base_clip : option Clip;
  silence_cuts : list SilenceCut;
  zoom_keyframes : list ZoomKeyframe;
  media_overlays : list MediaOverlay;
  intro_clips : list Clip;
  outro_clips : list Clip;
  background_music : option string;
  music_volume : Q;
  speech_volume : Q;
  _loaded_clips : list Clip
}.

(** The five effect steps of [render], its two concatenation steps and
    the encode. *)
Inductive RenderStep : Type :=
| SilenceCuts
| ZoomEffects
| MediaOverlays
| BackgroundMusic
| PrependIntro
| AppendOutro
| Encode.

(** What [render] did, in order: a step applied to a clip with its result,
    or the call of [write_videofile] on a clip. *)
Inductive Event : Type :=
| Applied (step : RenderStep) (input output : Clip)
| write_videofile (clip : Clip) (codec audio_codec preset : string).

(** The media objects outside the builder: the handles that are open and
    the record of what [render] did. *)
Record Media : Type := mkMedia {
  next_handle : nat;
  open_handles : list nat;
  events : list Event
}.

(** How loading one overlay goes: the constructor raises and nothing is
    opened, or a later call on the opened clip raises ([subclip] or
    [set_duration], the crossfades, [resize], [set_start],
    [set_position]), or nothing raises. *)
Inductive OverlayFault : Type :=
| ConstructorRaises
| MethodRaises
| NoFault.

(** The behaviour of the library and of the file system during one
    [render]: what [clip.duration] and [clip.audio] report and which
    calls raise. *)
Record Env : Type := mkEnv {
  clip_duration : Clip -> Q;
  clip_has_audio : Clip -> bool;
  base_clip_raises : bool;              (* VideoFileClip(input_video_path) *)
  subclip_raises : nat -> bool;         (* clip.subclip of the n-th cut *)
  overlay_fault : nat -> OverlayFault;  (* loading the n-th overlay *)
  music_exists : bool;                  (* background_music.exists() *)
  music_file_raises : bool;             (* AudioFileClip(background_music) *)
  music_mix_raises : bool;              (* a later call of the music step *)
  step_raises : RenderStep -> bool      (* the uncaught call of a step *)
}.

(** *** Effects: state and exceptions *)

Inductive Result (A : Type) : Type :=
| Return (a : A)
| Raised.
Arguments Return {A} a.
Arguments Raised {A}.

Definition State : Type := (CompositeVideoBuilder * Media)%type.

Definition M (A : Type) : Type := State -> Result A * State.

Definition ret {A : Type} (a : A) : M A := fun s => (Return a, s).

Definition bind {A B : Type} (m : M A) (k : A -> M B) : M B :=
  fun s =>
    match m s with
    | (Return a, s') => k a s'
    | (Raised, s') => (Raised, s')
    end.

Definition raise {A : Type} : M A := fun s => (Raised, s).

(** [try: body except Exception: handler]. *)
Definition try_except {A : Type} (body handler : M A) : M A :=
  fun s =>
    match body s with
    | (Return a, s') => (Return a, s')
    | (Raised, s') => handler s'
    end.

(** [try: body finally: cleanup]. *)
Definition try_finally {A : Type} (body : M A) (cleanup : M unit) : M A :=
  fun s =>
    match body s with
    | (r, s') =>
        match cleanup s' with
        | (Return _, s'') => (r, s'')
        | (Raised, s'') => (Raised, s'')
        end
    end.

Notation "x <- m ;; k" := (bind m (fun x => k))
  (at level 61, m at next level, right associativity).
Notation "m ;;; k" := (bind m (fun _ => k))
  (at level 61, right associativity).

Definition get_self : M CompositeVideoBuilder := fun s => (Return (fst s), s).

Definition raise_if (b : bool) : M unit := if b then raise else ret tt.

(** A constructor that opens a media file: a fresh handle, now open. *)
Definition open_file : M nat :=
  fun s =>
    let media := snd s in
    (Return (next_handle media),
     (fst s, mkMedia (S (next_handle media))
                     (next_handle media :: open_handles media)
                     (events media))).

(** [clip.close()]. *)
Definition close (clip : Clip) : M unit :=
  fun s =>
    let media := snd s in
    (Return tt,
     (fst s,
      mkMedia (next_handle media)
              (match reader clip with
               | Some handle => remove Nat.eq_dec handle (open_handles media)
               | None => open_handles media
               end)
              (events media))).

Definition record_event (e : Event) : M unit :=
  fun s =>
    let media := snd s in
    (Return tt,
     (fst s, mkMedia (next_handle media) (open_handles media) (events media ++ [e]))).

Definition set_loaded_clips (clips : list Clip) (self : CompositeVideoBuilder)
    : CompositeVideoBuilder :=
  mkBuilder (input_video_path self) (base_clip self) (silence_cuts self)
    (zoom_keyframes self) (media_overlays self) (intro_clips self)
    (outro_clips self) (background_music self) (music_volume self)
    (speech_volume self) clips.

(** [self._loaded_clips.append(clip)]. *)
Definition loaded_clips_append (clip : Clip) : M unit :=
  fun s => (Return tt, (set_loaded_clips (_loaded_clips (fst s) ++ [clip]) (fst s), snd s)).

(** [self.base_clip = clip]. *)
Definition set_base_clip (clip : Clip) : M unit :=
  fun s =>
    let self := fst s in
    (Return tt,
     (mkBuilder (input_video_path self) (Some clip) (silence_cuts self)
        (zoom_keyframes self) (media_overlays self) (intro_clips self)
        (outro_clips self) (background_music self) (music_volume self)
        (speech_volume self) (_loaded_clips self),
      snd s)).

(** *** Queueing effects *)

(** [__init__]. *)
Definition init (input_video_path : string) : CompositeVideoBuilder :=
  mkBuilder input_video_path None [] [] [] [] [] None (3 # 10) 1 [].

Definition add_silence_cuts (cuts : list SilenceCut) (self : CompositeVideoBuilder)
    : CompositeVideoBuilder :=
  mkBuilder (input_video_path self) (base_clip self) cuts
    (zoom_keyframes self) (media_overlays self) (intro_clips self)
    (outro_clips self) (background_music self) (music_volume self)
    (speech_volume self) (_loaded_clips self).

(** [sorted(keyframes, key=lambda k: k.time)], a stable sort. *)
Fixpoint insert_by_time (k : ZoomKeyframe) (l : list ZoomKeyframe) : list ZoomKeyframe :=
  match l with
  | [] => [k]
  | k' :: rest =>
      if Qle_bool (time k) (time k') then k :: l else k' :: insert_by_time k rest
  end.

Definition add_zoom_keyframes (keyframes : list ZoomKeyframe)
    (self : CompositeVideoBuilder) : CompositeVideoBuilder :=
  mkBuilder (input_video_path self) (base_clip self) (silence_cuts self)
    (fold_right insert_by_time [] keyframes) (media_overlays self) (intro_clips self)
    (outro_clips self) (background_music self) (music_volume self)
    (speech_volume self) (_loaded_clips self).

Definition add_media_overlays (overlays : list MediaOverlay)
    (self : CompositeVideoBuilder) : CompositeVideoBuilder :=
  mkBuilder (input_video_path self) (base_clip self) (silence_cuts self)
    (zoom_keyframes self) overlays (intro_clips self)
    (outro_clips self) (background_music self) (music_volume self)
    (speech_volume self) (_loaded_clips self).

Definition add_music (music_path : string) (volume speech_volume : Q)
    (self : CompositeVideoBuilder) : CompositeVideoBuilder :=
  mkBuilder (input_video_path self) (base_clip self) (silence_cuts self)
    (zoom_keyframes self) (media_overlays self) (intro_clips self)
    (outro_clips self) (Some music_path) volume speech_volume (_loaded_clips self).

(** [add_intro]: opens the intro clip, queues it and registers it for
    cleanup. *)
Definition add_intro (intro_clip_path : string) : M unit :=
  handle <- open_file ;;
  let intro_clip := VideoFileClip handle intro_clip_path in
  fun s =>
    let self := fst s in
    (Return tt,
     (mkBuilder (input_video_path self) (base_clip self) (silence_cuts self)
        (zoom_keyframes self) (media_overlays self) (intro_clips self ++ [intro_clip])
        (outro_clips self) (background_music self) (music_volume self)
        (speech_volume self) (_loaded_clips self ++ [intro_clip]),
      snd s)).

(** [add_outro]. *)
Definition add_outro (outro_clip_path : string) : M unit :=
  handle <- open_file ;;
  let outro_clip := VideoFileClip handle outro_clip_path in
  fun s =>
    let self := fst s in
    (Return tt,
     (mkBuilder (input_video_path self) (base_clip self) (silence_cuts self)
        (zoom_keyframes self) (media_overlays self) (intro_clips self)
        (outro_clips self ++ [outro_clip]) (background_music self) (music_volume self)
        (speech_volume self) (_loaded_clips self ++ [outro_clip]),
      snd s)).

(** *** The render steps *)

(** The loop of [_apply_silence_cuts]; a sub-clip whose extraction raises
    is logged and left out. *)
Fixpoint extract_subclips (env : Env) (clip : Clip) (i : nat)
    (cuts : list SilenceCut) : list Clip :=
  match cuts with
  | [] => []
  | cut :: rest =>
      if subclip_raises env i then extract_subclips env clip (S i) rest
      else subclip clip (start cut) (end_ cut) :: extract_subclips env clip (S i) rest
  end.

Definition _apply_silence_cuts (env : Env) (clip : Clip) : M Clip :=
  self <- get_self ;;
  match silence_cuts self with
  | [] => ret clip
  | _ =>
      match extract_subclips env clip 0 (silence_cuts self) with
      | [] => ret clip
      | subclips =>
          raise_if (step_raises env SilenceCuts) ;;;
          ret (concatenate_videoclips subclips "compose")
      end
  end.

(** [_apply_zoom_effect]: [clip.fl(zoom_function)], where [zoom_function]
    takes its values from [zoom_at]. *)
Definition _apply_zoom_effect (env : Env) (clip : Clip) : M Clip :=
  self <- get_self ;;
  match zoom_keyframes self with
  | [] => ret clip
  | keyframes =>
      raise_if (step_raises env ZoomEffects) ;;;
      ret (fl_zoom clip keyframes)
  end.

(** The body of the [try] in the overlay loop, up to the clip that is
    appended. *)
Definition load_overlay (env : Env) (i : nat) (overlay : MediaOverlay) : M Clip :=
  match overlay_fault env i with
  | ConstructorRaises => raise
  | fault =>
      handle <- open_file ;;
      let media_clip :=
        if String.eqb (media_type overlay) "image"
        then set_duration (ImageClip handle (media_path overlay)) (duration overlay)
        else subclip (VideoFileClip handle (media_path overlay)) 0 (duration overlay) in
      match fault with
      | MethodRaises => raise
      | _ =>
          let media_clip :=
            if String.eqb (transition overlay) "fade"
            then crossfadeout (crossfadein media_clip (1 # 2)) (1 # 2)
            else media_clip in
          let media_clip :=
            match size overlay with
            | Some new_size => resize media_clip new_size
            | None => media_clip
            end in
          ret (set_position (set_start media_clip (start_time overlay)) (position overlay))
      end
  end.

(** [for i, overlay in enumerate(self.media_overlays)]. *)
Fixpoint load_overlays (env : Env) (i : nat) (overlays : list MediaOverlay)
    (overlay_clips : list Clip) : M (list Clip) :=
  match overlays with
  | [] => ret overlay_clips
  | overlay :: rest =>
      overlay_clips <-
        try_except
          (media_clip <- load_overlay env i overlay ;;
           loaded_clips_append media_clip ;;;
           ret (overlay_clips ++ [media_clip]))
          (ret overlay_clips) ;;
      load_overlays env (S i) rest overlay_clips
  end.

Definition _apply_media_overlays (env : Env) (clip : Clip) : M Clip :=
  self <- get_self ;;
  match media_overlays self with
  | [] => ret clip
  | overlays =>
      overlay_clips <- load_overlays env 0 overlays [] ;;
      match overlay_clips with
      | [] => ret clip
      | _ =>
          raise_if (step_raises env MediaOverlays) ;;;
          ret (CompositeVideoClip (clip :: overlay_clips))
      end
  end.

(** A clip with a picture.  The file clips and the compositions of video
    have a [size]; an audio clip has none. *)
Fixpoint has_size (c : Clip) : bool :=
  match c with
  | VideoFileClip _ _ | ImageClip _ _ => true
  | AudioFileClip _ _ | audio _ | CompositeAudioClip _ => false
  | concatenate_videoclips _ _ | CompositeVideoClip _ => true
  | subclip c _ _ | set_duration c _ | crossfadein c _ | crossfadeout c _
  | resize c _ | set_start c _ | set_position c _ | fl_zoom c _
  | volumex c _ | audio_fadein c _ | audio_fadeout c _ | set_audio c _ => has_size c
  end.

(** The library's [concatenate_videoclips(clips)] as the music step calls
    it.  It takes [v.size] of every clip and the largest width and height
    among them: on a clip without a size that is an [AttributeError], on no
    clip at all a [ValueError]. *)
Definition call_concatenate_videoclips (clips : list Clip) (method : string) : M Clip :=
  match clips with
  | [] => raise
  | _ =>
      if forallb has_size clips then ret (concatenate_videoclips clips method)
      else raise
  end.

(** The music looped or trimmed to the clip.  When it is shorter,
    [int(np.ceil(clip.duration / music.duration))] copies of it go through
    [concatenate_videoclips]; the division raises on a zero duration. *)
Definition fit_music (env : Env) (music clip : Clip) : M Clip :=
  if Qlt_bool (clip_duration env music) (clip_duration env clip) then
    raise_if (Qeq_bool (clip_duration env music) 0) ;;;
    let loops :=
      Qceiling (binary64.fdiv (clip_duration env clip) (clip_duration env music)) in
    music <- call_concatenate_videoclips (repeat music (Z.to_nat loops)) "chain" ;;
    ret (subclip music 0 (clip_duration env clip))
  else ret (subclip music 0 (clip_duration env clip)).

Definition _apply_background_music (env : Env) (clip : Clip) : M Clip :=
  self <- get_self ;;
  match background_music self with
  | None => ret clip
  | Some music_path =>
      raise_if (step_raises env BackgroundMusic) ;;;
      if negb (music_exists env) then ret clip
      else
        try_except
          (raise_if (music_file_raises env) ;;;
           handle <- open_file ;;
           let music := AudioFileClip handle music_path in
           loaded_clips_append music ;;;
           music <- fit_music env music clip ;;
           raise_if (music_mix_raises env) ;;;
           let music := volumex music (music_volume self) in
           let mixed_audio :=
             if clip_has_audio env clip
             then CompositeAudioClip [volumex (audio clip) (speech_volume self); music]
             else music in
           ret (set_audio clip mixed_audio))
          (ret clip)
  end.

(** [_cleanup]: close all loaded clips, then clear the list. *)
Fixpoint close_all (clips : list Clip) : M unit :=
  match clips with
  | [] => ret tt
  | clip :: rest => try_except (close clip) (ret tt) ;;; close_all rest
  end.

Definition _cleanup : M unit :=
  self <- get_self ;;
  close_all (_loaded_clips self) ;;;
  fun s => (Return tt, (set_loaded_clips [] (fst s), snd s)).

(** [if queue: clip = step(clip)], with the record of what was applied. *)
Definition run_step (step : RenderStep) (queued : bool) (apply : Clip -> M Clip)
    (clip : Clip) : M Clip :=
  if queued then
    output <- apply clip ;;
    record_event (Applied step clip output) ;;;
    ret output
  else ret clip.

Definition nonempty {A : Type} (l : list A) : bool :=
  match l with
  | [] => false
  | _ => true
  end.

Definition is_set {A : Type} (o : option A) : bool :=
  match o with
  | Some _ => true
  | None => false
  end.

(** Which steps the queues of a builder call for. *)
Definition queued (self : CompositeVideoBuilder) (step : RenderStep) : bool :=
  match step with
  | SilenceCuts => nonempty (silence_cuts self)
  | ZoomEffects => nonempty (zoom_keyframes self)
  | MediaOverlays => nonempty (media_overlays self)
  | BackgroundMusic => is_set (background_music self)
  | PrependIntro => nonempty (intro_clips self)
  | AppendOutro => nonempty (outro_clips self)
  | Encode => true
  end.

(** The [try] block of [render]. *)
Definition render_body (env : Env) (output_path preset : string) : M string :=
  raise_if (base_clip_raises env) ;;;
  handle <- open_file ;;
  self <- get_self ;;
  let base := VideoFileClip handle (input_video_path self) in
  set_base_clip base ;;;
  loaded_clips_append base ;;;
  (* 1. Silence cuts (if any) *)
  clip <- run_step SilenceCuts (queued self SilenceCuts) (_apply_silence_cuts env) base ;;
  (* 2. Zoom effects *)
  clip <- run_step ZoomEffects (queued self ZoomEffects) (_apply_zoom_effect env) clip ;;
  (* 3. Media overlays *)
  clip <- run_step MediaOverlays (queued self MediaOverlays)
            (_apply_media_overlays env) clip ;;
  (* 4. Background music *)
  clip <- run_step BackgroundMusic (queued self BackgroundMusic)
            (_apply_background_music env) clip ;;
  (* 5. Prepend intro(s) *)
  clip <- run_step PrependIntro (queued self PrependIntro)
            (fun clip =>
               raise_if (step_raises env PrependIntro) ;;;
               ret (concatenate_videoclips (intro_clips self ++ [clip]) "compose"))
            clip ;;
  (* 6. Append outro(s) *)
  clip <- run_step AppendOutro (queued self AppendOutro)
            (fun clip =>
               raise_if (step_raises env AppendOutro) ;;;
               ret (concatenate_videoclips (clip :: outro_clips self) "compose"))
            clip ;;
  (* Write ONCE (the only encoding step!) *)
  record_event (write_videofile clip "libx264" "aac" preset) ;;;
  raise_if (step_raises env Encode) ;;;
  ret output_path.

(** [render]: build the composite and write it once; clean up in any
    case. *)
Definition render (env : Env) (output_path preset : string) : M string :=
  try_finally (render_body env output_path preset) _cleanup.

End composite_builder.

(** ** src/core/video_analysis.py *)

Module video_analysis.
Import composite_builder binary64.

(** [calculate_total_duration_after_cuts]: [sum] over the kept lengths,
    from 0 and from left to right.  (CPython from 3.12 on carries a
    correction term along, which is 0 as long as no addition rounds.) *)
Definition calculate_total_duration_after_cuts (silence_cuts : list SilenceCut) : Q :=
  fold_left (fun total cut => fadd total (fsub (end_ cut) (start cut))) silence_cuts 0.

(** The inner [for cut in silence_cuts] loop of
    [adjust_timestamps_for_cuts], with [cumulative_time] as the loop
    accumulator; both [break]s end the recursion. *)
Fixpoint cumulative_time_loop (original_t cumulative_time : Q)
    (silence_cuts : list SilenceCut) : Q :=
  match silence_cuts with
  | [] => cumulative_time
  | cut :: rest =>
      if Qlt_bool original_t (start cut) then
        (* cut.start > original_t: break *)
        cumulative_time
      else if Qle_bool (end_ cut) original_t then
        (* this entire segment is before our timestamp *)
        cumulative_time_loop original_t
          (fadd cumulative_time (fsub (end_ cut) (start cut))) rest
      else
        (* our timestamp is within this segment: break *)
        fadd cumulative_time (fsub original_t (start cut))
  end.

(** The body of the outer loop for one timestamp. *)
Definition adjust_timestamp (original_t : Q) (silence_cuts : list SilenceCut) : Q :=
  let cumulative_time := cumulative_time_loop original_t 0 silence_cuts in
  let removed_before := fsub original_t cumulative_time in
  fsub original_t removed_before.

Definition adjust_timestamps_for_cuts (original_timestamps : list Q)
    (silence_cuts : list SilenceCut) : list Q :=
  map (fun original_t => adjust_timestamp original_t silence_cuts)
      original_timestamps.

End video_analysis.

(** ** src/core/video_processing.py: overlap avoidance *)

Module video_processing.

(** Python's [min(a, b)] on floats. *)
Definition py_min (a b : Q) : Q := if Qle_bool a b then a else b.

(** A suggestion dict: its ['start_time'] and, as [content], its other
    keys.  Each suggestion of the input is a dict object of its own. *)
Record Suggestion : Type := mkSuggestion {
  start_time : Q;
  content : string
}.

Inductive media_type : Type := broll | image.

(** An interval dict with its keys ['index'], ['start'], ['end'], ['type']
    and ['suggestion']. *)
Record Interval : Type := mkInterval {
  index : nat;
  start : Q;
  end_ : Q;
  type : media_type;
  suggestion_ : Suggestion
}.

Definition media_type_eqb (a b : media_type) : bool :=
  match a, b with
  | broll, broll | image, image => true
  | _, _ => false
  end.

(** Python's [==] on the suggestion and interval dicts: key by key, floats
    by value. *)
Definition suggestion_eqb (a b : Suggestion) : bool :=
  Qeq_bool (start_time a) (start_time b) && String.eqb (content a) (content b).

Definition interval_eqb (a b : Interval) : bool :=
  Nat.eqb (index a) (index b) && Qeq_bool (start a) (start b)
  && Qeq_bool (end_ a) (end_ b) && media_type_eqb (type a) (type b)
  && suggestion_eqb (suggestion_ a) (suggestion_ b).

(** The two [for i, suggestion in enumerate(...)] loops that convert the
    suggestions to time intervals; [i] is the running index. *)
Fixpoint to_intervals (ty : media_type) (clip_duration video_duration : Q)
    (i : nat) (suggestions : list Suggestion) : list Interval :=
  match suggestions with
  | [] => []
  | suggestion :: rest =>
      let start := start_time suggestion in
      let duration := py_min clip_duration (video_duration - start) in
      if Qlt_bool 0 duration then
        mkInterval i start (start + duration) ty suggestion
          :: to_intervals ty clip_duration video_duration (S i) rest
      else to_intervals ty clip_duration video_duration (S i) rest
  end.

(** [sorted(..., key=lambda x: x['start'])]: a stable sort, as insertion
    from the right; an element goes before the first one whose key is not
    smaller than its own. *)
Fixpoint insert_by_start (x : Interval) (l : list Interval) : list Interval :=
  match l with
  | [] => [x]
  | y :: rest =>
      if Qle_bool (start x) (start y) then x :: l
      else y :: insert_by_start x rest
  end.

Definition sorted_by_start (l : list Interval) : list Interval :=
  fold_right insert_by_start [] l.

(** Minimum 0.5 second gap between multimedia elements. *)
Definition min_gap : Q := 1 # 2.

(** The overlap test of the source, accounting for the minimum gap. *)
Definition overlaps (a_start a_end : Q) (r : Interval) : bool :=
  Qlt_bool a_start (end_ r + min_gap) && Qlt_bool (start r) (a_end + min_gap).

(** The interval after [interval['start'] = new_start],
    [interval['end'] = new_end] and
    [interval['suggestion']['start_time'] = new_start]. *)
Definition moved (interval : Interval) (new_start new_end : Q) : Interval :=
  mkInterval (index interval) new_start new_end (type interval)
    (mkSuggestion new_start (content (suggestion_ interval))).

(** The check loop of option 2: some [r] of the resolved intervals with
    [r != resolved] overlaps the new placement. *)
Definition creates_new_conflict (new_start new_end : Q) (resolved : Interval)
    (resolved_intervals : list Interval) : bool :=
  existsb (fun r => negb (interval_eqb r resolved) && overlaps new_start new_end r)
          resolved_intervals.

(** The loop [for resolved in resolved_intervals] for one candidate.
    [remaining] is the part of [resolved_intervals] still to visit and
    [conflict_found] the flag of the source.  The result is the interval to
    append, or [None] when the candidate is skipped. *)
Fixpoint resolve_conflicts (video_duration : Q) (interval : Interval)
    (resolved_intervals remaining : list Interval) (conflict_found : bool)
    : option Interval :=
  match remaining with
  | [] => if conflict_found then None else Some interval
  | resolved :: rest =>
      if overlaps (start interval) (end_ interval) resolved then
        (* Option 1: move current interval after the conflicting one *)
        let new_start := end_ resolved + min_gap in
        let new_end := new_start + (end_ interval - start interval) in
        if Qle_bool new_end video_duration then
          Some (moved interval new_start new_end)
        else
          (* Option 2: try to place before the conflicting interval *)
          let new_end := start resolved - min_gap in
          let new_start := new_end - (end_ interval - start interval) in
          if Qle_bool 0 new_start
             && negb (creates_new_conflict new_start new_end resolved resolved_intervals)
          then Some (moved interval new_start new_end)
          else resolve_conflicts video_duration interval resolved_intervals rest true
      else
        resolve_conflicts video_duration interval resolved_intervals rest conflict_found
  end.

(** The outer loop [for interval in all_intervals]. *)
Fixpoint resolve_all (video_duration : Q) (all_intervals resolved_intervals : list Interval)
    : list Interval :=
  match all_intervals with
  | [] => resolved_intervals
  | interval :: rest =>
      match resolve_conflicts video_duration interval
              resolved_intervals resolved_intervals false with
      | Some placed => resolve_all video_duration rest (resolved_intervals ++ [placed])
      | None => resolve_all video_duration rest resolved_intervals
      end
  end.

Definition suggestions_of (ty : media_type) (resolved_intervals : list Interval)
    : list Suggestion :=
  map suggestion_
      (filter (fun interval => media_type_eqb (type interval) ty) resolved_intervals).

(** The resolved intervals of a call, before they are separated by type. *)
Definition resolved_intervals_of (broll_suggestions image_suggestions : list Suggestion)
    (video_duration broll_clip_duration image_display_duration : Q) : list Interval :=
  let broll_intervals :=
    to_intervals broll broll_clip_duration video_duration 0 broll_suggestions in
  let image_intervals :=
    to_intervals image image_display_duration video_duration 0 image_suggestions in
  let all_intervals := sorted_by_start (broll_intervals ++ image_intervals) in
  resolve_all video_duration all_intervals [].

Definition avoid_multimedia_overlaps (broll_suggestions image_suggestions : list Suggestion)
    (video_duration broll_clip_duration image_display_duration : Q)
    : list Suggestion * list Suggestion :=
  let resolved_intervals :=
    resolved_intervals_of broll_suggestions image_suggestions
      video_duration broll_clip_duration image_display_duration in
  (suggestions_of broll resolved_intervals, suggestions_of image resolved_intervals).

(** *** Caption timestamps *)

(** Python's [int(x)] on a float: truncation toward zero. *)
Definition py_int (x : Q) : Z := if Qle_bool 0 x then Qfloor x else Qceiling x.

(** Python's [round(x)] on a float: the nearest integer, ties to the even
    one. *)
Definition py_round (x : Q) : Z :=
  let f := Qfloor x in
  let r := x - inject_Z f in
  if Qlt_bool r (1 # 2) then f
  else if Qlt_bool (1 # 2) r then (f + 1)%Z
  else if Z.even f then f else (f + 1)%Z.

(** The decimal digits of a natural number. *)
Definition decimal (n : Z) : string :=
  NilZero.string_of_uint (N.to_uint (Z.to_N n)).

Fixpoint zeros (n : nat) : string :=
  match n with
  | O => EmptyString
  | S n' => String "0" (zeros n')
  end.

(** The format specifications [:02d] and [:03d]: a minimum width, filled
    with zeros after the sign. *)
Definition format_0d (width : nat) (n : Z) : string :=
  if (n <? 0)%Z then
    String "-" (zeros (width - 1 - String.length (decimal (- n))) ++ decimal (- n))
  else zeros (width - String.length (decimal n)) ++ decimal n.

(** [_format_time_srt]: converts seconds to SRT time format HH:MM:SS,mmm. *)
Definition _format_time_srt (time_seconds : Q) : string :=
  let millisec :=
    py_round ((time_seconds - inject_Z (py_int time_seconds)) * 1000) in
  let seconds := py_int time_seconds in
  let minutes := (seconds / 60)%Z in
  let seconds := (seconds mod 60)%Z in
  let hours := (minutes / 60)%Z in
  let minutes := (minutes mod 60)%Z in
  format_0d 2 hours ++ ":" ++ format_0d 2 minutes ++ ":" ++ format_0d 2 seconds
    ++ "," ++ format_0d 3 millisec.

(** The timing line [transcribe_video_whisper] writes for one segment. *)
Definition srt_time_line (segment_start segment_end : Q) : string :=
  _format_time_srt segment_start ++ " --> " ++ _format_time_srt segment_end.

(** *** The stage orchestrator *)

(** The skip flags and switches of [process_video] that gate a stage. *)
Record Flags : Type := mkFlags {
  skip_audio : bool;
  skip_silence : bool;
  skip_transcription : bool;
  skip_gpt_correct : bool;
  skip_subtitle_burn : bool;
  skip_outro : bool;
  skip_broll : bool;
  skip_ai_highlights : bool;
  skip_topic_card : bool;
  skip_frame : bool;
  skip_flash_logo : bool;
  skip_background_music : bool;
  skip_sound_effects : bool;
  use_ai_word_highlighting : bool;
  skip_image_generation : bool;
  skip_bad_take_removal : bool;
  skip_enhanced_auto_zoom : bool
}.

(** The defaults of the signature: nothing is skipped and AI word
    highlighting is on. *)
Definition default_flags : Flags :=
  mkFlags false false false false false false false false false false false
          false false true false false false.

(** The transcript file [transcript_path]: whether it exists and whether
    its size is positive. *)
Record TranscriptFile : Type := mkTranscriptFile {
  file_exists : bool;
  file_nonempty : bool
}.

(** What a call of [transcribe_video_whisper] does: it returns [True]
    after writing the captions, or [False] after an exception raised
    either before the caption file was opened for writing or while it was
    being written. *)
Inductive WhisperOutcome : Type :=
| Transcribed (nonempty : bool)
| FailedBeforeWrite
| FailedDuringWrite (nonempty : bool).

(** The part of the environment the gating depends on. *)
Record World : Type := mkWorld {
  transcript_before : TranscriptFile;   (* left in temp_processing by an earlier run *)
  whisper : WhisperOutcome;
  bad_takes_found : bool;
  remove_bad_takes_ok : bool;
  whisper_again : WhisperOutcome
}.

Definition whisper_returns (o : WhisperOutcome) : bool :=
  match o with
  | Transcribed _ => true
  | _ => false
  end.

Definition after_whisper (o : WhisperOutcome) (f : TranscriptFile) : TranscriptFile :=
  match o with
  | Transcribed nonempty => mkTranscriptFile true nonempty
  | FailedBeforeWrite => f
  | FailedDuringWrite nonempty => mkTranscriptFile true nonempty
  end.

(** [transcript_path.touch()]. *)
Definition touch (f : TranscriptFile) : TranscriptFile :=
  mkTranscriptFile true (file_exists f && file_nonempty f).

(** The stages of [process_video], as invocations of their producers. *)
Inductive Stage : Type :=
| AudioEnhancement
| SilenceRemoval
| Transcription
| BadTakeRemoval
| ReTranscription
| GPTCorrection
| TopicDetection
| AIHighlights
| Multimedia (with_broll with_images : bool)
| EnhancedAutoZoom
| TopicCard
| FlashLogo
| OutroAddition
| BackgroundMusic
| SoundEffects
| SubtitleBurning
| AddFrame.

Inductive Outcome : Type :=
| Finished
| UnboundLocalError.

(** [if guard: run stage]. *)
Definition when (guard : bool) (stage : Stage) : list Stage :=
  if guard then [stage] else [].

(** [process_video] from Step 1 to the final move: the stages invoked, in
    order, and how the function ends.  Stage failures other than those of
    transcription only leave [current_video_path] where it was and do not
    change which stages run. *)
Definition process_video (flags : Flags) (world : World) : list Stage * Outcome :=
  let step1 := when (negb (skip_audio flags)) AudioEnhancement in
  let step2 := when (negb (skip_silence flags)) SilenceRemoval in
  (* Step 3: Transcription *)
  let transcription_failed :=
    negb (skip_transcription flags) && negb (whisper_returns (whisper world)) in
  let step3 := when (negb (skip_transcription flags)) Transcription in
  let file3 :=
    if skip_transcription flags then touch (transcript_before world)
    else after_whisper (whisper world) (transcript_before world) in
  (* skip_gpt_correct = skip_subtitle_burn = skip_ai_highlights = skip_broll = True *)
  let skip_gpt_correct := skip_gpt_correct flags || transcription_failed in
  let skip_subtitle_burn := skip_subtitle_burn flags || transcription_failed in
  let skip_ai_highlights := skip_ai_highlights flags || transcription_failed in
  let skip_broll := skip_broll flags || transcription_failed in
  (* Step 3.5: Bad Take Removal *)
  let bad_take_guard :=
    negb (skip_bad_take_removal flags) && file_exists file3 && file_nonempty file3 in
  let retranscribed :=
    bad_take_guard && bad_takes_found world && remove_bad_takes_ok world in
  let step3_5 := when bad_take_guard BadTakeRemoval ++ when retranscribed ReTranscription in
  let file := if retranscribed then after_whisper (whisper_again world) file3 else file3 in
  (* Step 4: GPT Correction *)
  let step4 := when (negb skip_gpt_correct && file_exists file) GPTCorrection in
  (* Step 5: AI Topic Detection *)
  let topic_guard := file_exists file && file_nonempty file in
  let step5 := when topic_guard TopicDetection in
  (* Step 6: AI Multimedia Analysis (reads the transcript) *)
  let multimedia_guard :=
    (negb skip_broll || negb (skip_image_generation flags)) && file_exists file in
  let transcript_text_bound := topic_guard || multimedia_guard in
  (* Step 7: AI Highlights *)
  let highlights_guard :=
    (negb skip_ai_highlights || use_ai_word_highlighting flags) && file_exists file in
  if highlights_guard && negb transcript_text_bound then
    (step1 ++ step2 ++ step3 ++ step3_5 ++ step4 ++ step5, UnboundLocalError)
  else
    let step7 := when highlights_guard AIHighlights in
    (* Step 8: AI B-Roll & Image Generation *)
    let step8 :=
      when multimedia_guard
        (Multimedia (negb skip_broll) (negb (skip_image_generation flags))) in
    let step9 := when (negb (skip_enhanced_auto_zoom flags)) EnhancedAutoZoom in
    let step10 := when (negb (skip_topic_card flags)) TopicCard in
    let step11 := when (negb (skip_flash_logo flags)) FlashLogo in
    let step12 := when (negb (skip_outro flags)) OutroAddition in
    let step13 := when (negb (skip_background_music flags)) BackgroundMusic in
    let step14 := when (negb (skip_sound_effects flags)) SoundEffects in
    let step15 := when (negb skip_subtitle_burn && file_exists file) SubtitleBurning in
    let step16 := when (negb (skip_frame flags)) AddFrame in
    (step1 ++ step2 ++ step3 ++ step3_5 ++ step4 ++ step5 ++ step7 ++ step8 ++ step9
       ++ step10 ++ step11 ++ step12 ++ step13 ++ step14 ++ step15 ++ step16,
     Finished).

End video_processing.

(** ** The specification's vocabulary for kept intervals *)

Module timeline_spec.
Import composite_builder.

(** Kept intervals that are ascending and non-overlapping with
    [start < end]: every interval is non-empty and begins no earlier than
    the previous one ended. *)
Fixpoint ascending_from (lo : Q) (cuts : list SilenceCut) : Prop :=
  match cuts with
  | [] => True
  | c :: rest => lo <= start c /\ start c < end_ c /\ ascending_from (end_ c) rest
  end.

Definition ascending_cuts (cuts : list SilenceCut) : Prop :=
  match cuts with
  | [] => True
  | c :: rest => start c < end_ c /\ ascending_from (end_ c) rest
  end.

(** The kept intervals lie on the source timeline, which begins at 0. *)
Definition on_timeline (cuts : list SilenceCut) : Prop :=
  match cuts with
  | [] => True
  | c :: _ => 0 <= start c
  end.

(** Total kept duration before [t]: the length of [[start, end)] cut off
    at [t], summed over the kept intervals. *)
Fixpoint kept_before (t : Q) (cuts : list SilenceCut) : Q :=
  match cuts with
  | [] => 0
  | c :: rest => Qmax 0 (Qmin t (end_ c) - start c) + kept_before t rest
  end.

(** Total removed duration strictly before [t].  The removed spans are the
    gaps of the timeline: from [cursor] (0 at first, then the end of the
    previous kept interval) to the next kept start, and everything after
    the last kept interval. *)
Fixpoint removed_from (cursor t : Q) (cuts : list SilenceCut) : Q :=
  match cuts with
  | [] => Qmax 0 (t - cursor)
  | c :: rest => Qmax 0 (Qmin t (start c) - cursor) + removed_from (end_ c) t rest
  end.

Definition R (t : Q) (cuts : list SilenceCut) : Q := removed_from 0 t cuts.

(** Total kept duration. *)
Fixpoint kept_total (cuts : list SilenceCut) : Q :=
  match cuts with
  | [] => 0
  | c :: rest => (end_ c - start c) + kept_total rest
  end.

(** The kept intervals of the specification's example. *)
Definition example_cuts : list SilenceCut :=
  [mkSilenceCut 0 10; mkSilenceCut 20 30].

Definition three_cuts : list SilenceCut :=
  [mkSilenceCut 0 10] ++ mkSilenceCut 20 30 :: [mkSilenceCut 40 50].

(** A time that binary64 holds and that it adds to and subtracts from
    other such times without rounding: a whole multiple of [2^-k] seconds,
    below [2^(53-k)] seconds in magnitude. *)
Definition exact_time (k : Z) (x : Q) : Prop :=
  exists n : Z, (Z.abs n < 2 ^ 53)%Z /\ x == inject_Z n * binary64.pow2 (- k).

Definition exact_cuts (k : Z) (cuts : list SilenceCut) : Prop :=
  Forall (fun c => exact_time k (start c) /\ exact_time k (end_ c)) cuts.

(** The spacings [2^-k] that binary64 has, down to the subnormal one. *)
Definition binary64_grid (k : Z) : Prop := (0 <= k <= 1074)%Z.

Definition grid_cuts (k : Z) (cuts : list SilenceCut) : Prop :=
  Forall (fun c => binary64.on_grid k (start c) /\ binary64.on_grid k (end_ c)) cuts.

End timeline_spec.

(** ** The specification's vocabulary for zoom keyframes *)

Module zoom_spec.
Import composite_builder.

(** Keyframes ordered ascending by [time]. *)
Fixpoint keyframes_sorted (kfs : list ZoomKeyframe) : Prop :=
  match kfs with
  | [] => True
  | k :: rest =>
      match rest with
      | [] => True
      | k' :: _ => time k <= time k'
      end /\ keyframes_sorted rest
  end.



(** The keyframes [(0, 1.0)] and [(3, 1.2)] of the specification's
    example, with the default centre. *)
Definition example_keyframes : list ZoomKeyframe :=
  [mkZoomKeyframe 0 1 (1 # 2) (1 # 2); mkZoomKeyframe 3 (12 # 10) (1 # 2) (1 # 2)].

End zoom_spec.

(** ** The specification's vocabulary for overlap avoidance *)

Module overlap_spec.
Import video_processing.

(** A candidate conflicts with an accepted interval: the two are closer
    than the minimum gap. *)
Definition conflicts (candidate accepted : Interval) : bool :=
  overlaps (start candidate) (end_ candidate) accepted.

Definition length_of (candidate : Interval) : Q := end_ candidate - start candidate.

(** The candidate shifted to start at the conflicting interval's end plus
    the gap. *)
Definition shifted_after (candidate r : Interval) : Interval :=
  moved candidate (end_ r + min_gap) (end_ r + min_gap + length_of candidate).

(** The candidate shifted to end at the conflicting interval's start minus
    the gap. *)
Definition shifted_before (candidate r : Interval) : Interval :=
  moved candidate (start r - min_gap - length_of candidate) (start r - min_gap).

(** The placement a conflicting accepted interval [r] admits: after it when
    the new end is within the video, else before it when the new start is
    not negative and no other accepted interval is in conflict with it. *)
Definition placement (video_duration : Q) (candidate r : Interval)
    (accepted : list Interval) : option Interval :=
  if Qle_bool (end_ (shifted_after candidate r)) video_duration then
    Some (shifted_after candidate r)
  else if Qle_bool 0 (start (shifted_before candidate r))
          && negb (existsb (fun r' => negb (interval_eqb r' r)
                                      && conflicts (shifted_before candidate r) r')
                           accepted)
  then Some (shifted_before candidate r)
  else None.

Definition admits (video_duration : Q) (candidate : Interval)
    (accepted : list Interval) (r : Interval) : bool :=
  conflicts candidate r
  && match placement video_duration candidate r accepted with
     | Some _ => true
     | None => false
     end.

(** The policy as the claim words it: the first accepted interval in
    conflict with the candidate decides; when it admits neither placement
    the candidate is dropped. *)
Fixpoint claimed_resolve (video_duration : Q) (candidate : Interval)
    (accepted remaining : list Interval) : option Interval :=
  match remaining with
  | [] => Some candidate
  | r :: rest =>
      if conflicts candidate r then placement video_duration candidate r accepted
      else claimed_resolve video_duration candidate accepted rest
  end.

Fixpoint claimed_walk (video_duration : Q) (candidates accepted : list Interval)
    : list Interval :=
  match candidates with
  | [] => accepted
  | candidate :: rest =>
      match claimed_resolve video_duration candidate accepted accepted with
      | Some placed => claimed_walk video_duration rest (accepted ++ [placed])
      | None => claimed_walk video_duration rest accepted
      end
  end.

Definition claimed_avoidance (broll_suggestions image_suggestions : list Suggestion)
    (video_duration broll_clip_duration image_display_duration : Q)
    : list Suggestion * list Suggestion :=
  let resolved :=
    claimed_walk video_duration
      (sorted_by_start
         (to_intervals broll broll_clip_duration video_duration 0 broll_suggestions
          ++ to_intervals image image_display_duration video_duration 0 image_suggestions))
      [] in
  (suggestions_of broll resolved, suggestions_of image resolved).

(** Ascending by start time. *)
Fixpoint ascending_starts (l : list Interval) : Prop :=
  match l with
  | [] => True
  | x :: rest =>
      match rest with
      | [] => True
      | y :: _ => start x <= start y
      end /\ ascending_starts rest
  end.

(** The start times of a list of suggestions, in lowest terms. *)
Definition start_times (l : list Suggestion) : list Q :=
  map (fun s => Qred (start_time s)) l.

End overlap_spec.

(** ** The caption file grammar *)

Module srt_spec.

Definition is_digit (c : ascii) : bool :=
  (48 <=? nat_of_ascii c)%nat && (nat_of_ascii c <=? 57)%nat.

(** The exact shape [HH:MM:SS,mmm]: two digits, a colon, two digits, a
    colon, two digits, a comma and three digits, and nothing else. *)
Definition is_srt_timestamp (s : string) : bool :=
  match list_ascii_of_string s with
  | [h1; h2; c1; m1; m2; c2; s1; s2; c3; f1; f2; f3] =>
      forallb is_digit [h1; h2; m1; m2; s1; s2; f1; f2; f3]
      && Ascii.eqb c1 ":" && Ascii.eqb c2 ":" && Ascii.eqb c3 ","
  | _ => false
  end.

(** A field of exactly two digits. *)
Definition two_digits (s : string) : bool :=
  match list_ascii_of_string s with
  | [a; b] => is_digit a && is_digit b
  | _ => false
  end.

(** A field of exactly three digits. *)
Definition three_digits (s : string) : bool :=
  match list_ascii_of_string s with
  | [a; b; c] => is_digit a && is_digit b && is_digit c
  | _ => false
  end.

End srt_spec.

(** ** Runs of the orchestrator *)

Module orchestrator_spec.
Import video_processing.

(** A run in which transcription is attempted and fails, with the caption
    file of an earlier run of the same video still in [temp_processing]. *)
Definition stale_transcript_world : World :=
  mkWorld (mkTranscriptFile true true) FailedBeforeWrite false false FailedBeforeWrite.

End orchestrator_spec.

(** ** The specification's vocabulary for the composite builder *)

Module builder_spec.
Import composite_builder.

(** A clip has a fade-in or fade-out somewhere in its audio. *)
Fixpoint mentions_audio_fade (c : Clip) : bool :=
  match c with
  | VideoFileClip _ _ | AudioFileClip _ _ | ImageClip _ _ => false
  | audio_fadein _ _ | audio_fadeout _ _ => true
  | subclip c _ _ | set_duration c _ | crossfadein c _ | crossfadeout c _
  | resize c _ | set_start c _ | set_position c _ | fl_zoom c _
  | audio c | volumex c _ => mentions_audio_fade c
  | set_audio c a => mentions_audio_fade c || mentions_audio_fade a
  | concatenate_videoclips clips _ | CompositeVideoClip clips
  | CompositeAudioClip clips =>
      (fix any (l : list Clip) : bool :=
         match l with
         | [] => false
         | x :: rest => mentions_audio_fade x || any rest
         end) clips
  end.



(** The elements of a list at the positions that pass a test, in the
    order of the list. *)
Definition at_positions {A : Type} (keep : nat -> bool) (l : list A) : list A :=
  map snd (filter (fun p => keep (fst p)) (combine (seq 0 (List.length l)) l)).

(** The kept sub-clips of a clip: one for every queued cut whose
    extraction does not raise, in the order of the queue. *)
Definition kept_subclips (self : CompositeVideoBuilder) (env : Env) (clip : Clip)
    : list Clip :=
  map (fun cut => subclip clip (start cut) (end_ cut))
      (at_positions (fun i => negb (subclip_raises env i)) (silence_cuts self)).

(** The queued overlays that load: neither the constructor nor a later
    call on the opened clip raises. *)
Definition loads (env : Env) (i : nat) : bool :=
  match overlay_fault env i with
  | NoFault => true
  | _ => false
  end.

Definition loaded_overlays (self : CompositeVideoBuilder) (env : Env)
    : list MediaOverlay :=
  at_positions (loads env) (media_overlays self).

(** An overlay as the composite shows it: the image or the video of its
    file, for its duration, cross-faded by half a second at either end when
    its transition is a fade, resized when it has a size, from its start
    time on, at its position. *)
Definition shows (overlay : MediaOverlay) (shown : Clip) : Prop :=
  exists handle,
    let media :=
      if String.eqb (media_type overlay) "image"
      then set_duration (ImageClip handle (media_path overlay)) (duration overlay)
      else subclip (VideoFileClip handle (media_path overlay)) 0 (duration overlay) in
    let faded :=
      if String.eqb (transition overlay) "fade"
      then crossfadeout (crossfadein media (1 # 2)) (1 # 2)
      else media in
    let sized :=
      match size overlay with
      | Some new_size => resize faded new_size
      | None => faded
      end in
    shown = set_position (set_start sized (start_time overlay)) (position overlay).

(** The audio track the music step sets when it mixes: the original audio
    and the music trimmed to the clip, each scaled by its volume, or the
    scaled music alone when the clip has no audio. *)
Definition mixed_audio (env : Env) (self : CompositeVideoBuilder) (music clip : Clip)
    : Clip :=
  let scaled := volumex (subclip music 0 (clip_duration env clip)) (music_volume self) in
  if clip_has_audio env clip
  then CompositeAudioClip [volumex (audio clip) (speech_volume self); scaled]
  else scaled.

(** When the music step mixes: the file exists and opens, the music is at
    least as long as the clip, and no later call raises. *)
Definition music_is_mixed (env : Env) (music clip : Clip) : bool :=
  music_exists env && negb (music_file_raises env)
  && negb (Qlt_bool (clip_duration env music) (clip_duration env clip))
  && negb (music_mix_raises env).

(** What a step makes of its input clip. *)
Definition step_output (self : CompositeVideoBuilder) (env : Env)
    (step : RenderStep) (input output : Clip) : Prop :=
  match step with
  | SilenceCuts =>
      (* the kept sub-clips of the input, concatenated in the order of the cuts *)
      match kept_subclips self env input with
      | [] => output = input
      | subclips => output = concatenate_videoclips subclips "compose"
      end
  | ZoomEffects =>
      match zoom_keyframes self with
      | [] => output = input
      | keyframes => output = fl_zoom input keyframes
      end
  | MediaOverlays =>
      (* the input with the overlays that load on top of it, in queue order *)
      exists overlay_clips,
        Forall2 shows (loaded_overlays self env) overlay_clips
        /\ match overlay_clips with
           | [] => output = input
           | _ => output = CompositeVideoClip (input :: overlay_clips)
           end
  | BackgroundMusic =>
      match background_music self with
      | None => output = input
      | Some music_path =>
          exists handle,
            let music := AudioFileClip handle music_path in
            if music_is_mixed env music input
            then output = set_audio input (mixed_audio env self music input)
            else output = input
      end
  | PrependIntro => output = concatenate_videoclips (intro_clips self ++ [input]) "compose"
  | AppendOutro => output = concatenate_videoclips (input :: outro_clips self) "compose"
  | Encode => False
  end.



(** Every open handle belongs to a clip registered for cleanup. *)
Definition registered (s : State) : Prop :=
  forall handle, In handle (open_handles (snd s)) ->
  exists clip, In clip (_loaded_clips (fst s)) /\ reader clip = Some handle.

(** The same, except for one handle that was just opened. *)
Definition registered_but (fresh : nat) (s : State) : Prop :=
  forall handle, In handle (open_handles (snd s)) ->
  handle = fresh
  \/ exists clip, In clip (_loaded_clips (fst s)) /\ reader clip = Some handle.

(** A computation that opens and closes nothing and registers nothing,
    however it ends. *)
Definition inert {A : Type} (m : M A) : Prop :=
  forall s, open_handles (snd (snd (m s))) = open_handles (snd s)
            /\ _loaded_clips (fst (snd (m s))) = _loaded_clips (fst s).

(** The queues of two builder states agree. *)
Definition same_queues (a b : CompositeVideoBuilder) : Prop :=
  input_video_path a = input_video_path b
  /\ silence_cuts a = silence_cuts b
  /\ zoom_keyframes a = zoom_keyframes b
  /\ media_overlays a = media_overlays b
  /\ intro_clips a = intro_clips b
  /\ outro_clips a = outro_clips b
  /\ background_music a = background_music b
  /\ music_volume a = music_volume b
  /\ speech_volume a = speech_volume b.

(** The queues are those of [self] and the record of events is [evs]. *)
Definition at_events (self : CompositeVideoBuilder) (evs : list Event) (s : State)
    : Prop :=
  same_queues self (fst s) /\ events (snd s) = evs.

(** A computation that leaves the queues and the record of events alone,
    however it ends. *)
Definition quiet {A : Type} (m : M A) : Prop :=
  forall s, same_queues (fst s) (fst (snd (m s)))
            /\ events (snd (snd (m s))) = events (snd s).


(** What an effect step returns, when it returns, is what the step is
    documented to make of its input. *)
Definition returns_output (self : CompositeVideoBuilder) (env : Env)
    (step : RenderStep) (apply : Clip -> M Clip) : Prop :=
  forall clip s, same_queues self (fst s) ->
  match apply clip s with
  | (Return output, _) => step_output self env step clip output
  | (Raised, _) => True
  end.

(** A library in which nothing raises; every clip lasts [d] seconds and
    has an audio track. *)
Definition calm (d : Q) : Env :=
  mkEnv (fun _ => d) (fun _ => true) false (fun _ => false) (fun _ => NoFault)
        true false false (fun _ => false).

(** The same library, except that a method called on the opened clip of
    the first overlay raises. *)
Definition first_overlay_method_raises (d : Q) : Env :=
  mkEnv (fun _ => d) (fun _ => true) false (fun _ => false)
        (fun i => match i with O => MethodRaises | _ => NoFault end)
        true false false (fun _ => false).

Definition example_overlay : MediaOverlay :=
  mkMediaOverlay 5 4 "broll.mp4" "video" "fade" (0%Z, 0%Z) None.

(** A builder with two kept intervals, one overlay and background
    music queued. *)
Definition example_builder : CompositeVideoBuilder :=
  add_music "music.mp3" (3 # 10) 1
    (add_media_overlays [example_overlay]
       (add_silence_cuts [mkSilenceCut 0 10; mkSilenceCut 20 30] (init "in.mp4"))).

(** A library in which nothing raises; the music lasts 4 seconds and every
    other clip 10, each with an audio track. *)
Definition short_music : Env :=
  mkEnv (fun c => match c with AudioFileClip _ _ => 4 | _ => 10 end)
        (fun _ => true) false (fun _ => false) (fun _ => NoFault)
        true false false (fun _ => false).


(** No media object exists yet. *)
Definition no_media : Media := mkMedia 0 [] [].

(** Partial correctness of a computation, with one postcondition for a
    normal return and one for a raised exception. *)
Definition hoare {A : Type} (P : State -> Prop) (m : M A)
    (Q : A -> State -> Prop) (E : State -> Prop) : Prop :=
  forall s, P s ->
  match m s with
  | (Return a, s') => Q a s'
  | (Raised, s') => E s'
  end.

(** A computation that keeps every open handle registered, however it
    ends. *)
Definition keeps_registered {A : Type} (m : M A) : Prop :=
  hoare registered m (fun _ => registered) registered.

(** A computation that always returns. *)
Definition never_raises {A : Type} (m : M A) : Prop :=
  hoare (fun _ => True) m (fun _ _ => True) (fun _ => False).

End builder_spec.

(* ================================================================== *)
(** * Further definitions                                              *)
(* ================================================================== *)

(** ** src/core/composite_builder.py: the frame transformation of
    [_apply_zoom_effect] *)

Module zoom_frames.
Import composite_builder.

(** What [zoom_function] does to a frame of [h] by [w] pixels: it returns
    the frame as it is, or it takes the slice
    [frame[crop_y:crop_y+new_h, crop_x:crop_x+new_w]] and hands it to PIL to
    be resized back to [(w, h)], or its own arithmetic raises.  What PIL does
    with the slice is outside this model. *)
Inductive FrameResult : Type :=
| Frame
| Cropped (crop_y crop_x new_h new_w : Z)
| FrameRaises.

(** The part of [zoom_function] after the keyframe loop.  Dividing by a
    zero factor raises. *)
Definition crop_frame (h w : Z) (zoom_factor center_x center_y : Q) : FrameResult :=
  if negb (Qeq_bool zoom_factor 1) then
    if Qeq_bool zoom_factor 0 then FrameRaises
    else
      (* calculate crop dimensions *)
      let new_h := video_processing.py_int (inject_Z h / zoom_factor) in
      let new_w := video_processing.py_int (inject_Z w / zoom_factor) in
      (* calculate crop position (centered on zoom point) *)
      let crop_x := video_processing.py_int (inject_Z (w - new_w) * center_x) in
      let crop_y := video_processing.py_int (inject_Z (h - new_h) * center_y) in
      (* ensure crop doesn't go out of bounds *)
      let crop_x := Z.max 0 (Z.min crop_x (w - new_w)) in
      let crop_y := Z.max 0 (Z.min crop_y (h - new_h)) in
      Cropped crop_y crop_x new_h new_w
  else Frame.

(** [zoom_function] at time [t] on a frame of [h] by [w] pixels. *)
Definition zoom_function (zoom_keyframes : list ZoomKeyframe) (h w : Z) (t : Q)
    : FrameResult :=
  match zoom_at zoom_keyframes t with
  | Some (zoom_factor, center_x, center_y) =>
      crop_frame h w zoom_factor center_x center_y
  | None => FrameRaises
  end.

(** The slice lies inside a frame of [h] by [w] pixels. *)
Definition inside_frame (h w : Z) (r : FrameResult) : Prop :=
  match r with
  | Frame => True
  | Cropped crop_y crop_x new_h new_w =>
      (0 <= crop_y /\ 0 <= new_h /\ crop_y + new_h <= h /\
       0 <= crop_x /\ 0 <= new_w /\ crop_x + new_w <= w)%Z
  | FrameRaises => False
  end.

(** The three values of a zoom outcome lie within the given bounds. *)
Definition params_within (zlo zhi xlo xhi ylo yhi : Q) (p : zoom_params) : Prop :=
  let '(z, cx, cy) := p in
  zlo <= z <= zhi /\ xlo <= cx <= xhi /\ ylo <= cy <= yhi.

End zoom_frames.

(** ** src/core/composite_builder.py: a builder in use *)

Module builder_use.
Import composite_builder.

(** The queueing methods of the builder a caller chains before [render]
    ([add_subtitles], which depends on a module outside this file, is not
    among them). *)
Inductive QueueCall : Type :=
| call_add_silence_cuts (cuts : list SilenceCut)
| call_add_zoom_keyframes (keyframes : list ZoomKeyframe)
| call_add_media_overlays (overlays : list MediaOverlay)
| call_add_music (music_path : string) (volume speech_volume : Q)
| call_add_intro (intro_clip_path : string)
| call_add_outro (outro_clip_path : string).

(** A method that only assigns to fields of the builder. *)
Definition assign (f : CompositeVideoBuilder -> CompositeVideoBuilder) : M unit :=
  fun s => (Return tt, (f (fst s), snd s)).

Definition queue_call (c : QueueCall) : M unit :=
  match c with
  | call_add_silence_cuts cuts => assign (add_silence_cuts cuts)
  | call_add_zoom_keyframes keyframes => assign (add_zoom_keyframes keyframes)
  | call_add_media_overlays overlays => assign (add_media_overlays overlays)
  | call_add_music music_path volume speech_volume =>
      assign (add_music music_path volume speech_volume)
  | call_add_intro intro_clip_path => add_intro intro_clip_path
  | call_add_outro outro_clip_path => add_outro outro_clip_path
  end.

(** [builder.add_...(...).add_...(...)]: the calls one after the other. *)
Fixpoint queue_calls (calls : list QueueCall) : M unit :=
  match calls with
  | [] => ret tt
  | c :: rest => queue_call c ;;; queue_calls rest
  end.

(** [CompositeVideoBuilder(input_video_path)], the queueing calls, then
    [render(output_path, preset=preset)], from a state in which no media
    object exists. *)
Definition build_and_render (env : Env) (input_video_path : string)
    (calls : list QueueCall) (output_path preset : string)
    : Result string * State :=
  (queue_calls calls ;;; render env output_path preset)
    (init input_video_path, mkMedia 0 [] []).

(** An event that records an effect step, not the encode. *)
Definition is_applied (e : Event) : bool :=
  match e with
  | Applied _ _ _ => true
  | write_videofile _ _ _ _ => false
  end.

(** [write_videofile] was not called since the events [before]: only
    effect steps were recorded after them. *)
Definition nothing_written (before : list Event) (s : State) : Prop :=
  exists stages,
    forallb is_applied stages = true /\ events (snd s) = before ++ stages.

(** [write_videofile] was called once since the events [before], after
    every effect step, with the codecs of [render]. *)
Definition written_once (before : list Event) (preset : string) (s : State) : Prop :=
  exists stages final,
    forallb is_applied stages = true /\
    events (snd s) = before ++ stages ++ [write_videofile final "libx264" "aac" preset].

End builder_use.

(** ** src/core/video_processing.py: vocabulary for the avoidance pass *)

Module avoidance_spec.
Import video_processing.

(** No two intervals of the list are closer than the minimum gap, by the
    overlap test of the source. *)
Fixpoint pairwise_apart (l : list Interval) : Prop :=
  match l with
  | [] => True
  | x :: rest =>
      (forall y, In y rest -> overlaps (start x) (end_ x) y = false)
      /\ pairwise_apart rest
  end.

(** The candidate intervals of a call, B-roll first, before they are
    sorted. *)
Definition candidates (broll_suggestions image_suggestions : list Suggestion)
    (video_duration broll_clip_duration image_display_duration : Q) : list Interval :=
  to_intervals broll broll_clip_duration video_duration 0 broll_suggestions
  ++ to_intervals image image_display_duration video_duration 0 image_suggestions.

(** An interval that lies in the video, is not empty, and whose suggestion
    starts where the interval does. *)
Definition well_placed (video_duration : Q) (x : Interval) : Prop :=
  0 <= start x /\ start x < end_ x /\ end_ x <= video_duration
  /\ start_time (suggestion_ x) = start x.

(** The type and the running index that identify the suggestion an
    interval was made from. *)
Definition origin (x : Interval) : media_type * nat := (type x, index x).

End avoidance_spec.

(** ** src/core/video_processing.py: overlay timing in
    [create_comprehensive_multimedia_video] *)

Module multimedia_overlays.
Import video_processing.

(** The duration an overlay is given, in both overlay loops (with
    [image_duration] for [clip_duration] in the second): it is cut at the
    end of the video, and [None] is the [continue] that leaves the overlay
    out. *)
Definition overlay_duration (start_time clip_duration duration : Q) : option Q :=
  (* ensure timing doesn't exceed video duration *)
  let clip_duration :=
    if Qlt_bool duration (start_time + clip_duration)
    then duration - start_time else clip_duration in
  if Qle_bool clip_duration 0 then None else Some clip_duration.

(** [fade_duration = min(0.5, clip_duration / 4)], used for the fade-in and
    for the fade-out of a ['fade'] transition. *)
Definition fade_duration (clip_duration : Q) : Q := py_min (1 # 2) (clip_duration / 4).

End multimedia_overlays.

(** ** src/core/video_processing.py: smart B-roll and image counts *)

Module smart_settings.
Import video_processing.

(** [calculate_smart_broll_settings]: the clip count and the clip duration
    for a video length.  In the last branch [clip_count] is at least 10, so
    the division is never by zero. *)
Definition calculate_smart_broll_settings (video_duration : Q) : Z * Q :=
  if Qle_bool video_duration 30 then (2%Z, 2)            (* short videos *)
  else if Qle_bool video_duration 60 then (3%Z, 3)       (* 1-minute videos *)
  else if Qle_bool video_duration 180 then (4%Z, 4)      (* 3-minute videos *)
  else if Qle_bool video_duration 300 then (5%Z, 45 # 10) (* 5-minute videos *)
  else if Qle_bool video_duration 600 then (6%Z, 5)      (* 10-minute videos *)
  else
    (* longer videos *)
    let clip_count := Z.min (py_int (video_duration / 60)) 10 in
    let clip_duration :=
      py_min (video_duration / inject_Z clip_count * (1 # 10)) 6 in
    (clip_count, clip_duration).

(** [calculate_smart_multimedia_counts]: the number of B-roll clips and of
    generated images for the duration after silence removal. *)
Definition calculate_smart_multimedia_counts
    (silence_removed_duration broll_ratio image_ratio : Q) : Z * Z :=
  (* calculate based on 30-second segments *)
  let thirty_second_segments := silence_removed_duration / 30 in
  let broll_count := Z.max 0 (py_round (thirty_second_segments * broll_ratio)) in
  let image_count := Z.max 0 (py_round (thirty_second_segments * image_ratio)) in
  (* ensure minimum counts for videos longer than 10 seconds *)
  let broll_count :=
    if Qlt_bool 10 silence_removed_duration then Z.max 1 broll_count else broll_count in
  let image_count :=
    if Qlt_bool 10 silence_removed_duration then Z.max 1 image_count else image_count in
  (* apply reasonable limits *)
  (Z.min broll_count 15, Z.min image_count 20).

End smart_settings.

(** ** src/core/video_processing_optimized.py: the optimized pipeline *)

Module video_processing_optimized.
Import video_processing.

(** The calls of [process_video] that can fail: the stage functions, which
    return a truth value, and the two file operations at the end. *)
Inductive Step : Type :=
| SilenceRemoval          (* cut_silence_auto_editor *)
| TopicCard               (* add_topic_card *)
| Transcription           (* transcribe_video_whisper *)
| GPTCorrection           (* correct_subtitles_with_gpt4o *)
| SubtitleBurning         (* burn_subtitles_ffmpeg *)
| EnhancedAutoZoom        (* apply_enhanced_auto_zoom *)
| MultimediaIntegration   (* create_comprehensive_multimedia_video *)
| BackgroundMusic         (* add_background_music *)
| MoveOutput              (* shutil.move(current_video_path, final_output_path) *)
| CopyOriginal.           (* shutil.copy2(input_file_path, processed_original_path) *)

(** The arguments of [process_video] that gate a stage. *)
Record Args : Type := mkArgs {
  skip_silence : bool;
  skip_transcription : bool;
  skip_gpt_correct : bool;
  skip_subtitle_burn : bool;
  skip_broll : bool;
  skip_topic_card : bool;
  skip_dynamic_zoom : bool;
  skip_enhanced_auto_zoom : bool;
  skip_background_music : bool;
  skip_image_generation : bool;
  music_track : string
}.

(** What the calls do in one run: whether a call raises, what truth value
    it returns when it does not (for the multimedia stage: whether
    [multimedia_result and multimedia_result != current_video_path]), and
    what [transcript_path.exists()] answers in the guard of a stage. *)
Record World : Type := mkWorld {
  step_raises : Step -> bool;
  step_ok : Step -> bool;
  transcript_exists : Step -> bool
}.

(** One progress update as [send_step_progress] prints it. *)
Record Progress : Type := mkProgress {
  step : string;
  current : Z;
  total : Z;
  percentage : Z
}.

(** [send_step_progress]:
    [percentage = int((current / total) * 100) if total > 0 else 0]. *)
Definition send_step_progress (step : string) (current total : Z) : Progress :=
  mkProgress step current total
    (if (0 <? total)%Z then py_int (inject_Z current / inject_Z total * 100) else 0%Z).

(** The variables of a run: the counter behind [next_step], whether
    [current_video_path] is still [input_file_path], and the progress
    updates printed so far. *)
Record RunState : Type := mkRunState {
  current_step : Z;
  current_is_input : bool;
  printed : list Progress
}.

(** A computation of the [try] block; [None] is a raised exception. *)
Definition Run (A : Type) : Type := RunState -> option A * RunState.

Definition ret {A : Type} (a : A) : Run A := fun s => (Some a, s).

Definition bind {A B : Type} (m : Run A) (k : A -> Run B) : Run B :=
  fun s =>
    match m s with
    | (Some a, s') => k a s'
    | (None, s') => (None, s')
    end.

Definition raise {A : Type} : Run A := fun s => (None, s).

Notation "x <- m ;; k" := (bind m (fun x => k))
  (at level 61, m at next level, right associativity).
Notation "m ;;; k" := (bind m (fun _ => k))
  (at level 61, right associativity).

(** [next_step()]. *)
Definition next_step : Run Z :=
  fun s =>
    let n := (current_step s + 1)%Z in
    (Some n, mkRunState n (current_is_input s) (printed s)).

Definition print (p : Progress) : Run unit :=
  fun s => (Some tt, mkRunState (current_step s) (current_is_input s) (printed s ++ [p])).

(** [send_step_progress(name, next_step(), total_steps, ...)]. *)
Definition report (name : string) (total_steps : Z) : Run unit :=
  n <- next_step ;; print (send_step_progress name n total_steps).

(** A call of the run: it raises, or returns its truth value. *)
Definition call (world : World) (s : Step) : Run bool :=
  if step_raises world s then raise else ret (step_ok world s).

(** [current_video_path = <the output of the stage>]. *)
Definition set_current_video_path : Run unit :=
  fun s => (Some tt, mkRunState (current_step s) false (printed s)).

(** [if guard: send_step_progress(...); if stage(...): current_video_path = ...]. *)
Definition video_stage (world : World) (guard : bool) (name : string)
    (total_steps : Z) (s : Step) : Run unit :=
  if guard then
    report name total_steps ;;;
    ok <- call world s ;;
    if ok then set_current_video_path else ret tt
  else ret tt.

(** [if condition: analysis_steps.append(name)]. *)
Definition counted (condition : bool) (name : string) : list string :=
  if condition then [name] else [].

(** [process_video]: the value returned ([Some] for [final_output_path],
    [None] for the [None] of the [except] clause) and the progress updates
    printed.  The directories are taken to exist or to be creatable: their
    [mkdir] is outside the [try]. *)
Definition process_video (args : Args) (world : World) : option unit * list Progress :=
  (* merge the two zoom flags *)
  let skip_zoom := skip_dynamic_zoom args || skip_enhanced_auto_zoom args in
  let analysis_steps :=
    counted (negb (skip_silence args)) "Silence Removal"
    ++ counted (negb (skip_topic_card args)) "Topic Card"
    ++ counted (negb (skip_transcription args)) "Transcription"
    ++ counted (negb (skip_gpt_correct args)) "GPT Correction"
    ++ counted (negb (skip_subtitle_burn args)) "Subtitle Burning"
    ++ counted (negb skip_zoom) "Enhanced Auto Zoom"
    ++ counted (negb (skip_broll args) || negb (skip_image_generation args))
         "Multimedia Integration"
    ++ counted (negb (skip_background_music args)) "Background Music" in
  let total_steps := Z.of_nat (List.length analysis_steps) in
  let body : Run unit :=
    (* Step 1: cut silences *)
    video_stage world (negb (skip_silence args)) "Silence Removal" total_steps
      SilenceRemoval ;;;
    (* Step 2: add topic card first *)
    video_stage world (negb (skip_topic_card args)) "Topic Card" total_steps TopicCard ;;;
    (* Step 3: transcription; [transcript_path] is [None] unless it succeeds *)
    transcript_path <-
      (if negb (skip_transcription args) then
         report "Transcription" total_steps ;;;
         call world Transcription
       else ret false) ;;
    (* Step 4: GPT correction (if transcript exists) *)
    (if negb (skip_gpt_correct args) && transcript_path
        && transcript_exists world GPTCorrection
     then report "GPT Correction" total_steps ;;;
          _ <- call world GPTCorrection ;; ret tt
     else ret tt) ;;;
    (* Step 5: burn subtitles *)
    video_stage world
      (negb (skip_subtitle_burn args) && transcript_path
       && transcript_exists world SubtitleBurning)
      "Subtitle Burning" total_steps SubtitleBurning ;;;
    (* Step 6: apply enhanced auto zoom *)
    video_stage world (negb skip_zoom) "Enhanced Auto Zoom" total_steps
      EnhancedAutoZoom ;;;
    (* Step 7: multimedia integration *)
    video_stage world
      ((negb (skip_broll args) || negb (skip_image_generation args)) && transcript_path
       && transcript_exists world MultimediaIntegration)
      "Multimedia Integration" total_steps MultimediaIntegration ;;;
    (* Step 8: apply background music if needed *)
    video_stage world
      (negb (skip_background_music args) && negb (String.eqb (music_track args) "none"))
      "Background Music" total_steps BackgroundMusic ;;;
    (* move to final location; the two paths are in different directories *)
    _ <- call world MoveOutput ;;
    (* send completion *)
    print (send_step_progress "Complete" total_steps total_steps) ;;;
    (* move original to processed_originals: [input_file_path] is gone when
       it was itself moved to the final location *)
    (fun s => if current_is_input s then raise s
              else (_ <- call world CopyOriginal ;; ret tt) s) in
  let '(result, s) := body (mkRunState 0 true []) in
  (result, printed s).

End video_processing_optimized.

(** ** Vocabulary for runs of the optimized pipeline *)

Module pipeline_spec.
Import video_processing_optimized.

(** A progress update of the stage [name] was printed: the stage was
    entered. *)
Definition entered (name : string) (log : list Progress) : Prop :=
  In name (map step log).

(** Partial correctness of a computation of the run, with one
    postcondition for a return and one for a raised exception. *)
Definition run_hoare {A : Type} (P : RunState -> Prop) (m : Run A)
    (Q : A -> RunState -> Prop) (E : RunState -> Prop) : Prop :=
  forall s, P s ->
  match m s with
  | (Some a, s') => Q a s'
  | (None, s') => E s'
  end.

(** The updates printed so far are of stages named in [names]. *)
Definition only (names : list string) (s : RunState) : Prop :=
  forall p, In p (printed s) -> In (step p) names.

(** [current_video_path] is still [input_file_path]. *)
Definition at_input (s : RunState) : Prop := current_is_input s = true.

(** The completion update was printed. *)
Definition completed (s : RunState) : Prop := entered "Complete" (printed s).

(** The stages that replace [current_video_path] when they succeed. *)
Definition video_stages : list Step :=
  [SilenceRemoval; TopicCard; SubtitleBurning; EnhancedAutoZoom;
   MultimediaIntegration; BackgroundMusic].

(** The arguments switch a stage off. *)
Definition switched_off (args : Args) (s : Step) : bool :=
  match s with
  | SilenceRemoval => skip_silence args
  | TopicCard => skip_topic_card args
  | Transcription => skip_transcription args
  | GPTCorrection => skip_gpt_correct args
  | SubtitleBurning => skip_subtitle_burn args
  | EnhancedAutoZoom => skip_dynamic_zoom args || skip_enhanced_auto_zoom args
  | MultimediaIntegration => skip_broll args && skip_image_generation args
  | BackgroundMusic =>
      skip_background_music args || String.eqb (music_track args) "none"
  | MoveOutput | CopyOriginal => false
  end.

(** A list of integers that never decreases. *)
Fixpoint nondecreasing (l : list Z) : Prop :=
  match l with
  | [] => True
  | x :: rest =>
      match rest with
      | [] => True
      | y :: _ => (x <= y)%Z
      end /\ nondecreasing rest
  end.

(** The state of a run after some stages: the counter is at most [bound],
    the updates printed so far are numbered 1, 2, ... up to the counter, and
    each was made by [send_step_progress] with the total [total_steps]. *)
Definition numbered (total_steps : Z) (bound : Z) (s : RunState) : Prop :=
  (0 <= current_step s <= bound)%Z
  /\ map current (printed s) = map Z.of_nat (seq 1 (Z.to_nat (current_step s)))
  /\ Forall (fun p => p = send_step_progress (step p) (current p) total_steps)
            (printed s).

(** 1 for a true condition, 0 for a false one: what a condition adds to
    [len(analysis_steps)]. *)
Definition b2z (b : bool) : Z := if b then 1%Z else 0%Z.

(** The updates of a whole run: stage updates numbered 1 to some [n] that
    is at most [total_steps], each made by [send_step_progress] with that
    total, followed by the completion update when [complete]. *)
Definition progress_log (total_steps : Z) (complete : bool) (log : list Progress)
    : Prop :=
  exists reports n,
    (0 <= n <= total_steps)%Z
    /\ map current reports = map Z.of_nat (seq 1 (Z.to_nat n))
    /\ Forall (fun p => p = send_step_progress (step p) (current p) total_steps) reports
    /\ log = reports
              ++ (if complete
                  then [send_step_progress "Complete" total_steps total_steps]
                  else []).

End pipeline_spec.

(** ** src/core/video_processing.py: reading caption timestamps *)

Module srt_parsing.

Section builtins.

(** Python's [int] and [float] on a string; [None] is their ValueError. *)
Variable int : string -> option Z.
Variable float : string -> option Q.

(** [s.replace(old, new)] for one-character strings [old] and [new]. *)
Fixpoint replace (old new : ascii) (s : string) : string :=
  match s with
  | EmptyString => EmptyString
  | String c rest =>
      String (if Ascii.eqb c old then new else c) (replace old new rest)
  end.

(** [s.split(sep)] for a one-character separator: the pieces between the
    separators, the empty ones too. *)
Fixpoint split (sep : ascii) (s : string) : list string :=
  match s with
  | EmptyString => [EmptyString]
  | String c rest =>
      if Ascii.eqb c sep then EmptyString :: split sep rest
      else
        match split sep rest with
        | part :: parts => String c part :: parts
        | [] => [String c EmptyString]
        end
  end.

(** [_parse_srt_time]: parse SRT time format (HH:MM:SS,mmm) to seconds.
    [None] is the ValueError of [int] or [float] or the IndexError of
    [parts[1]] or [parts[2]]. *)
Definition _parse_srt_time (time_str : string) : option Q :=
  let time_str := replace "," "." time_str in
  let parts := split ":" time_str in
  match nth_error parts 0 with
  | None => None
  | Some part0 =>
      match int part0 with
      | None => None
      | Some hours =>
          match nth_error parts 1 with
          | None => None
          | Some part1 =>
              match int part1 with
              | None => None
              | Some minutes =>
                  match nth_error parts 2 with
                  | None => None
                  | Some part2 =>
                      match float part2 with
                      | None => None
                      | Some seconds =>
                          Some (inject_Z hours * 3600 + inject_Z minutes * 60 + seconds)
                      end
                  end
              end
          end
      end
  end.

End builtins.

(** A reader of plain decimal numerals, on which Python's [int] and
    [float] agree with it: digits only for [plain_int], digits, a point and
    digits for [plain_float]. *)
Fixpoint digits_value (acc : Z) (s : string) : option Z :=
  match s with
  | EmptyString => Some acc
  | String c rest =>
      if srt_spec.is_digit c
      then digits_value (10 * acc + (Z.of_nat (nat_of_ascii c) - 48)) rest
      else None
  end.

Definition plain_int (s : string) : option Z :=
  match s with
  | EmptyString => None
  | _ => digits_value 0 s
  end.

Definition plain_float (s : string) : option Q :=
  match split "." s with
  | [whole; fraction] =>
      match plain_int whole, plain_int fraction with
      | Some w, Some f =>
          Some (inject_Z w + inject_Z f / inject_Z (10 ^ Z.of_nat (String.length fraction)))
      | _, _ => None
      end
  | _ => None
  end.

End srt_parsing.

(** ** src/core/video_analysis.py: the periodic zoom keyframes *)

Module zoom_analysis.
Import composite_builder.

Section math.

(** [math.pi] and [math.sin], on idealised floats. *)
Variable pi : Q.
Variable sin : Q -> Q.

(** [intensity_map.get(intensity, 1.15)]. *)
Definition intensity_map (intensity : string) : Q :=
  if String.eqb intensity "subtle" then 105 # 100
  else if String.eqb intensity "medium" then 115 # 100
  else if String.eqb intensity "strong" then 125 # 100
  else 115 # 100.

(** Python's [a % b] on floats, for a positive [b]. *)
Definition py_mod (a b : Q) : Q := a - b * inject_Z (Qfloor (a / b)).

(** [np.arange(start, stop, step)]: [ceil((stop - start) / step)] values
    from [start] in steps of [step]. *)
Definition arange (start stop step : Q) : list Q :=
  map (fun k => start + inject_Z (Z.of_nat k) * step)
      (seq 0 (Z.to_nat (Qceiling ((stop - start) / step)))).

(** [analyze_zoom_keyframes], from the [duration] of the clip it opens;
    [mode], [transcript_path] and [pause_detection] are not read. *)
Definition analyze_zoom_keyframes (duration : Q) (intensity : string)
    : list ZoomKeyframe :=
  let max_zoom := intensity_map intensity in
  let zoom_cycle := 6 in   (* 6 second cycle (3s in, 3s out) *)
  map (fun t =>
         (* calculate periodic zoom factor *)
         let cycle_position := py_mod t zoom_cycle / zoom_cycle in
         let zoom_factor := 1 + (max_zoom - 1) * sin (cycle_position * pi) in
         mkZoomKeyframe t zoom_factor (1 # 2) (1 # 2))
      (arange 0 duration (1 # 2)).   (* sample every 0.5 seconds *)

End math.

(** A stand-in for the sine on [0, pi] with a rational [pi]: the parabola
    through its zeros and its maximum. *)
Definition parabola_pi : Q := 22 # 7.

Definition parabola_sin (x : Q) : Q :=
  4 * x * (parabola_pi - x) / (parabola_pi * parabola_pi).

End zoom_analysis.

(** ** src/core/video_processing.py: looping the music in
    [add_background_music] *)

Module legacy_music.

(** [loops_needed = int(video_duration / music_clip.duration) + 1], for a
    music clip shorter than the video: [int] truncates the binary64
    quotient. *)
Definition loops_needed (video_duration music_duration : Q) : Z :=
  (video_processing.py_int (binary64.fdiv video_duration music_duration) + 1)%Z.

End legacy_music.

(** ** Vocabulary for the files a render leaves open *)

Module leak_spec.
Import composite_builder.

Definition is_method_raises (f : OverlayFault) : bool :=
  match f with
  | MethodRaises => true
  | _ => false
  end.

(** The overlays, by position from [i], on whose freshly opened clip a
    method raises. *)
Definition method_faults (env : Env) (i : nat) (overlays : list MediaOverlay)
    : list nat :=
  filter (fun k => is_method_raises (overlay_fault env k))
         (seq i (List.length overlays)).

(** The handles the clips of a list hold. *)
Definition readers (clips : list Clip) : list nat :=
  flat_map (fun c => match reader c with
                     | Some handle => [handle]
                     | None => []
                     end) clips.

Definition held (clips : list Clip) (handle : nat) : bool :=
  existsb (Nat.eqb handle) (readers clips).

(** The open handles that no clip registered for cleanup holds. *)
Definition unregistered (s : State) : list nat :=
  filter (fun handle => negb (held (_loaded_clips (fst s)) handle))
         (open_handles (snd s)).

(** Handles are handed out in increasing order: every handle that is open
    or held by a registered clip was handed out before. *)
Definition handles_below_next (s : State) : Prop :=
  (forall handle, In handle (open_handles (snd s)) ->
     (handle < next_handle (snd s))%nat)
  /\ (forall handle, In handle (readers (_loaded_clips (fst s))) ->
        (handle < next_handle (snd s))%nat).

(** [n] open handles are not registered for cleanup. *)
Definition leaking (n : nat) (s : State) : Prop :=
  handles_below_next s /\ List.length (unregistered s) = n.

(** The overlays queued are [overlays] and [n] handles are leaking. *)
Definition leaking_with (overlays : list MediaOverlay) (n : nat) (s : State) : Prop :=
  media_overlays (fst s) = overlays /\ leaking n s.

(** The state just after [handle] was opened, before the clip that holds
    it is registered: without it, [n] handles were leaking. *)
Definition pending (overlays : list MediaOverlay) (n : nat) (handle : nat) (s : State)
    : Prop :=
  media_overlays (fst s) = overlays
  /\ next_handle (snd s) = S handle
  /\ exists opened,
       open_handles (snd s) = handle :: opened
       /\ leaking n (fst s, mkMedia handle opened (events (snd s))).

(** A computation that leaves the state as it is, however it ends. *)
Definition stateless {A : Type} (m : M A) : Prop := forall s, snd (m s) = s.

End leak_spec.

(* ================================================================== *)
(** * Theorems                                                         *)
(* ================================================================== *)

(** ** Boolean comparisons *)

Lemma Qlt_bool_iff (x y : Q) : Qlt_bool x y = true <-> x < y.
Proof.
  unfold Qlt_bool. rewrite negb_true_iff. split.
  - intros H. apply Qnot_le_lt. intros Hle.
    apply Qle_bool_iff in Hle. congruence.
  - intros H. destruct (Qle_bool y x) eqn:E; [|reflexivity].
    apply Qle_bool_iff in E. lra.
Qed.

Lemma Qlt_bool_false_iff (x y : Q) : Qlt_bool x y = false <-> y <= x.
Proof.
  unfold Qlt_bool. rewrite negb_false_iff. apply Qle_bool_iff.
Qed.

Lemma Qle_bool_false_iff (x y : Q) : Qle_bool x y = false <-> y < x.
Proof.
  split.
  - intros H. apply Qnot_le_lt. intros Hle.
    apply Qle_bool_iff in Hle. congruence.
  - intros H. destruct (Qle_bool x y) eqn:E; [|reflexivity].
    apply Qle_bool_iff in E. lra.
Qed.

(** Case analysis on every boolean comparison in the goal, keeping the
    order fact each branch stands for. *)
Ltac qcases :=
  repeat match goal with
  | |- context [Qlt_bool ?a ?b] =>
      let E := fresh "E" in
      destruct (Qlt_bool a b) eqn:E;
      [apply Qlt_bool_iff in E | apply Qlt_bool_false_iff in E]
  | |- context [Qle_bool ?a ?b] =>
      let E := fresh "E" in
      destruct (Qle_bool a b) eqn:E;
      [apply Qle_bool_iff in E | apply Qle_bool_false_iff in E]
  end.

(** Case analysis on every [Qmax] and [Qmin] of the goal and of the
    hypotheses; each is replaced by a variable with its defining facts. *)
Ltac qminmax_max a b :=
  let H := fresh "M" in
  destruct (Q.max_spec a b) as [[? H]|[? H]];
  generalize dependent (Qmax a b); intros.

Ltac qminmax_min a b :=
  let H := fresh "M" in
  destruct (Q.min_spec a b) as [[? H]|[? H]];
  generalize dependent (Qmin a b); intros.

Ltac qminmax :=
  repeat match goal with
  | |- context [Qmax ?a ?b] => qminmax_max a b
  | |- context [Qmin ?a ?b] => qminmax_min a b
  | _ : context [Qmax ?a ?b] |- _ => qminmax_max a b
  | _ : context [Qmin ?a ?b] |- _ => qminmax_min a b
  end.

(** ** Binary64 rounding *)

Section Binary64Facts.
Import binary64.

Lemma pow2_pos (z : Z) : 0 < pow2 z.
Proof. unfold pow2. apply Qpower_0_lt. reflexivity. Qed.

Lemma pow2_add (a b : Z) : pow2 (a + b) == pow2 a * pow2 b.
Proof. unfold pow2. apply Qpower_plus. discriminate. Qed.

Lemma pow2_Z (z : Z) : (0 <= z)%Z -> pow2 z == inject_Z (2 ^ z).
Proof. intros Hz. unfold pow2. rewrite (Zpower_Qpower 2 z Hz). reflexivity. Qed.

Lemma pow2_le (a b : Z) : (a <= b)%Z -> pow2 a <= pow2 b.
Proof. intros H. unfold pow2. apply Qpower_le_compat_l; [exact H | discriminate]. Qed.

Lemma pow2_lt_inv (a b : Z) : pow2 a < pow2 b -> (a < b)%Z.
Proof. intros H. apply (Qpower_lt_compat_l_inv 2); [exact H | reflexivity]. Qed.

Lemma pow2_inv (a : Z) : pow2 (- a) == / pow2 a.
Proof. unfold pow2. apply Qpower_opp. Qed.

Lemma pow2_opp (a : Z) : pow2 a * pow2 (- a) == 1.
Proof. rewrite <- pow2_add. replace (a + - a)%Z with 0%Z by lia. reflexivity. Qed.

(** [ilog2] is below the binary logarithm. *)
Lemma ilog2_le (x : Q) : 0 < x -> pow2 (ilog2 x) <= x.
Proof.
  intros Hx. unfold ilog2. cbv zeta.
  destruct (Qle_bool _ x) eqn:E; [apply Qle_bool_iff in E; exact E|].
  destruct x as [a b]. cbn [Qnum Qden] in *.
  assert (Ha : (0 < a)%Z).
  { unfold Qlt in Hx. cbn in Hx. lia. }
  pose proof (Z.log2_spec a Ha) as [Hla _].
  pose proof (Z.log2_spec (Z.pos b) (Pos2Z.is_pos b)) as [_ Hlb].
  pose proof (Z.log2_nonneg a) as Hna.
  pose proof (Z.log2_nonneg (Z.pos b)) as Hnb.
  set (la := Z.log2 a) in *. set (lb := Z.log2 (Z.pos b)) in *.
  replace (la - lb - 1)%Z with (la + - (lb + 1))%Z by lia.
  rewrite pow2_add.
  assert (H1 : pow2 la <= inject_Z a).
  { rewrite (pow2_Z la Hna). rewrite <- Zle_Qle. exact Hla. }
  assert (H2 : inject_Z (Z.pos b) <= pow2 (lb + 1)).
  { rewrite (pow2_Z (lb + 1)) by lia. rewrite <- Zle_Qle.
    replace (lb + 1)%Z with (Z.succ lb) by lia. lia. }
  assert (Hab : a # b == inject_Z a / inject_Z (Z.pos b)) by (apply Qmake_Qdiv).
  rewrite Hab.
  pose proof (pow2_opp (lb + 1)) as Hinv.
  pose proof (pow2_pos (lb + 1)) as Hp1.
  pose proof (pow2_pos (- (lb + 1))) as Hp2.
  pose proof (pow2_pos la) as Hp3.
  assert (Hb : 0 < inject_Z (Z.pos b)) by (rewrite <- (Zlt_Qlt 0); lia).
  apply Qle_shift_div_l; [exact Hb|].
  (* pow2 la * pow2 (-(lb+1)) * b <= a *)
  apply Qle_trans with (pow2 la * (pow2 (- (lb + 1)) * pow2 (lb + 1))).
  - rewrite <- Qmult_assoc. apply Qmult_le_l; [exact Hp3|].
    apply Qmult_le_l; [exact Hp2 | exact H2].
  - rewrite (Qmult_comm (pow2 (- (lb + 1)))), Hinv. lra.
Qed.

Lemma nearest_even_Z (z : Z) : nearest_even (inject_Z z) = z.
Proof.
  unfold nearest_even. rewrite Qfloor_Z. cbv zeta.
  assert (E : Qlt_bool (inject_Z z - inject_Z z) (1 # 2) = true)
    by (apply Qlt_bool_iff; lra).
  rewrite E. reflexivity.
Qed.

Lemma Qlt_bool_comp : Proper (Qeq ==> Qeq ==> eq) Qlt_bool.
Proof.
  intros a b Hab c d Hcd. unfold Qlt_bool. f_equal.
  destruct (Qle_bool c a) eqn:E1, (Qle_bool d b) eqn:E2; try reflexivity.
  - apply Qle_bool_iff in E1. rewrite Hab, Hcd in E1. apply Qle_bool_iff in E1. congruence.
  - apply Qle_bool_iff in E2. rewrite <- Hab, <- Hcd in E2. apply Qle_bool_iff in E2. congruence.
Qed.

Lemma nearest_even_comp (x y : Q) : x == y -> nearest_even x = nearest_even y.
Proof.
  intros H. unfold nearest_even. rewrite (Qfloor_comp x y H). cbv zeta.
  rewrite (Qlt_bool_comp (x - inject_Z (Qfloor y)) (y - inject_Z (Qfloor y))
             ltac:(rewrite H; reflexivity) (1 # 2) (1 # 2) ltac:(reflexivity)).
  rewrite (Qlt_bool_comp (1 # 2) (1 # 2) ltac:(reflexivity)
             (x - inject_Z (Qfloor y)) (y - inject_Z (Qfloor y))
             ltac:(rewrite H; reflexivity)).
  reflexivity.
Qed.

(** Whole multiples of [2^-k] below [2^(53-k)] are binary64 numbers:
    rounding leaves them alone. *)
Lemma rnd_exact (k n : Z) (x : Q) :
  (0 <= k <= 1074)%Z -> (Z.abs n < 2 ^ 53)%Z ->
  x == inject_Z n * pow2 (- k) -> rnd x == x.
Proof.
  intros Hk Hn Hx. unfold rnd.
  destruct (Qeq_bool x 0) eqn:E0; [apply Qeq_bool_iff in E0; rewrite E0; reflexivity|].
  apply Qeq_bool_neq in E0.
  set (e := ilog2 (Qabs x)).
  assert (Habs : 0 < Qabs x).
  { apply Qabs_case; intros H.
    - destruct (Qlt_le_dec 0 x) as [H1|H1]; [exact H1|]. exfalso. apply E0. lra.
    - destruct (Qlt_le_dec x 0) as [H1|H1]; [lra|]. exfalso. apply E0. lra. }
  pose proof (ilog2_le (Qabs x) Habs) as Hlog. fold e in Hlog.
  unfold ulp. fold e. unfold precision.
  set (E := (Z.max e emin - (53 - 1))%Z).
  assert (HE : (E <= - k)%Z).
  { unfold E, emin. destruct (Z.max_spec e (-1022)) as [[H1 ->]|[H1 ->]]; [lia|].
    assert (Hlt : pow2 e < pow2 (53 - k)).
    { apply Qle_lt_trans with (Qabs x); [exact Hlog|].
      rewrite Hx, Qabs_Qmult.
      rewrite (Qabs_pos (pow2 (- k))) by (apply Qlt_le_weak, pow2_pos).
      replace (53 - k)%Z with (53 + - k)%Z by lia. rewrite pow2_add.
      apply Qmult_lt_r; [apply pow2_pos|].
      rewrite (pow2_Z 53) by lia.
      assert (Hq : Qabs (inject_Z n) == inject_Z (Z.abs n)).
      { unfold Qabs, inject_Z. cbn. reflexivity. }
      rewrite Hq. rewrite <- Zlt_Qlt. exact Hn. }
    apply pow2_lt_inv in Hlt. lia. }
  assert (Hdiv : x / pow2 E == inject_Z (n * 2 ^ (- k - E))).
  { rewrite inject_Z_mult, <- (pow2_Z (- k - E)) by lia.
    replace (- k - E)%Z with (- k + - E)%Z by lia. rewrite pow2_add.
    rewrite Hx. unfold Qdiv. rewrite <- (pow2_inv E). ring. }
  rewrite (nearest_even_comp _ _ Hdiv), nearest_even_Z.
  rewrite <- Hdiv. pose proof (pow2_pos E) as HpE. field. lra.
Qed.

End Binary64Facts.

Section Binary64Kernel.
Import PrimFloat.

(** [rnd] against the binary64 arithmetic of the kernel: the decimal
    literals, differences, sums and quotients met below, and halves of
    subnormal numbers, one of them a tie. *)
#[warnings="-inexact-float"]
Lemma rnd_agrees_with_primitive_floats :
  let is_float := binary64.is_float in
  let rnd := binary64.rnd in
  is_float 4.88%float (rnd (488 # 100)) = true
  /\ is_float (6.08 - 4.88)%float (rnd (rnd (608 # 100) - rnd (488 # 100))) = true
  /\ is_float (23.328 - (23.328 - (6.08 - 4.88)))%float
       (rnd (rnd (23328 # 1000)
             - rnd (rnd (23328 # 1000) - rnd (rnd (608 # 100) - rnd (488 # 100)))))
     = true
  /\ is_float (0.1 + 0.2)%float (rnd (rnd (1 # 10) + rnd (2 # 10))) = true
  /\ is_float (1169 / 233.8)%float (rnd (rnd 1169 / rnd (2338 # 10))) = true
  /\ is_float (215.31 / 71.77)%float (rnd (rnd (21531 # 100) / rnd (7177 # 100))) = true
  /\ is_float (0x1p-1074 / 2)%float (rnd (binary64.pow2 (-1074) / 2)) = true
  /\ is_float (0x3p-1074 / 2)%float (rnd (3 * binary64.pow2 (-1074) / 2)) = true
  /\ is_float (9007199254740992 + 1)%float (rnd (inject_Z (2 ^ 53) + 1)) = true.
Proof. cbv zeta. repeat split; vm_compute; reflexivity. Qed.

End Binary64Kernel.

Section Binary64Order.
Import binary64.

Lemma nearest_even_ge_floor (y : Q) : (Qfloor y <= nearest_even y)%Z.
Proof.
  unfold nearest_even. cbv zeta.
  destruct (Qlt_bool _ _); [lia|].
  destruct (Qlt_bool _ _); [lia|].
  destruct (Z.even _); lia.
Qed.

Lemma nearest_even_le_ceiling (y : Q) : (nearest_even y <= Qceiling y)%Z.
Proof.
  pose proof (Qfloor_le y) as Hf. pose proof (Qle_ceiling y) as Hc.
  assert (Hfc : (Qfloor y <= Qceiling y)%Z).
  { rewrite Zle_Qle. lra. }
  assert (Hup : ~ y - inject_Z (Qfloor y) < 1 # 2 -> (Qfloor y + 1 <= Qceiling y)%Z).
  { intros Hr. assert (H : inject_Z (Qfloor y) < inject_Z (Qceiling y)) by lra.
    rewrite <- Zlt_Qlt in H. lia. }
  unfold nearest_even. cbv zeta.
  destruct (Qlt_bool (y - inject_Z (Qfloor y)) (1 # 2)) eqn:E1; [exact Hfc|].
  apply Qlt_bool_false_iff in E1.
  assert (Hr : ~ y - inject_Z (Qfloor y) < 1 # 2) by lra.
  specialize (Hup Hr).
  destruct (Qlt_bool _ _); [exact Hup|].
  destruct (Z.even _); [exact Hfc | exact Hup].
Qed.

Lemma ulp_pos (x : Q) : 0 < ulp x.
Proof. apply pow2_pos. Qed.

Lemma Qabs_pos_lt (x : Q) : 0 < x -> Qabs x == x.
Proof. intros H. apply Qabs_pos. lra. Qed.

Lemma ilog2_comp_le (x : Q) : 0 < x -> pow2 (ilog2 (Qabs x)) <= x.
Proof.
  intros Hx. rewrite <- (Qabs_pos_lt x Hx) at 2. apply ilog2_le.
  rewrite (Qabs_pos_lt x Hx). exact Hx.
Qed.

(** Rounding does not cross a whole number below [2^53]. *)
Lemma rnd_ge_int (n : Z) (x : Q) :
  (0 <= n < 2 ^ 53)%Z -> inject_Z n <= x -> inject_Z n <= rnd x.
Proof.
  intros Hn Hx. unfold rnd.
  destruct (Qeq_bool x 0) eqn:E0.
  { apply Qeq_bool_iff in E0. lra. }
  apply Qeq_bool_neq in E0.
  assert (Hn0 : 0 <= inject_Z n) by (rewrite <- (Zle_Qle 0); lia).
  assert (Hpos : 0 < x).
  { destruct (Qlt_le_dec 0 x) as [H|H]; [exact H|]. exfalso. apply E0. lra. }
  pose proof (ilog2_comp_le x Hpos) as Hlog.
  unfold ulp, precision. set (e := ilog2 (Qabs x)) in *.
  set (E := (Z.max e emin - (53 - 1))%Z).
  pose proof (pow2_pos E) as Hu.
  pose proof (nearest_even_ge_floor (x / pow2 E)) as Hfl.
  destruct (Z_le_gt_dec E 0) as [HE|HE].
  - assert (HN : inject_Z (n * 2 ^ (- E)) == inject_Z n / pow2 E).
    { rewrite inject_Z_mult, <- (pow2_Z (- E)) by lia. rewrite pow2_inv. reflexivity. }
    assert (Hle : inject_Z (n * 2 ^ (- E)) <= x / pow2 E).
    { rewrite HN. unfold Qdiv. apply Qmult_le_compat_r; [exact Hx|].
      apply Qlt_le_weak, Qinv_lt_0_compat. exact Hu. }
    apply Qfloor_resp_le in Hle. rewrite Qfloor_Z in Hle.
    assert (H : inject_Z (n * 2 ^ (- E)) <= inject_Z (nearest_even (x / pow2 E)))
      by (rewrite <- Zle_Qle; lia).
    rewrite HN in H.
    apply (Qmult_le_compat_r _ _ (pow2 E)) in H; [|lra].
    assert (E1 : inject_Z n / pow2 E * pow2 E == inject_Z n) by (field; lra).
    rewrite E1 in H. exact H.
  - assert (He : (53 <= e)%Z) by (unfold E, emin in HE; lia).
    assert (HEe : (E = e - 52)%Z) by (unfold E, emin; lia).
    assert (Hle : inject_Z (2 ^ 52) <= x / pow2 E).
    { rewrite <- (pow2_Z 52) by lia. apply Qle_shift_div_l; [exact Hu|].
      rewrite <- pow2_add. replace (52 + E)%Z with e by lia. exact Hlog. }
    apply Qfloor_resp_le in Hle. rewrite Qfloor_Z in Hle.
    assert (H : inject_Z (2 ^ 52) <= inject_Z (nearest_even (x / pow2 E)))
      by (rewrite <- Zle_Qle; lia).
    apply (Qmult_le_compat_r _ _ (pow2 E)) in H; [|lra].
    rewrite <- (pow2_Z 52), <- pow2_add in H by lia.
    replace (52 + E)%Z with e in H by lia.
    assert (H53 : pow2 53 <= pow2 e) by (apply pow2_le; exact He).
    rewrite (pow2_Z 53) in H53 by lia.
    assert (Hn53 : inject_Z n <= inject_Z (2 ^ 53)) by (rewrite <- Zle_Qle; lia).
    lra.
Qed.

Lemma rnd_le_int (n : Z) (x : Q) :
  (0 <= n < 2 ^ 53)%Z -> 0 <= x -> x <= inject_Z n -> rnd x <= inject_Z n.
Proof.
  intros Hn H0 Hx. unfold rnd.
  assert (Hn0 : 0 <= inject_Z n) by (rewrite <- (Zle_Qle 0); lia).
  destruct (Qeq_bool x 0) eqn:E0; [exact Hn0|].
  apply Qeq_bool_neq in E0.
  assert (Hpos : 0 < x).
  { destruct (Qlt_le_dec 0 x) as [H|H]; [exact H|]. exfalso. apply E0. lra. }
  pose proof (ilog2_comp_le x Hpos) as Hlog.
  unfold ulp, precision. set (e := ilog2 (Qabs x)) in *.
  set (E := (Z.max e emin - (53 - 1))%Z).
  pose proof (pow2_pos E) as Hu.
  pose proof (nearest_even_le_ceiling (x / pow2 E)) as Hcl.
  assert (He : (e < 53)%Z).
  { apply pow2_lt_inv. rewrite (pow2_Z 53) by lia.
    assert (Hn53 : inject_Z n < inject_Z (2 ^ 53)) by (rewrite <- Zlt_Qlt; lia).
    lra. }
  assert (HE : (E <= 0)%Z) by (unfold E, emin; lia).
  assert (HN : inject_Z (n * 2 ^ (- E)) == inject_Z n / pow2 E).
  { rewrite inject_Z_mult, <- (pow2_Z (- E)) by lia. rewrite pow2_inv. reflexivity. }
  assert (Hle : x / pow2 E <= inject_Z (n * 2 ^ (- E))).
  { rewrite HN. unfold Qdiv. apply Qmult_le_compat_r; [exact Hx|].
    apply Qlt_le_weak, Qinv_lt_0_compat. exact Hu. }
  apply Qceiling_resp_le in Hle. rewrite Qceiling_Z in Hle.
  assert (H : inject_Z (nearest_even (x / pow2 E)) <= inject_Z (n * 2 ^ (- E)))
    by (rewrite <- Zle_Qle; lia).
  rewrite HN in H.
  apply (Qmult_le_compat_r _ _ (pow2 E)) in H; [|lra].
  assert (E1 : inject_Z n / pow2 E * pow2 E == inject_Z n) by (field; lra).
  rewrite E1 in H. exact H.
Qed.

End Binary64Order.

Section GridFacts.
Import binary64.

Lemma on_grid_eq (k : Z) (x y : Q) : x == y -> on_grid k x -> on_grid k y.
Proof. intros H [n Hn]. exists n. rewrite <- H. exact Hn. Qed.

Lemma on_grid_0 (k : Z) : on_grid k 0.
Proof. exists 0%Z. ring. Qed.

Lemma on_grid_plus (k : Z) (x y : Q) : on_grid k x -> on_grid k y -> on_grid k (x + y).
Proof.
  intros [n Hn] [m Hm]. exists (n + m)%Z. rewrite inject_Z_plus, Hn, Hm. ring.
Qed.

Lemma on_grid_minus (k : Z) (x y : Q) : on_grid k x -> on_grid k y -> on_grid k (x - y).
Proof.
  intros [n Hn] [m Hm]. exists (n - m)%Z.
  unfold Z.sub. rewrite inject_Z_plus, inject_Z_opp, Hn, Hm. ring.
Qed.

Lemma Qabs_inject_Z (n : Z) : Qabs (inject_Z n) == inject_Z (Z.abs n).
Proof. unfold Qabs, inject_Z. cbn. reflexivity. Qed.

(** A grid value no larger than a binary64 grid value is not rounded. *)
Lemma rnd_on_grid (k : Z) (x bound : Q) :
  (0 <= k <= 1074)%Z -> on_grid k x ->
  (exists n : Z, (Z.abs n < 2 ^ 53)%Z /\ bound == inject_Z n * pow2 (- k)) ->
  Qabs x <= Qabs bound -> rnd x == x.
Proof.
  intros Hk [n Hn] (m & Hm & Hb) Hle.
  apply (rnd_exact k n x Hk); [|exact Hn].
  rewrite Hn, Hb, !Qabs_Qmult, !Qabs_inject_Z in Hle.
  apply Qmult_le_r in Hle.
  - rewrite <- Zle_Qle in Hle. lia.
  - rewrite Qabs_pos by (apply Qlt_le_weak, pow2_pos). apply pow2_pos.
Qed.

End GridFacts.

(** ** Timestamp adjustment (video_analysis.py) *)

Section TimelineFacts.
Import composite_builder video_analysis timeline_spec binary64.

Lemma ascending_cuts_from (cuts : list SilenceCut) :
  ascending_cuts cuts -> on_timeline cuts -> ascending_from 0 cuts.
Proof.
  destruct cuts as [|c rest]; simpl; [trivial|]. intros [H1 H2] H0. auto.
Qed.

Lemma kept_before_nonneg (t : Q) (cuts : list SilenceCut) :
  0 <= kept_before t cuts.
Proof.
  induction cuts as [|c rest IH]; simpl; [lra|].
  qminmax; lra.
Qed.

Lemma kept_before_zero (cuts : list SilenceCut) : forall lo t,
  ascending_from lo cuts -> t <= lo -> kept_before t cuts == 0.
Proof.
  induction cuts as [|c rest IH]; simpl; intros lo t Hasc Ht; [reflexivity|].
  destruct Hasc as (Hlo & Hse & Hrest).
  assert (Hz : kept_before t rest == 0) by (apply (IH (end_ c)); [exact Hrest | lra]).
  rewrite Hz. qminmax; lra.
Qed.


Lemma kept_before_le (cuts : list SilenceCut) : forall lo t,
  ascending_from lo cuts -> kept_before t cuts <= Qmax 0 (t - lo).
Proof.
  induction cuts as [|c rest IH]; simpl; intros lo t Hasc.
  - apply Q.le_max_l.
  - destruct Hasc as (Hlo & Hse & Hrest).
    specialize (IH (end_ c) t Hrest). revert IH.
    qminmax; lra.
Qed.


(** *** Where binary64 does not round *)

Lemma exact_time_on_grid (k : Z) (x : Q) : exact_time k x -> on_grid k x.
Proof. intros (n & _ & Hn). exists n. exact Hn. Qed.

Lemma Qabs_le_nonneg (x y : Q) : 0 <= x -> x <= y -> Qabs x <= Qabs y.
Proof. intros Hx Hy. rewrite !Qabs_pos; lra. Qed.

(** A float operation whose exact result is a grid value within an exact
    time is not rounded. *)
Lemma fsub_exact (k : Z) (x y bound : Q) :
  binary64_grid k -> on_grid k x -> on_grid k y -> exact_time k bound ->
  Qabs (x - y) <= Qabs bound -> fsub x y == x - y.
Proof.
  intros Hk Hx Hy Hb Hle. unfold fsub.
  apply (rnd_on_grid k _ bound Hk); [apply on_grid_minus; assumption | exact Hb | exact Hle].
Qed.

Lemma fadd_exact (k : Z) (x y bound : Q) :
  binary64_grid k -> on_grid k x -> on_grid k y -> exact_time k bound ->
  Qabs (x + y) <= Qabs bound -> fadd x y == x + y.
Proof.
  intros Hk Hx Hy Hb Hle. unfold fadd.
  apply (rnd_on_grid k _ bound Hk); [apply on_grid_plus; assumption | exact Hb | exact Hle].
Qed.

Lemma exact_cuts_grid (k : Z) (cuts : list SilenceCut) :
  exact_cuts k cuts -> grid_cuts k cuts.
Proof.
  intros H. induction H as [|c rest [Hs He] _ IH]; constructor; [|exact IH].
  split; apply exact_time_on_grid; assumption.
Qed.

Lemma on_grid_Qmax (k : Z) (x y : Q) : on_grid k x -> on_grid k y -> on_grid k (Qmax x y).
Proof.
  intros Hx Hy. destruct (Q.max_spec x y) as [[_ H]|[_ H]];
    [apply (on_grid_eq k y) | apply (on_grid_eq k x)]; auto; symmetry; exact H.
Qed.

Lemma on_grid_Qmin (k : Z) (x y : Q) : on_grid k x -> on_grid k y -> on_grid k (Qmin x y).
Proof.
  intros Hx Hy. destruct (Q.min_spec x y) as [[_ H]|[_ H]];
    [apply (on_grid_eq k x) | apply (on_grid_eq k y)]; auto; symmetry; exact H.
Qed.

Lemma kept_before_on_grid (k : Z) (t : Q) (cuts : list SilenceCut) :
  on_grid k t -> grid_cuts k cuts -> on_grid k (kept_before t cuts).
Proof.
  intros Ht H. induction H as [|c rest [Hs He] _ IH]; simpl; [apply on_grid_0|].
  apply on_grid_plus; [|exact IH].
  apply on_grid_Qmax; [apply on_grid_0|].
  apply on_grid_minus; [apply on_grid_Qmin|]; assumption.
Qed.

(** The loop of the source computes the kept duration before the
    timestamp, on every ascending list of kept intervals, when no
    operation rounds. *)
Lemma cumulative_time_loop_kept (k : Z) (t : Q) (cuts : list SilenceCut) :
  binary64_grid k -> exact_time k t ->
  forall lo acc,
  grid_cuts k cuts -> ascending_from lo cuts ->
  on_grid k acc -> 0 <= acc -> acc <= lo ->
  cumulative_time_loop t acc cuts == acc + kept_before t cuts.
Proof.
  intros Hk Ht. pose proof (exact_time_on_grid k t Ht) as Hgt.
  induction cuts as [|c rest IH]; intros lo acc Hgrid Hasc Hga H0 Hlo;
    cbn [cumulative_time_loop kept_before]; [lra|].
  inversion Hgrid as [|? ? [Hgs Hge] Hgrest]; subst.
  destruct Hasc as (Hlos & Hse & Hrest).
  assert (Hz : t <= end_ c -> kept_before t rest == 0)
    by (intros Hle; apply (kept_before_zero rest (end_ c)); assumption).
  qcases.
  - rewrite Hz by lra. qminmax; lra.
  - assert (Hd : fsub (end_ c) (start c) == end_ c - start c).
    { apply (fsub_exact k _ _ t); auto. apply Qabs_le_nonneg; lra. }
    assert (Ha : fadd acc (fsub (end_ c) (start c)) == acc + (end_ c - start c)).
    { rewrite <- Hd. apply (fadd_exact k _ _ t); auto.
      - apply (on_grid_eq k (end_ c - start c)); [symmetry; exact Hd|].
        apply on_grid_minus; assumption.
      - rewrite Hd. apply Qabs_le_nonneg; lra. }
    rewrite (IH (end_ c) _ Hgrest Hrest).
    + rewrite Ha. qminmax; lra.
    + apply (on_grid_eq k (acc + (end_ c - start c))); [symmetry; exact Ha|].
      apply on_grid_plus; [exact Hga|]. apply on_grid_minus; assumption.
    + rewrite Ha. lra.
    + rewrite Ha. lra.
  - assert (Hd : fsub t (start c) == t - start c).
    { apply (fsub_exact k _ _ t); auto. apply Qabs_le_nonneg; lra. }
    assert (Ha : fadd acc (fsub t (start c)) == acc + (t - start c)).
    { rewrite <- Hd. apply (fadd_exact k _ _ t); auto.
      - apply (on_grid_eq k (t - start c)); [symmetry; exact Hd|].
        apply on_grid_minus; assumption.
      - rewrite Hd. apply Qabs_le_nonneg; lra. }
    rewrite Ha, Hz by lra. qminmax; lra.
Qed.

Lemma adjust_timestamp_kept (k : Z) (cuts : list SilenceCut) (t : Q) :
  binary64_grid k -> ascending_cuts cuts -> on_timeline cuts ->
  exact_cuts k cuts -> exact_time k t ->
  adjust_timestamp t cuts == kept_before t cuts.
Proof.
  intros Hk Hasc H0 Hex Ht.
  pose proof (ascending_cuts_from cuts Hasc H0) as Hfrom.
  pose proof (exact_cuts_grid k cuts Hex) as Hgrid.
  pose proof (exact_time_on_grid k t Ht) as Hgt.
  pose proof (cumulative_time_loop_kept k t cuts Hk Ht 0 0 Hgrid Hfrom
                (on_grid_0 k) ltac:(lra) ltac:(lra)) as Hc.
  pose proof (kept_before_nonneg t cuts) as Hn.
  pose proof (kept_before_le cuts 0 t Hfrom) as Hle.
  pose proof (kept_before_on_grid k t cuts Hgt Hgrid) as Hgk.
  unfold adjust_timestamp. cbv zeta.
  set (c := cumulative_time_loop t 0 cuts) in *.
  assert (Hc' : c == kept_before t cuts) by (rewrite Hc; lra).
  assert (Hgc : on_grid k c) by (apply (on_grid_eq k _ _ (Qeq_sym _ _ Hc')); exact Hgk).
  assert (Hcases : (t < 0 /\ c == 0) \/ (0 <= t /\ c <= t)).
  { rewrite Hc'. destruct (Qlt_le_dec t 0) as [Hneg|Hpos]; [left | right];
      (split; [assumption|]); revert Hle; qminmax; lra. }
  assert (Habs : Qabs (t - c) <= Qabs t /\ Qabs c <= Qabs t).
  { destruct Hcases as [[Hneg Hk0]|[Hpos Hkt]].
    - rewrite Hk0. split.
      + assert (E : t - 0 == t) by ring. rewrite E. apply Qle_refl.
      + rewrite (Qabs_pos 0) by lra. apply Qabs_nonneg.
    - assert (0 <= c) by (rewrite Hc'; exact Hn).
      split; apply Qabs_le_nonneg; lra. }
  destruct Habs as [Hab1 Hab2].
  assert (Hr : fsub t c == t - c) by (apply (fsub_exact k _ _ t); auto).
  assert (Hgr : on_grid k (fsub t c)).
  { apply (on_grid_eq k (t - c)); [symmetry; exact Hr | apply on_grid_minus; assumption]. }
  assert (Hfin : fsub t (fsub t c) == t - fsub t c).
  { apply (fsub_exact k _ _ t); auto. rewrite Hr.
    assert (E : t - (t - c) == c) by ring. rewrite E. exact Hab2. }
  rewrite Hfin, Hr, <- Hc'. ring.
Qed.

End TimelineFacts.

Section TimelineClaims.
Import composite_builder video_analysis timeline_spec binary64.

(** Whole seconds below [2^53] are exact times. *)
Lemma whole_seconds_exact (n : Z) : (Z.abs n < 2 ^ 53)%Z -> exact_time 0 (inject_Z n).
Proof. intros H. exists n. split; [exact H|]. unfold pow2. cbn. ring. Qed.

Lemma example_cuts_exact : exact_cuts 0 example_cuts.
Proof.
  repeat constructor;
    first [ apply (whole_seconds_exact 0) | apply (whole_seconds_exact 10)
          | apply (whole_seconds_exact 20) | apply (whole_seconds_exact 30) ];
    reflexivity.
Qed.







End TimelineClaims.

(** ** Zoom keyframe interpolation (composite_builder.py) *)

Section ZoomFacts.
Import composite_builder zoom_spec.

Lemma keyframes_sorted_tail (k : ZoomKeyframe) (rest : list ZoomKeyframe) :
  keyframes_sorted (k :: rest) -> keyframes_sorted rest.
Proof. simpl. tauto. Qed.




End ZoomFacts.

Section ZoomQueue.
Import composite_builder zoom_spec.

Lemma insert_by_time_sorted (k : ZoomKeyframe) (l : list ZoomKeyframe) :
  keyframes_sorted l -> keyframes_sorted (insert_by_time k l).
Proof.
  induction l as [|k' rest IH]; intros Hl; simpl; [auto|].
  destruct (Qle_bool (time k) (time k')) eqn:E.
  - apply Qle_bool_iff in E. simpl. simpl in Hl. tauto.
  - apply Qle_bool_false_iff in E. destruct Hl as [Hk Hrest].
    specialize (IH Hrest). split; [|exact IH].
    destruct rest as [|k'' rest']; simpl.
    + lra.
    + destruct (Qle_bool (time k) (time k'')); [lra | exact Hk].
Qed.

(** [add_zoom_keyframes] queues the keyframes in ascending order of time,
    whatever order they come in. *)
Lemma add_zoom_keyframes_sorted (keyframes : list ZoomKeyframe)
    (self : CompositeVideoBuilder) :
  keyframes_sorted (zoom_keyframes (add_zoom_keyframes keyframes self)).
Proof.
  cbn. induction keyframes as [|k l IH]; simpl; [exact I|].
  apply insert_by_time_sorted. exact IH.
Qed.

End ZoomQueue.

Section ZoomClaims.
Import composite_builder zoom_spec.



End ZoomClaims.


(** ** Overlap avoidance (video_processing.py) *)

Section OverlapFacts.
Import video_processing overlap_spec.

(** One iteration of the scan, in the specification's vocabulary. *)
Lemma resolve_conflicts_step (video_duration : Q) (interval : Interval)
    (resolved_intervals : list Interval) (r : Interval) (rest : list Interval)
    (conflict_found : bool) :
  resolve_conflicts video_duration interval resolved_intervals (r :: rest) conflict_found
  = if conflicts interval r then
      match placement video_duration interval r resolved_intervals with
      | Some placed => Some placed
      | None => resolve_conflicts video_duration interval resolved_intervals rest true
      end
    else resolve_conflicts video_duration interval resolved_intervals rest conflict_found.
Proof.
  cbn [resolve_conflicts].
  unfold conflicts, placement, shifted_after, shifted_before, length_of,
    creates_new_conflict, conflicts.
  cbn [start end_ moved].
  destruct (overlaps (start interval) (end_ interval) r); [|reflexivity].
  destruct (Qle_bool (end_ r + min_gap + (end_ interval - start interval)) video_duration);
    [reflexivity|].
  match goal with
  | |- context [Qle_bool 0 ?a && negb ?b] => destruct (Qle_bool 0 a && negb b)
  end; reflexivity.
Qed.

(** The scan of the accepted intervals in closed form: the candidate is
    placed against the first accepted interval that conflicts with it and
    admits a placement; without one it is skipped if any conflict was met
    and kept as it is otherwise. *)
Lemma resolve_conflicts_closed_form (video_duration : Q) (interval : Interval)
    (resolved_intervals : list Interval) :
  forall (remaining : list Interval) (conflict_found : bool),
  resolve_conflicts video_duration interval resolved_intervals remaining conflict_found
  = match find (admits video_duration interval resolved_intervals) remaining with
    | Some r => placement video_duration interval r resolved_intervals
    | None =>
        if conflict_found || existsb (conflicts interval) remaining
        then None else Some interval
    end.
Proof.
  induction remaining as [|r rest IH]; intros flag.
  - simpl. rewrite orb_false_r. reflexivity.
  - rewrite resolve_conflicts_step. cbn [find existsb]. unfold admits at 1.
    destruct (conflicts interval r) eqn:Hc; cbn [andb].
    + destruct (placement video_duration interval r resolved_intervals) eqn:Hp.
      * cbv beta iota. symmetry. exact Hp.
      * cbv beta iota. rewrite IH. cbn [orb]. rewrite orb_true_r. reflexivity.
    + rewrite IH. cbn [orb]. reflexivity.
Qed.

Lemma insert_by_start_ascending (x : Interval) (l : list Interval) :
  ascending_starts l -> ascending_starts (insert_by_start x l).
Proof.
  induction l as [|y rest IH]; intros Hl; simpl; [auto|].
  destruct (Qle_bool (start x) (start y)) eqn:E.
  - apply Qle_bool_iff in E. simpl. simpl in Hl. tauto.
  - apply Qle_bool_false_iff in E. destruct Hl as [Hy Hrest].
    specialize (IH Hrest). split; [|exact IH].
    destruct rest as [|z rest']; simpl.
    + lra.
    + destruct (Qle_bool (start x) (start z)); [lra | exact Hy].
Qed.

Lemma sorted_by_start_ascending (l : list Interval) :
  ascending_starts (sorted_by_start l).
Proof.
  induction l as [|x l IH]; simpl; [exact I|].
  apply insert_by_start_ascending. exact IH.
Qed.

Lemma insert_by_start_perm (x : Interval) (l : list Interval) :
  Permutation (x :: l) (insert_by_start x l).
Proof.
  induction l as [|y rest IH]; simpl; [apply Permutation_refl|].
  destruct (Qle_bool (start x) (start y)); [apply Permutation_refl|].
  apply perm_trans with (y :: x :: rest); [apply perm_swap|].
  apply perm_skip. exact IH.
Qed.

Lemma sorted_by_start_perm (l : list Interval) :
  Permutation l (sorted_by_start l).
Proof.
  induction l as [|x l IH]; simpl; [apply perm_nil|].
  apply perm_trans with (x :: sorted_by_start l); [apply perm_skip; exact IH|].
  apply insert_by_start_perm.
Qed.

(** The scenario of the specification: a B-roll at 10 s and an image at
    11 s, both 4 s long, in a video long enough to hold both. *)
Lemma overlap_scenario (D : Q) (cb ci : string) :
  15 <= D ->
  exists s',
    avoid_multimedia_overlaps [mkSuggestion 10 cb] [mkSuggestion 11 ci] D 4 4
    = ([mkSuggestion 10 cb], [mkSuggestion s' ci])
    /\ (14 + min_gap <= s' \/ s' + 4 + min_gap <= 10).
Proof.
  intros HD.
  unfold avoid_multimedia_overlaps, resolved_intervals_of.
  cbn [to_intervals start_time]. unfold py_min.
  assert (E1 : Qle_bool 4 (D - 10) = true) by (apply Qle_bool_iff; lra).
  assert (E2 : Qle_bool 4 (D - 11) = true) by (apply Qle_bool_iff; lra).
  rewrite E1, E2.
  replace (Qlt_bool 0 4) with true by reflexivity.
  cbn [app sorted_by_start fold_right insert_by_start start].
  replace (Qle_bool 10 11) with true by reflexivity.
  cbn [resolve_all resolve_conflicts app]. cbn [start end_].
  match goal with
  | |- context [overlaps ?a ?b ?r] => replace (overlaps a b r) with true by reflexivity
  end.
  match goal with
  | |- context [creates_new_conflict ?a ?b ?r ?l] =>
      replace (creates_new_conflict a b r l) with false
  end.
  2:{ unfold creates_new_conflict, interval_eqb, suggestion_eqb.
      cbn [existsb index start end_ type suggestion_ start_time content].
      rewrite String.eqb_refl. reflexivity. }
  replace (Qle_bool 0 (10 - min_gap - (11 + 4 - 11))) with true by reflexivity.
  cbn [andb negb].
  destruct (Qle_bool (10 + 4 + min_gap + (11 + 4 - 11)) D) eqn:E3.
  - exists (10 + 4 + min_gap). split; [reflexivity|].
    left. unfold min_gap. lra.
  - exists (10 - min_gap - (11 + 4 - 11)). split; [reflexivity|].
    right. unfold min_gap. lra.
Qed.

End OverlapFacts.

Section OverlapClaims.
Import video_processing overlap_spec.

(** C5, as stated, fails where it says "else dropped".  With a 13 s video,
    5 s B-roll clips and 4 s images, B-roll at 1 s and images at 0 s, 1 s and
    5 s: the third image conflicts with the accepted B-roll (moved to
    4.5-9.5), fits neither after it (end 14 > 13) nor before it (0-4 is in
    conflict with the first image), and is still kept, at 9 s, because the
    scan goes on to the next accepted interval. *)
Lemma C5_counterexample_scan_continues :
  let broll_suggestions := [mkSuggestion 1 "b0"] in
  let image_suggestions :=
    [mkSuggestion 0 "i0"; mkSuggestion 1 "i1"; mkSuggestion 5 "i2"] in
  start_times (snd (avoid_multimedia_overlaps broll_suggestions image_suggestions 13 5 4))
    = [0; 9 # 2; 9]
  /\ start_times (snd (claimed_avoidance broll_suggestions image_suggestions 13 5 4))
    = [0; 9 # 2]
  /\ avoid_multimedia_overlaps broll_suggestions image_suggestions 13 5 4
     <> claimed_avoidance broll_suggestions image_suggestions 13 5 4.
Proof.
  cbv zeta. split; [vm_compute; reflexivity|]. split; [vm_compute; reflexivity|].
  intros H. apply (f_equal (fun p => List.length (snd p))) in H.
  vm_compute in H. discriminate H.
Qed.

(** C5 (amended): the avoidance pass sorts all candidate intervals by start
    time and walks them in order.  For one candidate the accepted intervals
    are scanned in the order of their acceptance; at each one in conflict
    with it (closer than the 0.5 s gap) the candidate is first shifted to
    start at that interval's end + 0.5 s (kept only if its new end is within
    the video), else shifted to end at that interval's start - 0.5 s (kept
    only if its new start is not negative and no other accepted interval is
    in conflict with it), else the scan goes on to the next accepted
    interval; the candidate is dropped only when it is in conflict and no
    accepted interval in conflict with it admits a placement, and is kept
    unchanged when it is in no conflict.  With a B-roll at 10 s and an image
    at 11 s, both 4 s long, exactly the image is shifted, the two end up at
    least 0.5 s apart, and each appears once. *)
Theorem C5_overlap_resolution_policy :
  (forall (l : list Interval),
      Permutation l (sorted_by_start l) /\ ascending_starts (sorted_by_start l))
  /\ (forall (D : Q) (candidate : Interval) (rest accepted : list Interval),
      resolve_all D (candidate :: rest) accepted
      = resolve_all D rest
          (accepted ++ match resolve_conflicts D candidate accepted accepted false with
                       | Some placed => [placed]
                       | None => []
                       end))
  /\ (forall (D : Q) (candidate : Interval) (accepted : list Interval),
      resolve_conflicts D candidate accepted accepted false
      = match find (admits D candidate accepted) accepted with
        | Some r => placement D candidate r accepted
        | None =>
            if existsb (conflicts candidate) accepted then None else Some candidate
        end)
  /\ (forall (D : Q) (cb ci : string),
      15 <= D ->
      exists s',
        avoid_multimedia_overlaps [mkSuggestion 10 cb] [mkSuggestion 11 ci] D 4 4
        = ([mkSuggestion 10 cb], [mkSuggestion s' ci])
        /\ (14 + min_gap <= s' \/ s' + 4 + min_gap <= 10)).
Proof.
  split; [|split; [|split]].
  - intros l. split; [apply sorted_by_start_perm | apply sorted_by_start_ascending].
  - intros D candidate rest accepted. cbn [resolve_all].
    destruct (resolve_conflicts D candidate accepted accepted false).
    + reflexivity.
    + rewrite app_nil_r. reflexivity.
  - intros D candidate accepted.
    rewrite resolve_conflicts_closed_form. reflexivity.
  - intros D cb ci HD. apply overlap_scenario. exact HD.
Qed.

Lemma C5_overlap_resolution_policy_witness :
  exists s',
    avoid_multimedia_overlaps [mkSuggestion 10 "broll"] [mkSuggestion 11 "image"] 60 4 4
    = ([mkSuggestion 10 "broll"], [mkSuggestion s' "image"])
    /\ (14 + min_gap <= s' \/ s' + 4 + min_gap <= 10).
Proof.
  apply (proj2 (proj2 (proj2 C5_overlap_resolution_policy)) 60 "broll"%string "image"%string).
  lra.
Defined.

(** C6 (evaluation at the failing input): with B-roll suggestions at 0 s and
    2 s, an image suggestion at 1 s, 4 s clips and a 60 s video, the first
    pass returns B-roll at 0 s and 4.5 s and the image at 4.5 s, on top of
    the second B-roll; the second pass on that output moves the image on to
    9 s. *)
Theorem C6_second_pass_shifts_again :
  let first_pass :=
    avoid_multimedia_overlaps [mkSuggestion 0 "b0"; mkSuggestion 2 "b1"]
                              [mkSuggestion 1 "i0"] 60 4 4 in
  let second_pass :=
    avoid_multimedia_overlaps (fst first_pass) (snd first_pass) 60 4 4 in
  start_times (fst first_pass) = [0; 9 # 2]
  /\ start_times (snd first_pass) = [9 # 2]
  /\ start_times (fst second_pass) = [0; 9 # 2]
  /\ start_times (snd second_pass) = [9]
  /\ second_pass <> first_pass.
Proof.
  cbv zeta. repeat split; try (vm_compute; reflexivity).
  intros H. apply (f_equal (fun p => start_times (snd p))) in H.
  vm_compute in H. discriminate H.
Qed.

End OverlapClaims.

(** ** Caption timestamps (video_processing.py) *)

Section SrtFacts.
Import video_processing srt_spec.

Lemma two_digits_below_100 (n : Z) :
  (0 <= n < 100)%Z -> two_digits (format_0d 2 n) = true.
Proof.
  intros Hn.
  assert (Hall : forallb (fun k => two_digits (format_0d 2 (Z.of_nat k))) (seq 0 100) = true)
    by (vm_compute; reflexivity).
  rewrite forallb_forall in Hall.
  specialize (Hall (Z.to_nat n)). rewrite Z2Nat.id in Hall by lia.
  apply Hall. apply in_seq. lia.
Qed.

Lemma three_digits_below_1000 (n : Z) :
  (0 <= n < 1000)%Z -> three_digits (format_0d 3 n) = true.
Proof.
  intros Hn.
  assert (Hall : forallb (fun k => three_digits (format_0d 3 (Z.of_nat k))) (seq 0 1000) = true)
    by (vm_compute; reflexivity).
  rewrite forallb_forall in Hall.
  specialize (Hall (Z.to_nat n)). rewrite Z2Nat.id in Hall by lia.
  apply Hall. apply in_seq. lia.
Qed.

Lemma list_ascii_of_string_app (a b : string) :
  list_ascii_of_string (a ++ b) = (list_ascii_of_string a ++ list_ascii_of_string b)%list.
Proof.
  induction a as [|c a IH]; cbn; [reflexivity|]. rewrite IH. reflexivity.
Qed.

(** Fields of the right widths make a timestamp of the grammar. *)
Lemma fields_make_timestamp (h m s f : string) :
  two_digits h = true -> two_digits m = true -> two_digits s = true ->
  three_digits f = true ->
  is_srt_timestamp (h ++ ":" ++ m ++ ":" ++ s ++ "," ++ f) = true.
Proof.
  unfold two_digits, three_digits, is_srt_timestamp.
  rewrite !list_ascii_of_string_app.
  destruct (list_ascii_of_string h) as [|h1 [|h2 [|]]]; try discriminate.
  destruct (list_ascii_of_string m) as [|m1 [|m2 [|]]]; try discriminate.
  destruct (list_ascii_of_string s) as [|s1 [|s2 [|]]]; try discriminate.
  destruct (list_ascii_of_string f) as [|f1 [|f2 [|f3 [|]]]]; try discriminate.
  cbn. intros Hh Hm Hs Hf.
  apply andb_true_iff in Hh as [-> ->]. apply andb_true_iff in Hm as [-> ->].
  apply andb_true_iff in Hs as [-> ->].
  apply andb_true_iff in Hf as [Hf ->]. apply andb_true_iff in Hf as [-> ->].
  reflexivity.
Qed.

(** Where the formatter is right: a non-negative time below 100 hours
    whose fraction does not round up to 1000 milliseconds is written in the
    exact shape HH:MM:SS,mmm. *)
Lemma format_time_srt_well_formed (t : Q) :
  0 <= t -> t < 360000 ->
  (py_round ((t - inject_Z (py_int t)) * 1000) < 1000)%Z ->
  is_srt_timestamp (_format_time_srt t) = true.
Proof.
  intros H0 Hmax Hms. unfold _format_time_srt.
  assert (Hint : py_int t = Qfloor t).
  { unfold py_int. apply Qle_bool_iff in H0. rewrite H0. reflexivity. }
  rewrite Hint in *.
  assert (Hf0 : (0 <= Qfloor t)%Z).
  { change 0%Z with (Qfloor 0). apply Qfloor_resp_le. exact H0. }
  assert (Hf1 : (Qfloor t < 360000)%Z).
  { apply Z.le_lt_trans with (Qfloor t); [lia|].
    assert (Hq : inject_Z (Qfloor t) < 360000) by (pose proof (Qfloor_le t); lra).
    rewrite (Zlt_Qlt (Qfloor t) 360000). exact Hq. }
  assert (Hms0 : (0 <= py_round ((t - inject_Z (Qfloor t)) * 1000))%Z).
  { unfold py_round.
    assert (Hx : 0 <= (t - inject_Z (Qfloor t)) * 1000)
      by (pose proof (Qfloor_le t); nra).
    assert (Hfx : (0 <= Qfloor ((t - inject_Z (Qfloor t)) * 1000))%Z)
      by (change 0%Z with (Qfloor 0); apply Qfloor_resp_le; exact Hx).
    repeat match goal with |- context [if ?b then _ else _] => destruct b end; lia. }
  apply fields_make_timestamp.
  - apply two_digits_below_100. split.
    + apply Z.div_pos; [apply Z.div_pos; lia | lia].
    + apply Z.div_lt_upper_bound; [lia|]. apply Z.div_lt_upper_bound; lia.
  - apply two_digits_below_100.
    pose proof (Z.mod_pos_bound (Qfloor t / 60) 60). lia.
  - apply two_digits_below_100.
    pose proof (Z.mod_pos_bound (Qfloor t) 60). lia.
  - apply three_digits_below_1000. lia.
Qed.

End SrtFacts.

Section SrtClaims.
Import video_processing srt_spec.

Example format_time_srt_ordinary :
  _format_time_srt (7323 + (1 # 2)) = "02:02:03,500"%string
  /\ is_srt_timestamp (_format_time_srt (7323 + (1 # 2))) = true.
Proof. split; vm_compute; reflexivity. Qed.

(** C9 (evaluation at the failing input): for the segment time 0.9996 s
    the fraction times 1000 is 999.6, [round] takes it to 1000 and nothing
    carries it into the seconds, so the millisecond field has four
    digits. *)
Theorem C9_millisecond_field_overflows :
  _format_time_srt (9996 # 10000) = "00:00:00,1000"%string
  /\ is_srt_timestamp (_format_time_srt (9996 # 10000)) = false
  /\ srt_time_line (5 # 10) (9996 # 10000) = "00:00:00,500 --> 00:00:00,1000"%string.
Proof. repeat split; vm_compute; reflexivity. Qed.

End SrtClaims.

(** ** Stage gating (video_processing.py) *)

Section OrchestratorClaims.
Import video_processing orchestrator_spec.

Lemma in_when (guard : bool) (stage x : Stage) :
  In x (when guard stage) <-> guard = true /\ x = stage.
Proof.
  unfold when. destruct guard; simpl; intuition congruence.
Qed.

(** What the gating does get right: after a failed transcription neither
    GPT correction nor subtitle burning runs, and the multimedia stage never
    runs with B-roll enabled. *)
Lemma failed_transcription_disables (flags : Flags) (world : World) :
  skip_transcription flags = false ->
  whisper_returns (whisper world) = false ->
  let stages := fst (process_video flags world) in
  ~ In GPTCorrection stages
  /\ ~ In SubtitleBurning stages
  /\ (forall with_images, ~ In (Multimedia true with_images) stages).
Proof.
  intros Hskip Hfail. unfold process_video. rewrite Hskip, Hfail.
  cbn [negb andb]. rewrite !orb_true_r. cbn [negb andb orb].
  match goal with
  | |- context [if ?c then _ else _] => destruct c
  end; cbn [fst];
    (split; [|split]; [intros H | intros H | intros with_images H];
     rewrite ?in_app_iff, ?in_when in H; intuition (try discriminate)).
Qed.

(** C7 (evaluation at the failing input): default flags, Whisper fails and
    the transcript of an earlier run is on disk.  GPT correction and
    subtitle burning are skipped, but the AI highlights stage runs, on the
    old transcript, because its guard also passes on
    [use_ai_word_highlighting], which the failure does not turn off. *)
Theorem C7_highlights_run_after_failed_transcription :
  let stages := fst (process_video default_flags stale_transcript_world) in
  In Transcription stages
  /\ whisper_returns (whisper stale_transcript_world) = false
  /\ In AIHighlights stages
  /\ ~ In GPTCorrection stages
  /\ ~ In SubtitleBurning stages
  /\ snd (process_video default_flags stale_transcript_world) = Finished.
Proof.
  vm_compute. repeat split; try tauto; intuition (try discriminate).
Qed.

End OrchestratorClaims.

(** ** The composite builder (composite_builder.py) *)

Section HoareRules.
Import composite_builder builder_spec.

Context {A B : Type}.

Lemma hoare_ret (P : State -> Prop) (a : A) (Q : A -> State -> Prop) (E : State -> Prop) :
  (forall s, P s -> Q a s) -> hoare P (ret a) Q E.
Proof. intros H s Hs. cbn. auto. Qed.

Lemma hoare_raise (P : State -> Prop) (Q : A -> State -> Prop) (E : State -> Prop) :
  (forall s, P s -> E s) -> hoare P raise Q E.
Proof. intros H s Hs. cbn. auto. Qed.

Lemma hoare_bind (P : State -> Prop) (m : M A) (k : A -> M B)
    (R : A -> State -> Prop) (Q : B -> State -> Prop) (E : State -> Prop) :
  hoare P m R E -> (forall a, hoare (R a) (k a) Q E) -> hoare P (bind m k) Q E.
Proof.
  intros Hm Hk s Hs. unfold bind. specialize (Hm s Hs).
  destruct (m s) as [[a|] s']; [apply (Hk a s' Hm) | exact Hm].
Qed.

Lemma hoare_try_except (P : State -> Prop) (body handler : M A)
    (Q : A -> State -> Prop) (E' E : State -> Prop) :
  hoare P body Q E' -> hoare E' handler Q E -> hoare P (try_except body handler) Q E.
Proof.
  intros Hb Hh s Hs. unfold try_except. specialize (Hb s Hs).
  destruct (body s) as [[a|] s']; [exact Hb | apply (Hh s' Hb)].
Qed.

Lemma hoare_weaken (P P' : State -> Prop) (m : M A)
    (Q Q' : A -> State -> Prop) (E E' : State -> Prop) :
  hoare P' m Q' E' ->
  (forall s, P s -> P' s) -> (forall a s, Q' a s -> Q a s) -> (forall s, E' s -> E s) ->
  hoare P m Q E.
Proof.
  intros Hm HP HQ HE s Hs. specialize (Hm s (HP s Hs)).
  destruct (m s) as [[a|] s']; auto.
Qed.

End HoareRules.

Section HoarePrimitives.
Import composite_builder builder_spec.

Lemma hoare_raise_if (b : bool) (P : State -> Prop) (Q : unit -> State -> Prop)
    (E : State -> Prop) :
  (b = true -> forall s, P s -> E s) ->
  (b = false -> forall s, P s -> Q tt s) ->
  hoare P (raise_if b) Q E.
Proof.
  intros Ht Hf. destruct b; [apply hoare_raise | apply hoare_ret]; auto.
Qed.

Lemma hoare_get_self (P : State -> Prop) (E : State -> Prop) :
  hoare P get_self (fun self s => P s /\ self = fst s) E.
Proof. intros s Hs. cbn. auto. Qed.


End HoarePrimitives.

Create HintDb quiet.

Section QuietRules.
Import composite_builder builder_spec.

Lemma same_queues_refl (a : CompositeVideoBuilder) : same_queues a a.
Proof. unfold same_queues. intuition. Qed.

Lemma same_queues_trans (a b c : CompositeVideoBuilder) :
  same_queues a b -> same_queues b c -> same_queues a c.
Proof. unfold same_queues. intuition congruence. Qed.

Lemma quiet_ret {A : Type} (a : A) : quiet (ret a).
Proof. intros s. cbn. split; [apply same_queues_refl | reflexivity]. Qed.

Lemma quiet_raise {A : Type} : quiet (@raise A).
Proof. intros s. cbn. split; [apply same_queues_refl | reflexivity]. Qed.

Lemma quiet_bind {A B : Type} (m : M A) (k : A -> M B) :
  quiet m -> (forall a, quiet (k a)) -> quiet (bind m k).
Proof.
  intros Hm Hk s. unfold bind. specialize (Hm s).
  destruct (m s) as [[a|] s']; cbn in Hm |- *; [|exact Hm].
  specialize (Hk a s'). destruct Hm as [Hq He], Hk as [Hq' He'].
  split; [eapply same_queues_trans; eassumption | congruence].
Qed.

Lemma quiet_try_except {A : Type} (body handler : M A) :
  quiet body -> quiet handler -> quiet (try_except body handler).
Proof.
  intros Hb Hh s. unfold try_except. specialize (Hb s).
  destruct (body s) as [[a|] s']; cbn in Hb |- *; [exact Hb|].
  specialize (Hh s'). destruct Hb as [Hq He], Hh as [Hq' He'].
  split; [eapply same_queues_trans; eassumption | congruence].
Qed.

Lemma quiet_raise_if (b : bool) : quiet (raise_if b).
Proof. destruct b; [apply quiet_raise | apply quiet_ret]. Qed.

Lemma quiet_get_self : quiet get_self.
Proof. intros s. cbn. split; [apply same_queues_refl | reflexivity]. Qed.

Lemma quiet_open_file : quiet open_file.
Proof. intros s. cbn. split; [apply same_queues_refl | reflexivity]. Qed.

Lemma quiet_close (clip : Clip) : quiet (close clip).
Proof. intros s. cbn. split; [apply same_queues_refl | reflexivity]. Qed.

Lemma quiet_loaded_clips_append (clip : Clip) : quiet (loaded_clips_append clip).
Proof. intros s. cbn. split; [|reflexivity]. unfold same_queues. cbn. intuition. Qed.

Lemma quiet_set_base_clip (clip : Clip) : quiet (set_base_clip clip).
Proof. intros s. cbn. split; [|reflexivity]. unfold same_queues. cbn. intuition. Qed.


End QuietRules.

#[export] Hint Resolve quiet_ret quiet_raise quiet_raise_if quiet_get_self quiet_open_file
  quiet_close quiet_loaded_clips_append quiet_set_base_clip : quiet.

(** Rule-directed proof that a computation is quiet. *)
Ltac quiet_steps :=
  repeat first
    [ apply quiet_bind; [|intros ?]
    | apply quiet_try_except
    | solve [auto with quiet]
    | match goal with
      | |- builder_spec.quiet (match ?x with _ => _ end) => destruct x
      | |- builder_spec.quiet (if ?b then _ else _) => destruct b
      | |- builder_spec.quiet (let _ := _ in _) => cbv zeta
      end ].

Section QuietSteps.
Import composite_builder builder_spec.

Lemma quiet_apply_silence_cuts (env : Env) (clip : Clip) :
  quiet (_apply_silence_cuts env clip).
Proof. unfold _apply_silence_cuts. quiet_steps. Qed.

Lemma quiet_apply_zoom_effect (env : Env) (clip : Clip) :
  quiet (_apply_zoom_effect env clip).
Proof. unfold _apply_zoom_effect. quiet_steps. Qed.

Lemma quiet_load_overlay (env : Env) (i : nat) (overlay : MediaOverlay) :
  quiet (load_overlay env i overlay).
Proof. unfold load_overlay. quiet_steps. Qed.

Lemma quiet_load_overlays (env : Env) (overlays : list MediaOverlay) :
  forall i overlay_clips, quiet (load_overlays env i overlays overlay_clips).
Proof.
  induction overlays as [|overlay rest IH]; intros i acc; cbn [load_overlays].
  - apply quiet_ret.
  - apply quiet_bind; [|intros ?; apply IH].
    apply quiet_try_except; [|apply quiet_ret].
    apply quiet_bind; [apply quiet_load_overlay|]. intros ?. quiet_steps.
Qed.

Lemma quiet_apply_media_overlays (env : Env) (clip : Clip) :
  quiet (_apply_media_overlays env clip).
Proof.
  unfold _apply_media_overlays.
  apply quiet_bind; [apply quiet_get_self|]. intros self.
  destruct (media_overlays self); [apply quiet_ret|].
  apply quiet_bind; [apply quiet_load_overlays|]. intros ?. quiet_steps.
Qed.

Lemma quiet_call_concatenate_videoclips (clips : list Clip) (method : string) :
  quiet (call_concatenate_videoclips clips method).
Proof. unfold call_concatenate_videoclips. quiet_steps. Qed.

Lemma quiet_fit_music (env : Env) (music clip : Clip) : quiet (fit_music env music clip).
Proof.
  unfold fit_music. destruct (Qlt_bool _ _); [|apply quiet_ret].
  apply quiet_bind; [apply quiet_raise_if|]. intros _. cbv zeta.
  apply quiet_bind; [apply quiet_call_concatenate_videoclips|]. intros ?.
  apply quiet_ret.
Qed.

Lemma quiet_apply_background_music (env : Env) (clip : Clip) :
  quiet (_apply_background_music env clip).
Proof.
  unfold _apply_background_music.
  apply quiet_bind; [apply quiet_get_self|]. intros self.
  destruct (background_music self); [|apply quiet_ret].
  apply quiet_bind; [apply quiet_raise_if|]. intros _.
  destruct (negb (music_exists env)); [apply quiet_ret|].
  apply quiet_try_except; [|apply quiet_ret].
  apply quiet_bind; [apply quiet_raise_if|]. intros _.
  apply quiet_bind; [apply quiet_open_file|]. intros handle. cbv zeta.
  apply quiet_bind; [apply quiet_loaded_clips_append|]. intros _.
  apply quiet_bind; [apply quiet_fit_music|]. intros music.
  apply quiet_bind; [apply quiet_raise_if|]. intros _. apply quiet_ret.
Qed.

Lemma quiet_close_all (clips : list Clip) : quiet (close_all clips).
Proof.
  induction clips as [|clip rest IH]; cbn [close_all]; [apply quiet_ret|].
  apply quiet_bind; [|intros _; exact IH].
  apply quiet_try_except; [apply quiet_close | apply quiet_ret].
Qed.

Lemma quiet_cleanup : quiet _cleanup.
Proof.
  unfold _cleanup.
  apply quiet_bind; [apply quiet_get_self|]. intros self.
  apply quiet_bind; [apply quiet_close_all|]. intros _.
  intros s. cbn. split; [|reflexivity]. unfold same_queues. cbn. intuition.
Qed.

End QuietSteps.

Section StageOrder.
Import composite_builder builder_spec.

Variable env : Env.
Variable self0 : CompositeVideoBuilder.









(** Music shorter than the clip is never fitted: the copies are audio
    clips, and [concatenate_videoclips] raises on them. *)
Lemma fit_music_short_raises (handle : nat) (path : string) (clip : Clip) (s : State) :
  Qlt_bool (clip_duration env (AudioFileClip handle path)) (clip_duration env clip) = true ->
  fit_music env (AudioFileClip handle path) clip s = (Raised, s).
Proof.
  intros Hlt. unfold fit_music. rewrite Hlt. unfold bind.
  destruct (Qeq_bool _ 0); cbn [raise_if raise ret]; [reflexivity|].
  cbv zeta. destruct (Z.to_nat _) as [|n]; cbn; reflexivity.
Qed.

Lemma fit_music_long_returns (music clip : Clip) (s : State) :
  Qlt_bool (clip_duration env music) (clip_duration env clip) = false ->
  fit_music env music clip s = (Return (subclip music 0 (clip_duration env clip)), s).
Proof. intros Hlt. unfold fit_music. rewrite Hlt. reflexivity. Qed.

Lemma background_music_output :
  returns_output self0 env BackgroundMusic (_apply_background_music env).
Proof.
  intros clip s Hq. unfold step_output.
  assert (Hb : background_music (fst s) = background_music self0) by (symmetry; apply Hq).
  assert (Hm : music_volume (fst s) = music_volume self0) by (symmetry; apply Hq).
  assert (Hv : speech_volume (fst s) = speech_volume self0) by (symmetry; apply Hq).
  unfold _apply_background_music, bind at 1, get_self. cbn [fst snd].
  rewrite Hb. destruct (background_music self0) as [music_path|]; [|reflexivity].
  unfold bind at 1.
  destruct (step_raises env BackgroundMusic); cbn [raise_if raise ret]; [exact I|].
  unfold music_is_mixed.
  destruct (music_exists env); cbn [negb andb];
    [|exists 0%nat; reflexivity].
  unfold try_except, bind at 1.
  destruct (music_file_raises env); cbn [raise_if raise ret negb andb];
    [exists 0%nat; reflexivity|].
  unfold bind at 1. cbn [open_file fst snd next_handle].
  unfold bind at 1. cbn [loaded_clips_append fst snd].
  unfold bind at 1.
  destruct (Qlt_bool (clip_duration env (AudioFileClip (next_handle (snd s)) music_path))
                     (clip_duration env clip)) eqn:Hlt.
  - rewrite (fit_music_short_raises _ _ _ _ Hlt). cbn.
    exists (next_handle (snd s)). rewrite Hlt. reflexivity.
  - rewrite (fit_music_long_returns _ _ _ Hlt).
    unfold bind.
    destruct (music_mix_raises env); cbn [raise_if raise ret negb];
      exists (next_handle (snd s)); rewrite Hlt; cbn [negb andb]; [reflexivity|].
    unfold mixed_audio. rewrite Hm, Hv. reflexivity.
Qed.



End StageOrder.

Section RenderChain.
Import composite_builder builder_spec timeline_spec.

Lemma hoare_pure {A : Type} (phi : Prop) (P : State -> Prop) (m : M A)
    (Q : A -> State -> Prop) (E : State -> Prop) :
  (phi -> hoare P m Q E) -> hoare (fun s => phi /\ P s) m Q E.
Proof. intros H s [Hphi Hs]. apply (H Hphi s Hs). Qed.







End RenderChain.

(** ** Cleanup: what [render] does close *)

Section InertRules.
Import composite_builder builder_spec.

Lemma inert_ret {A : Type} (a : A) : inert (ret a).
Proof. intros s. cbn. auto. Qed.

Lemma inert_raise {A : Type} : inert (@raise A).
Proof. intros s. cbn. auto. Qed.

Lemma inert_raise_if (b : bool) : inert (raise_if b).
Proof. destruct b; [apply inert_raise | apply inert_ret]. Qed.

Lemma inert_get_self : inert get_self.
Proof. intros s. cbn. auto. Qed.

Lemma inert_record_event (e : Event) : inert (record_event e).
Proof. intros s. cbn. auto. Qed.

Lemma inert_set_base_clip (clip : Clip) : inert (set_base_clip clip).
Proof. intros s. cbn. auto. Qed.

Lemma inert_bind {A B : Type} (m : M A) (k : A -> M B) :
  inert m -> (forall a, inert (k a)) -> inert (bind m k).
Proof.
  intros Hm Hk s. unfold bind. specialize (Hm s).
  destruct (m s) as [[a|] s']; cbn in Hm |- *; [|exact Hm].
  specialize (Hk a s'). destruct Hm as [Ho Hl], Hk as [Ho' Hl']. split; congruence.
Qed.

Lemma inert_try_except {A : Type} (body handler : M A) :
  inert body -> inert handler -> inert (try_except body handler).
Proof.
  intros Hb Hh s. unfold try_except. specialize (Hb s).
  destruct (body s) as [[a|] s']; cbn in Hb |- *; [exact Hb|].
  specialize (Hh s'). destruct Hb as [Ho Hl], Hh as [Ho' Hl']. split; congruence.
Qed.

(** An inert computation keeps the registration of the open handles. *)
Lemma inert_keeps_registered {A : Type} (m : M A) : inert m -> keeps_registered m.
Proof.
  intros Hm s Hreg. specialize (Hm s).
  assert (Hs' : registered (snd (m s))).
  { destruct Hm as [Ho Hl]. intros handle Hin. rewrite Ho in Hin.
    rewrite Hl. apply Hreg. exact Hin. }
  destruct (m s) as [[a|] s']; exact Hs'.
Qed.

Lemma inert_keeps_registered_but {A : Type} (m : M A) (fresh : nat) :
  inert m ->
  hoare (registered_but fresh) m (fun _ => registered_but fresh) (registered_but fresh).
Proof.
  intros Hm s Hreg. specialize (Hm s).
  assert (Hs' : registered_but fresh (snd (m s))).
  { destruct Hm as [Ho Hl]. intros handle Hin. rewrite Ho in Hin.
    rewrite Hl. apply Hreg. exact Hin. }
  destruct (m s) as [[a|] s']; exact Hs'.
Qed.

Lemma keeps_registered_bind {A B : Type} (m : M A) (k : A -> M B) :
  keeps_registered m -> (forall a, keeps_registered (k a)) -> keeps_registered (bind m k).
Proof. intros Hm Hk. apply (hoare_bind _ _ _ (fun _ => registered)); assumption. Qed.

Lemma keeps_registered_try_except {A : Type} (body handler : M A) :
  keeps_registered body -> keeps_registered handler ->
  keeps_registered (try_except body handler).
Proof. intros Hb Hh. apply (hoare_try_except _ _ _ _ registered); assumption. Qed.

(** Opening a file leaves one handle to register. *)
Lemma open_file_registered_but :
  hoare registered open_file (fun handle => registered_but handle) registered.
Proof.
  intros s Hreg. cbn. intros handle [Heq|Hin]; [left; auto | right; apply Hreg; exact Hin].
Qed.

(** Registering a clip that holds the fresh handle settles it. *)
Lemma loaded_clips_append_registers (clip : Clip) (fresh : nat) :
  reader clip = Some fresh ->
  hoare (registered_but fresh) (loaded_clips_append clip) (fun _ => registered) registered.
Proof.
  intros Hr s Hreg. cbn. intros handle Hin. cbn in Hin |- *.
  destruct (Hreg handle Hin) as [->|(c & Hc & Hrc)].
  - exists clip. split; [apply in_or_app; right; simpl; auto | exact Hr].
  - exists c. split; [apply in_or_app; left; exact Hc | exact Hrc].
Qed.

End InertRules.

Create HintDb inert.

#[export] Hint Resolve inert_ret inert_raise inert_raise_if inert_get_self
  inert_record_event inert_set_base_clip : inert.

Ltac inert_steps :=
  repeat first
    [ apply inert_bind; [|intros ?]
    | apply inert_try_except
    | solve [auto with inert]
    | match goal with
      | |- builder_spec.inert (match ?x with _ => _ end) => destruct x
      | |- builder_spec.inert (if ?b then _ else _) => destruct b
      | |- builder_spec.inert (let _ := _ in _) => cbv zeta
      end ].

Section CleanupFacts.
Import composite_builder builder_spec.

Lemma inert_apply_silence_cuts (env : Env) (clip : Clip) :
  inert (_apply_silence_cuts env clip).
Proof. unfold _apply_silence_cuts. inert_steps. Qed.

Lemma inert_apply_zoom_effect (env : Env) (clip : Clip) :
  inert (_apply_zoom_effect env clip).
Proof. unfold _apply_zoom_effect. inert_steps. Qed.

Lemma inert_call_concatenate_videoclips (clips : list Clip) (method : string) :
  inert (call_concatenate_videoclips clips method).
Proof. unfold call_concatenate_videoclips. inert_steps. Qed.

Lemma inert_fit_music (env : Env) (music clip : Clip) : inert (fit_music env music clip).
Proof.
  unfold fit_music. destruct (Qlt_bool _ _); [|apply inert_ret].
  apply inert_bind; [apply inert_raise_if|]. intros _. cbv zeta.
  apply inert_bind; [apply inert_call_concatenate_videoclips|]. intros ?.
  apply inert_ret.
Qed.

(** Loading an overlay, when no method raises on the opened clip: either
    nothing was opened, or the returned clip holds the one fresh handle. *)
Lemma load_overlay_fresh (env : Env) (i : nat) (overlay : MediaOverlay) :
  overlay_fault env i <> MethodRaises ->
  hoare registered (load_overlay env i overlay)
        (fun clip s => exists fresh, reader clip = Some fresh /\ registered_but fresh s)
        registered.
Proof.
  intros Hfault s Hreg. unfold load_overlay.
  destruct (overlay_fault env i); [cbn; exact Hreg | contradiction |].
  unfold bind. cbn -[String.eqb].
  exists (next_handle (snd s)). split.
  - destruct (String.eqb (transition overlay) "fade"), (size overlay),
      (String.eqb (media_type overlay) "image"); reflexivity.
  - apply (open_file_registered_but s Hreg).
Qed.

Lemma load_overlays_keeps_registered (env : Env) (overlays : list MediaOverlay) :
  (forall i, overlay_fault env i <> MethodRaises) ->
  forall i overlay_clips, keeps_registered (load_overlays env i overlays overlay_clips).
Proof.
  intros Hfault. induction overlays as [|overlay rest IH]; intros i acc; cbn [load_overlays].
  - apply inert_keeps_registered, inert_ret.
  - apply keeps_registered_bind; [|intros ?; apply IH].
    apply keeps_registered_try_except; [|apply inert_keeps_registered, inert_ret].
    apply (hoare_bind _ _ _
             (fun clip s => exists fresh, reader clip = Some fresh /\ registered_but fresh s)).
    { apply load_overlay_fresh, Hfault. }
    intros media_clip s (fresh & Hr & Hreg). unfold bind.
    pose proof (loaded_clips_append_registers media_clip fresh Hr s Hreg) as Happ.
    destruct (loaded_clips_append media_clip s) as [[[]|] s1]; cbn; exact Happ.
Qed.

Lemma apply_media_overlays_keeps_registered (env : Env) (clip : Clip) :
  (forall i, overlay_fault env i <> MethodRaises) ->
  keeps_registered (_apply_media_overlays env clip).
Proof.
  intros Hfault. unfold _apply_media_overlays.
  apply keeps_registered_bind; [apply inert_keeps_registered, inert_get_self|].
  intros self. destruct (media_overlays self); [apply inert_keeps_registered, inert_ret|].
  apply keeps_registered_bind; [apply load_overlays_keeps_registered, Hfault|].
  intros overlay_clips. apply inert_keeps_registered. inert_steps.
Qed.

Lemma apply_background_music_keeps_registered (env : Env) (clip : Clip) :
  keeps_registered (_apply_background_music env clip).
Proof.
  unfold _apply_background_music.
  apply keeps_registered_bind; [apply inert_keeps_registered, inert_get_self|].
  intros self. destruct (background_music self) as [music_path|];
    [|apply inert_keeps_registered, inert_ret].
  apply keeps_registered_bind; [apply inert_keeps_registered, inert_raise_if|].
  intros _. destruct (negb (music_exists env)); [apply inert_keeps_registered, inert_ret|].
  apply keeps_registered_try_except; [|apply inert_keeps_registered, inert_ret].
  apply keeps_registered_bind; [apply inert_keeps_registered, inert_raise_if|].
  intros _.
  apply (hoare_bind _ _ _ (fun handle => registered_but handle));
    [apply open_file_registered_but|].
  intros handle. cbv zeta.
  apply (hoare_bind _ _ _ (fun _ => registered));
    [apply loaded_clips_append_registers; reflexivity|].
  intros _. apply inert_keeps_registered.
  apply inert_bind; [apply inert_fit_music|]. intros music. inert_steps.
Qed.

Lemma run_step_keeps_registered (step : RenderStep) (queued : bool)
    (apply : Clip -> M Clip) (clip : Clip) :
  keeps_registered (apply clip) -> keeps_registered (run_step step queued apply clip).
Proof.
  intros Happly. unfold run_step.
  destruct queued; [|apply inert_keeps_registered, inert_ret].
  apply keeps_registered_bind; [exact Happly|].
  intros output. apply inert_keeps_registered. inert_steps.
Qed.

Lemma render_body_keeps_registered (env : Env) (output_path preset : string) :
  (forall i, overlay_fault env i <> MethodRaises) ->
  keeps_registered (render_body env output_path preset).
Proof.
  intros Hfault. unfold render_body.
  apply keeps_registered_bind; [apply inert_keeps_registered, inert_raise_if|].
  intros _.
  apply (hoare_bind _ _ _ (fun handle => registered_but handle));
    [apply open_file_registered_but|].
  intros handle.
  apply (hoare_bind _ _ _ (fun _ => registered_but handle)).
  { intros s Hs. cbn. exact Hs. }
  intros self. cbv zeta.
  apply (hoare_bind _ _ _ (fun _ => registered_but handle)).
  { intros s Hs. cbn. exact Hs. }
  intros _.
  apply (hoare_bind _ _ _ (fun _ => registered));
    [apply loaded_clips_append_registers; reflexivity|].
  intros _.
  apply keeps_registered_bind;
    [apply run_step_keeps_registered, inert_keeps_registered, inert_apply_silence_cuts|].
  intros c1.
  apply keeps_registered_bind;
    [apply run_step_keeps_registered, inert_keeps_registered, inert_apply_zoom_effect|].
  intros c2.
  apply keeps_registered_bind;
    [apply run_step_keeps_registered, apply_media_overlays_keeps_registered, Hfault|].
  intros c3.
  apply keeps_registered_bind;
    [apply run_step_keeps_registered, apply_background_music_keeps_registered|].
  intros c4.
  apply keeps_registered_bind;
    [apply run_step_keeps_registered, inert_keeps_registered; inert_steps|].
  intros c5.
  apply keeps_registered_bind;
    [apply run_step_keeps_registered, inert_keeps_registered; inert_steps|].
  intros c6. apply inert_keeps_registered. inert_steps.
Qed.

(** [close_all] closes the handle of every clip it is given and touches
    nothing else. *)
Lemma close_all_closes (clips : list Clip) : forall s,
  match close_all clips s with
  | (Return _, s') =>
      _loaded_clips (fst s') = _loaded_clips (fst s)
      /\ forall handle, In handle (open_handles (snd s')) ->
         In handle (open_handles (snd s))
         /\ forall clip, In clip clips -> reader clip <> Some handle
  | (Raised, _) => False
  end.
Proof.
  induction clips as [|clip rest IH]; intros s; cbn [close_all].
  - cbn. split; [reflexivity|]. intros handle Hin. split; [exact Hin|]. intros c [].
  - unfold bind, try_except. cbn [close].
    match goal with
    | |- match close_all rest ?st with _ => _ end =>
        specialize (IH st); destruct (close_all rest st) as [[[]|] s'];
        [|exact IH]
    end.
    cbn [fst snd open_handles] in IH. destruct IH as [Hl Hopen].
    split; [exact Hl|]. intros handle Hin.
    destruct (Hopen handle Hin) as [Hin' Hrest].
    destruct (reader clip) as [h0|] eqn:Hr.
    + apply in_remove in Hin'. destruct Hin' as [Hin0 Hne].
      split; [exact Hin0|]. intros c [<-|Hc]; [|apply Hrest; exact Hc].
      rewrite Hr. intros Heq. inversion Heq. congruence.
    + split; [exact Hin'|]. intros c [<-|Hc]; [|apply Hrest; exact Hc].
      rewrite Hr. discriminate.
Qed.

Lemma cleanup_closes_registered :
  hoare registered _cleanup (fun _ s => open_handles (snd s) = []) (fun _ => False).
Proof.
  intros s Hreg. unfold _cleanup, bind at 1, get_self. unfold bind.
  pose proof (close_all_closes (_loaded_clips (fst s)) s) as Hclose.
  destruct (close_all (_loaded_clips (fst s)) s) as [[[]|] s1]; [|exact Hclose].
  destruct Hclose as [Hl Hopen]. cbn.
  destruct (open_handles (snd s1)) as [|handle rest] eqn:Ho; [reflexivity|].
  exfalso. destruct (Hopen handle (or_introl eq_refl)) as [Hin Hnone].
  destruct (Hreg handle Hin) as (clip & Hclip & Hr).
  apply (Hnone clip Hclip Hr).
Qed.

(** Every handle [render] opens without a method raising on an overlay
    clip is closed when [render] returns or raises. *)
Theorem render_closes_registered_handles (env : Env) (output_path preset : string)
    (s : State) :
  (forall i, overlay_fault env i <> MethodRaises) ->
  registered s ->
  open_handles (snd (snd (render env output_path preset s))) = [].
Proof.
  intros Hfault Hreg. unfold render, try_finally.
  pose proof (render_body_keeps_registered env output_path preset Hfault s Hreg) as Hbody.
  destruct (render_body env output_path preset s) as [r s1].
  assert (Hreg1 : registered s1) by (destruct r; exact Hbody).
  pose proof (cleanup_closes_registered s1 Hreg1) as Hclean.
  destruct (_cleanup s1) as [[[]|] s2]; [cbn; exact Hclean | contradiction].
Qed.

End CleanupFacts.

Section BuilderSetup.
Import composite_builder builder_spec.

(** A new builder with no media yet has nothing to register, and queueing
    an intro or an outro registers the clip it opens. *)
Lemma init_registered (input_video_path : string) :
  registered (init input_video_path, no_media).
Proof. intros handle []. Qed.

Lemma add_intro_keeps_registered (intro_clip_path : string) :
  keeps_registered (add_intro intro_clip_path).
Proof.
  intros s Hreg. unfold add_intro, bind. cbn. intros handle Hin. cbn in Hin |- *.
  destruct Hin as [<-|Hin].
  - eexists. split; [apply in_or_app; right; simpl; left; reflexivity | reflexivity].
  - destruct (Hreg handle Hin) as (c & Hc & Hr).
    exists c. split; [apply in_or_app; left; exact Hc | exact Hr].
Qed.

Lemma add_outro_keeps_registered (outro_clip_path : string) :
  keeps_registered (add_outro outro_clip_path).
Proof.
  intros s Hreg. unfold add_outro, bind. cbn. intros handle Hin. cbn in Hin |- *.
  destruct Hin as [<-|Hin].
  - eexists. split; [apply in_or_app; right; simpl; left; reflexivity | reflexivity].
  - destruct (Hreg handle Hin) as (c & Hc & Hr).
    exists c. split; [apply in_or_app; left; exact Hc | exact Hr].
Qed.

End BuilderSetup.

(** ** Termination: when [render] returns *)

Section ReturnRules.
Import composite_builder builder_spec.

Lemma never_raises_ret {A : Type} (a : A) : never_raises (ret a).
Proof. intros s _. cbn. exact I. Qed.

Lemma never_raises_bind {A B : Type} (m : M A) (k : A -> M B) :
  never_raises m -> (forall a, never_raises (k a)) -> never_raises (bind m k).
Proof. intros Hm Hk. apply (hoare_bind _ _ _ (fun _ _ => True)); assumption. Qed.

(** Whatever the body does, a handler that returns makes the whole
    [try] return. *)
Lemma never_raises_try_except {A : Type} (body handler : M A) :
  never_raises handler -> never_raises (try_except body handler).
Proof.
  intros Hh s _. unfold try_except.
  destruct (body s) as [[a|] s']; [exact I | apply (Hh s' I)].
Qed.


Lemma never_raises_raise_if_false : never_raises (raise_if false).
Proof. apply never_raises_ret. Qed.

Lemma never_raises_get_self : never_raises get_self.
Proof. intros s _. cbn. exact I. Qed.

Lemma never_raises_open_file : never_raises open_file.
Proof. intros s _. cbn. exact I. Qed.

Lemma never_raises_close (clip : Clip) : never_raises (close clip).
Proof. intros s _. cbn. exact I. Qed.

Lemma never_raises_record_event (e : Event) : never_raises (record_event e).
Proof. intros s _. cbn. exact I. Qed.

Lemma never_raises_loaded_clips_append (clip : Clip) :
  never_raises (loaded_clips_append clip).
Proof. intros s _. cbn. exact I. Qed.

Lemma never_raises_set_base_clip (clip : Clip) : never_raises (set_base_clip clip).
Proof. intros s _. cbn. exact I. Qed.

End ReturnRules.

Create HintDb returns.

#[export] Hint Resolve never_raises_ret never_raises_raise_if_false
  never_raises_get_self never_raises_open_file never_raises_close
  never_raises_record_event never_raises_loaded_clips_append
  never_raises_set_base_clip : returns.


Section RenderReturns.
Import composite_builder builder_spec.

Variable env : Env.
Hypothesis base_clip_loads : base_clip_raises env = false.
Hypothesis no_step_raises : forall step, step_raises env step = false.







Lemma close_all_returns (clips : list Clip) : never_raises (close_all clips).
Proof.
  induction clips as [|clip rest IH]; cbn [close_all]; [apply never_raises_ret|].
  apply never_raises_bind; [|intros _; exact IH].
  apply never_raises_try_except, never_raises_ret.
Qed.

Lemma cleanup_returns : never_raises _cleanup.
Proof.
  unfold _cleanup.
  apply never_raises_bind; [apply never_raises_get_self|]. intros self.
  apply never_raises_bind; [apply close_all_returns|]. intros _.
  intros s _. cbn. exact I.
Qed.



End RenderReturns.

Section BuilderClaims.
Import composite_builder builder_spec timeline_spec.




(** C1 (evaluation at the failing input): one video overlay is queued and
    a method called on its freshly opened clip raises.  The overlay loop
    catches the exception before the clip was registered for cleanup;
    [render] returns, the base clip (handle 0) is closed and the overlay's
    file (handle 1) is still open. *)
Theorem C1_overlay_handle_leaks :
  let self := add_media_overlays [example_overlay] (init "in.mp4") in
  let run := render (first_overlay_method_raises 10) "out.mp4" "medium" (self, no_media) in
  fst run = Return "out.mp4"%string
  /\ open_handles (snd (snd run)) = [1%nat]
  /\ _loaded_clips (fst (snd run)) = [].
Proof. cbv zeta. repeat split; vm_compute; reflexivity. Qed.

End BuilderClaims.

Section MusicClaims.
Import composite_builder builder_spec.

(** The music step applies no fade: what it returns has a fade-in or
    fade-out in its audio only if its input had one. *)
Lemma music_step_applies_no_fade (env : Env) (clip : Clip) (s : State) :
  mentions_audio_fade clip = false ->
  match fst (_apply_background_music env clip s) with
  | Return output => mentions_audio_fade output = false
  | Raised => True
  end.
Proof.
  intros Hclip.
  pose proof (background_music_output env (fst s) clip s (same_queues_refl (fst s))) as Hout.
  destruct (_apply_background_music env clip s) as [[output|] s']; [|exact I].
  cbn [fst]. unfold step_output in Hout.
  destruct (background_music (fst s)) as [music_path|]; [|rewrite Hout; exact Hclip].
  destruct Hout as [handle Hout]. cbv zeta in Hout.
  destruct (music_is_mixed env _ clip); rewrite Hout; [|exact Hclip].
  unfold mixed_audio. destruct (clip_has_audio env clip); cbn; rewrite Hclip; reflexivity.
Qed.

(** C8 (the failing inputs): a background-music file that is shorter than
    the clip.  The step makes [int(np.ceil(clip.duration / music.duration))]
    copies of the [AudioFileClip] and hands them to
    [concatenate_videoclips], which raises on clips without a size; the
    [except] of the step catches that and the step returns its input clip,
    with no music in it. *)
Theorem C8_short_music_is_not_mixed
    (env : Env) (self : CompositeVideoBuilder) (media : Media) (clip : Clip)
    (music_path : string) :
  background_music self = Some music_path ->
  step_raises env BackgroundMusic = false ->
  music_exists env = true ->
  clip_duration env (AudioFileClip (next_handle media) music_path)
    < clip_duration env clip ->
  fst (_apply_background_music env clip (self, media)) = Return clip.
Proof.
  intros Hbg Hstep Hex Hlt. apply Qlt_bool_iff in Hlt.
  unfold _apply_background_music, bind at 1, get_self. cbn [fst snd].
  rewrite Hbg. unfold bind at 1. rewrite Hstep. cbn [raise_if ret].
  rewrite Hex. cbn [negb]. unfold try_except, bind at 1.
  destruct (music_file_raises env); cbn [raise_if raise ret fst]; [reflexivity|].
  unfold bind at 1. cbn [open_file fst snd next_handle].
  unfold bind at 1. cbn [loaded_clips_append fst snd].
  unfold bind at 1.
  rewrite (fit_music_short_raises env _ _ _ _ Hlt). reflexivity.
Qed.

Lemma C8_short_music_is_not_mixed_witness :
  fst (_apply_background_music short_music (VideoFileClip 0 "in.mp4")
         (example_builder, mkMedia 1 [0%nat] []))
  = Return (VideoFileClip 0 "in.mp4").
Proof.
  apply (C8_short_music_is_not_mixed short_music example_builder (mkMedia 1 [0%nat] [])
           (VideoFileClip 0 "in.mp4") "music.mp3"%string); reflexivity.
Defined.

(** The same through [render]: with only a 4 s music file queued for a
    10 s video, the music step hands its input on, the video is written
    without music, and the music file is closed again. *)
Lemma render_writes_no_short_music :
  let run :=
    render short_music "out.mp4" "medium"
      (add_music "music.mp3" (3 # 10) 1 (init "in.mp4"), no_media) in
  let base := VideoFileClip 0 "in.mp4" in
  fst run = Return "out.mp4"%string
  /\ events (snd (snd run))
     = [Applied BackgroundMusic base base; write_videofile base "libx264" "aac" "medium"]
  /\ open_handles (snd (snd run)) = [].
Proof. cbv zeta. repeat split; vm_compute; reflexivity. Qed.

End MusicClaims.
(* ================================================================== *)
(** * Further theorems                                                 *)
(* ================================================================== *)

(** ** Timestamp adjustment and the duration after cuts *)

Section TimelineBounds.
Import composite_builder video_analysis timeline_spec binary64.

Lemma kept_before_app (t : Q) (l1 l2 : list SilenceCut) :
  kept_before t (l1 ++ l2) == kept_before t l1 + kept_before t l2.
Proof.
  induction l1 as [|c rest IH]; simpl; [lra|]. rewrite IH. lra.
Qed.

Lemma kept_before_total (t : Q) (cuts : list SilenceCut) :
  (forall c, In c cuts -> start c < end_ c) ->
  kept_before t cuts <= kept_total cuts.
Proof.
  induction cuts as [|c rest IH]; simpl; intros H; [lra|].
  assert (Hc : start c < end_ c) by (apply H; left; reflexivity).
  assert (Hr : kept_before t rest <= kept_total rest)
    by (apply IH; intros x Hx; apply H; right; exact Hx).
  revert Hr. qminmax; lra.
Qed.

Lemma kept_before_all (t : Q) (cuts : list SilenceCut) :
  (forall c, In c cuts -> start c < end_ c /\ end_ c <= t) ->
  kept_before t cuts == kept_total cuts.
Proof.
  induction cuts as [|c rest IH]; simpl; intros H; [lra|].
  assert (Hc : start c < end_ c /\ end_ c <= t) by (apply H; left; reflexivity).
  assert (Hr : kept_before t rest == kept_total rest)
    by (apply IH; intros x Hx; apply H; right; exact Hx).
  rewrite Hr. destruct Hc. qminmax; lra.
Qed.

Lemma kept_before_none (t : Q) (cuts : list SilenceCut) :
  (forall c, In c cuts -> t <= start c) -> kept_before t cuts == 0.
Proof.
  induction cuts as [|c rest IH]; simpl; intros H; [lra|].
  assert (Hc : t <= start c) by (apply H; left; reflexivity).
  assert (Hr : kept_before t rest == 0)
    by (apply IH; intros x Hx; apply H; right; exact Hx).
  rewrite Hr. qminmax; lra.
Qed.

Lemma ascending_from_nonempty (cuts : list SilenceCut) : forall lo c,
  ascending_from lo cuts -> In c cuts -> lo <= start c /\ start c < end_ c.
Proof.
  induction cuts as [|x rest IH]; simpl; intros lo c Hasc Hin; [contradiction|].
  destruct Hasc as (Hlo & Hse & Hrest). destruct Hin as [->|Hin]; [split; assumption|].
  destruct (IH (end_ x) c Hrest Hin). split; lra.
Qed.

Lemma ascending_from_split (pre : list SilenceCut) : forall lo c post,
  ascending_from lo (pre ++ c :: post) ->
  (forall x, In x pre -> start x < end_ x /\ end_ x <= start c) /\
  start c < end_ c /\ ascending_from (end_ c) post.
Proof.
  induction pre as [|x rest IH]; simpl; intros lo c post Hasc.
  - destruct Hasc as (_ & Hse & Hrest). split; [intros ? []|split; assumption].
  - destruct Hasc as (Hlo & Hse & Hrest).
    destruct (IH _ _ _ Hrest) as (Hpre & Hc & Hpost).
    split; [|split; assumption].
    intros y [<-|Hy]; [|apply Hpre; exact Hy].
    split; [exact Hse|].
    apply (ascending_from_nonempty _ _ c) in Hrest; [tauto|].
    apply in_or_app. right. left. reflexivity.
Qed.

(** The sum of [calculate_total_duration_after_cuts] is not rounded on
    exact times. *)
Lemma total_loop_exact (k : Z) (cuts : list SilenceCut) :
  binary64_grid k ->
  forall lo total,
  exact_cuts k cuts -> ascending_from lo cuts ->
  on_grid k total -> 0 <= total -> total <= lo ->
  fold_left (fun total cut => fadd total (fsub (end_ cut) (start cut))) cuts total
  == total + kept_total cuts.
Proof.
  intros Hk. induction cuts as [|c rest IH]; intros lo total Hex Hasc Hg H0 Hlo;
    cbn [fold_left kept_total]; [lra|].
  inversion Hex as [|? ? [Hs He] Hrest]; subst.
  destruct Hasc as (Hlos & Hse & Hasc).
  pose proof (exact_time_on_grid k _ Hs) as Hgs.
  pose proof (exact_time_on_grid k _ He) as Hge.
  assert (Hd : fsub (end_ c) (start c) == end_ c - start c).
  { apply (fsub_exact k _ _ (end_ c)); auto. apply Qabs_le_nonneg; lra. }
  assert (Ha : fadd total (fsub (end_ c) (start c)) == total + (end_ c - start c)).
  { rewrite <- Hd. apply (fadd_exact k _ _ (end_ c)); auto.
    - apply (on_grid_eq k (end_ c - start c)); [symmetry; exact Hd|].
      apply on_grid_minus; assumption.
    - rewrite Hd. apply Qabs_le_nonneg; lra. }
  rewrite (IH (end_ c) _ Hrest Hasc).
  - rewrite Ha. ring.
  - apply (on_grid_eq k (total + (end_ c - start c))); [symmetry; exact Ha|].
    apply on_grid_plus; [exact Hg|]. apply on_grid_minus; assumption.
  - rewrite Ha. lra.
  - rewrite Ha. lra.
Qed.

Lemma calculate_total_duration_exact (k : Z) (cuts : list SilenceCut) :
  binary64_grid k -> exact_cuts k cuts -> ascending_cuts cuts -> on_timeline cuts ->
  calculate_total_duration_after_cuts cuts == kept_total cuts.
Proof.
  intros Hk Hex Hasc H0. unfold calculate_total_duration_after_cuts.
  rewrite (total_loop_exact k cuts Hk 0 0 Hex (ascending_cuts_from cuts Hasc H0)
             (on_grid_0 k)); lra.
Qed.

(** Off the exact times the two functions round apart: with the kept
    intervals (5.5, 9.75), (30.51, 30.72), (32.524, 35.68) the timestamp
    47.92, after all of them, is adjusted to 7.616, and the duration after
    cuts is 7.615999999999996. *)
Lemma adjusted_exceeds_total_after_rounding :
  let cuts := [mkSilenceCut (rnd (55 # 10)) (rnd (975 # 100));
               mkSilenceCut (rnd (3051 # 100)) (rnd (3072 # 100));
               mkSilenceCut (rnd (32524 # 1000)) (rnd (3568 # 100))] in
  adjust_timestamp (rnd (4792 # 100)) cuts == rnd (7616 # 1000)
  /\ calculate_total_duration_after_cuts cuts
     == rnd (7615999999999996 # 1000000000000000)
  /\ calculate_total_duration_after_cuts cuts < adjust_timestamp (rnd (4792 # 100)) cuts.
Proof. cbv zeta. repeat split; vm_compute; reflexivity. Qed.

(** X1: on ascending kept intervals that begin at or after 0, in times
    that binary64 adds and subtracts without rounding (whole multiples of
    one [2^-k] seconds, below [2^(53-k)] seconds), every adjusted timestamp
    lies between 0 and the duration [calculate_total_duration_after_cuts]
    reports, and a timestamp at or after the end of every kept interval is
    mapped to exactly that duration. *)
Theorem X1_adjusted_within_duration_after_cuts
    (k : Z) (original_timestamps : list Q) (silence_cuts : list SilenceCut) :
  binary64_grid k -> exact_cuts k silence_cuts ->
  Forall (exact_time k) original_timestamps ->
  ascending_cuts silence_cuts -> on_timeline silence_cuts ->
  Forall (fun adjusted_t =>
            0 <= adjusted_t <= calculate_total_duration_after_cuts silence_cuts)
         (adjust_timestamps_for_cuts original_timestamps silence_cuts) /\
  (forall t, exact_time k t -> (forall c, In c silence_cuts -> end_ c <= t) ->
     adjust_timestamp t silence_cuts
       == calculate_total_duration_after_cuts silence_cuts).
Proof.
  intros Hk Hex Hts Hasc H0.
  pose proof (ascending_cuts_from _ Hasc H0) as Hfrom.
  pose proof (calculate_total_duration_exact k _ Hk Hex Hasc H0) as Htot.
  split.
  - unfold adjust_timestamps_for_cuts. apply Forall_forall. intros a Ha.
    apply in_map_iff in Ha. destruct Ha as (t & <- & Hin).
    rewrite Forall_forall in Hts.
    rewrite Htot, (adjust_timestamp_kept k _ _ Hk Hasc H0 Hex (Hts t Hin)). split.
    + apply kept_before_nonneg.
    + apply kept_before_total. intros c Hc.
      apply (ascending_from_nonempty _ 0 c Hfrom Hc).
  - intros t Ht Hall. rewrite Htot, (adjust_timestamp_kept k _ _ Hk Hasc H0 Hex Ht).
    apply kept_before_all. intros c Hc. split; [|apply Hall; exact Hc].
    apply (ascending_from_nonempty _ 0 c Hfrom Hc).
Qed.

Lemma X1_adjusted_within_duration_after_cuts_witness :
  Forall (fun adjusted_t =>
            0 <= adjusted_t <= calculate_total_duration_after_cuts example_cuts)
         (adjust_timestamps_for_cuts [5; 15; 25; 100] example_cuts) /\
  adjust_timestamp 30 example_cuts
    == calculate_total_duration_after_cuts example_cuts.
Proof.
  assert (Hk : binary64_grid 0) by (unfold binary64_grid; lia).
  assert (Hasc : ascending_cuts example_cuts) by (simpl; repeat split; lra).
  assert (H0 : on_timeline example_cuts) by (simpl; lra).
  assert (Hts : Forall (exact_time 0) [5; 15; 25; 100]).
  { repeat constructor;
      [apply (whole_seconds_exact 5) | apply (whole_seconds_exact 15)
      | apply (whole_seconds_exact 25) | apply (whole_seconds_exact 100)]; reflexivity. }
  destruct (X1_adjusted_within_duration_after_cuts 0 [5; 15; 25; 100] example_cuts
              Hk example_cuts_exact Hts Hasc H0) as [Hall Hlast].
  split; [exact Hall|]. apply Hlast.
  - apply (whole_seconds_exact 30); reflexivity.
  - intros c [<-|[<-|[]]]; discriminate.
Defined.

(** X2: on ascending kept intervals that begin at or after 0, in times
    that binary64 adds and subtracts without rounding, the adjustment
    preserves the distance between two timestamps that lie in one kept
    interval. *)
Theorem X2_adjust_preserves_distance_inside_kept_interval
    (k : Z) (pre post : list SilenceCut) (c : SilenceCut) (t1 t2 : Q) :
  binary64_grid k -> exact_cuts k (pre ++ c :: post) ->
  exact_time k t1 -> exact_time k t2 ->
  ascending_cuts (pre ++ c :: post) -> on_timeline (pre ++ c :: post) ->
  start c <= t1 -> t1 <= t2 -> t2 <= end_ c ->
  adjust_timestamp t2 (pre ++ c :: post)
    - adjust_timestamp t1 (pre ++ c :: post) == t2 - t1.
Proof.
  intros Hk Hex He1 He2 Hasc H0 H1 H12 H2.
  pose proof (ascending_cuts_from _ Hasc H0) as Hlo.
  destruct (ascending_from_split _ _ _ _ Hlo) as (Hpre & Hc & Hpost).
  rewrite (adjust_timestamp_kept k _ _ Hk Hasc H0 Hex He1),
          (adjust_timestamp_kept k _ _ Hk Hasc H0 Hex He2), !kept_before_app. simpl.
  rewrite (kept_before_all t1 pre), (kept_before_all t2 pre);
    [|intros x Hx; destruct (Hpre x Hx); split; lra ..].
  rewrite (kept_before_zero post (end_ c) t1 Hpost), (kept_before_zero post (end_ c) t2 Hpost);
    [|lra ..].
  qminmax; lra.
Qed.

Lemma three_cuts_exact : exact_cuts 0 three_cuts.
Proof.
  repeat constructor;
    first [ apply (whole_seconds_exact 0) | apply (whole_seconds_exact 10)
          | apply (whole_seconds_exact 20) | apply (whole_seconds_exact 30)
          | apply (whole_seconds_exact 40) | apply (whole_seconds_exact 50) ];
    reflexivity.
Qed.

Lemma X2_adjust_preserves_distance_inside_kept_interval_witness :
  adjust_timestamp 27 three_cuts - adjust_timestamp 22 three_cuts == 27 - 22.
Proof.
  apply (X2_adjust_preserves_distance_inside_kept_interval 0
           [mkSilenceCut 0 10] [mkSilenceCut 40 50] (mkSilenceCut 20 30) 22 27).
  - unfold binary64_grid. lia.
  - exact three_cuts_exact.
  - apply (whole_seconds_exact 22); reflexivity.
  - apply (whole_seconds_exact 27); reflexivity.
  - simpl. repeat split; try reflexivity; discriminate.
  - simpl. discriminate.
  - discriminate.
  - discriminate.
  - discriminate.
Defined.

(** X3: on ascending kept intervals that begin at or after 0, in times
    that binary64 adds and subtracts without rounding, all timestamps of
    one removed gap, from the end of a kept interval up to the start of
    every later one, are adjusted to the same instant: the removed stretch
    collapses to a point. *)
Theorem X3_adjust_collapses_removed_gap
    (k : Z) (pre post : list SilenceCut) (c : SilenceCut) (t1 t2 : Q) :
  binary64_grid k -> exact_cuts k (pre ++ c :: post) ->
  exact_time k t1 -> exact_time k t2 ->
  ascending_cuts (pre ++ c :: post) -> on_timeline (pre ++ c :: post) ->
  end_ c <= t1 -> t1 <= t2 -> (forall d, In d post -> t2 <= start d) ->
  adjust_timestamp t2 (pre ++ c :: post)
    == adjust_timestamp t1 (pre ++ c :: post).
Proof.
  intros Hk Hex He1 He2 Hasc H0 H1 H12 H2.
  pose proof (ascending_cuts_from _ Hasc H0) as Hlo.
  destruct (ascending_from_split _ _ _ _ Hlo) as (Hpre & Hc & Hpost).
  rewrite (adjust_timestamp_kept k _ _ Hk Hasc H0 Hex He1),
          (adjust_timestamp_kept k _ _ Hk Hasc H0 Hex He2), !kept_before_app. simpl.
  rewrite (kept_before_all t1 pre), (kept_before_all t2 pre);
    [|intros x Hx; destruct (Hpre x Hx); split; lra ..].
  rewrite (kept_before_none t1 post), (kept_before_none t2 post);
    [|intros d Hd; specialize (H2 d Hd); lra ..].
  qminmax; lra.
Qed.

Lemma X3_adjust_collapses_removed_gap_witness :
  adjust_timestamp 18 ([] ++ mkSilenceCut 0 10 :: [mkSilenceCut 20 30])
    == adjust_timestamp 12 ([] ++ mkSilenceCut 0 10 :: [mkSilenceCut 20 30]).
Proof.
  apply (X3_adjust_collapses_removed_gap 0
           [] [mkSilenceCut 20 30] (mkSilenceCut 0 10) 12 18).
  - unfold binary64_grid. lia.
  - exact example_cuts_exact.
  - apply (whole_seconds_exact 12); reflexivity.
  - apply (whole_seconds_exact 18); reflexivity.
  - simpl. repeat split; try reflexivity; discriminate.
  - simpl. discriminate.
  - discriminate.
  - discriminate.
  - intros d [<-|[]]. discriminate.
Defined.

End TimelineBounds.

(** ** Zoom keyframes: interpolation and the crop box *)

Section ZoomBounds.
Import composite_builder zoom_spec zoom_frames.

Lemma progress_unit (t a b : Q) :
  a <= t -> t < b -> 0 <= (t - a) / (b - a) <= 1.
Proof.
  intros Ha Hb. split.
  - apply Qle_shift_div_l; lra.
  - apply Qle_shift_div_r; lra.
Qed.

Lemma lerp_between (p a b lo hi : Q) :
  0 <= p <= 1 -> lo <= a <= hi -> lo <= b <= hi -> lo <= a + p * (b - a) <= hi.
Proof.
  intros [Hp0 Hp1] [Ha0 Ha1] [Hb0 Hb1].
  assert (H1 : 0 <= (1 - p) * (a - lo)) by (apply Qmult_le_0_compat; lra).
  assert (H2 : 0 <= p * (b - lo)) by (apply Qmult_le_0_compat; lra).
  assert (H3 : 0 <= (1 - p) * (hi - a)) by (apply Qmult_le_0_compat; lra).
  assert (H4 : 0 <= p * (hi - b)) by (apply Qmult_le_0_compat; lra).
  split; nra.
Qed.

Lemma zoom_loop_within (zlo zhi xlo xhi ylo yhi t : Q) (kfs : list ZoomKeyframe) :
  forall prev,
  (forall k, In k kfs -> params_within zlo zhi xlo xhi ylo yhi (keyframe_params k)) ->
  match prev with
  | Some p => time p <= t /\ params_within zlo zhi xlo xhi ylo yhi (keyframe_params p)
  | None => kfs <> []
  end ->
  exists p, zoom_loop t prev kfs = Some p /\ params_within zlo zhi xlo xhi ylo yhi p.
Proof.
  induction kfs as [|k rest IH]; intros prev Hall Hprev; simpl.
  - destruct prev as [p|]; [|congruence].
    exists (keyframe_params p). split; [reflexivity|tauto].
  - assert (Hk : params_within zlo zhi xlo xhi ylo yhi (keyframe_params k))
      by (apply Hall; left; reflexivity).
    destruct (Qlt_bool t (time k)) eqn:E.
    + apply Qlt_bool_iff in E. destruct prev as [p|].
      * destruct Hprev as [Hpt Hp].
        destruct (Qeq_bool (time k - time p) 0) eqn:Ez.
        { apply Qeq_bool_iff in Ez. lra. }
        eexists. split; [reflexivity|].
        pose proof (progress_unit t (time p) (time k) Hpt E) as Hprog.
        unfold params_within, keyframe_params in *.
        destruct Hk as (Hkz & Hkx & Hky). destruct Hp as (Hpz & Hpx & Hpy).
        split; [|split]; apply lerp_between; assumption.
      * exists (keyframe_params k). split; [reflexivity|exact Hk].
    + apply Qlt_bool_false_iff in E. apply IH.
      * intros k' Hk'. apply Hall. right. exact Hk'.
      * split; assumption.
Qed.



Lemma keyframes_bounded (f : ZoomKeyframe -> Q) (kfs : list ZoomKeyframe) :
  exists lo hi, forall k, In k kfs -> lo <= f k <= hi.
Proof.
  induction kfs as [|k rest (lo & hi & IH)].
  - exists 0, 0. intros k [].
  - exists (Qmin lo (f k)), (Qmax hi (f k)). intros k' [<-|Hk'].
    + split; [apply Q.le_min_r | apply Q.le_max_r].
    + destruct (IH k' Hk') as [H1 H2]. split.
      * eapply Qle_trans; [apply Q.le_min_l | exact H1].
      * eapply Qle_trans; [exact H2 | apply Q.le_max_l].
Qed.

Lemma py_int_nonneg (x : Q) : 0 <= x -> video_processing.py_int x = Qfloor x.
Proof.
  intros H. unfold video_processing.py_int.
  apply Qle_bool_iff in H. rewrite H. reflexivity.
Qed.

Lemma crop_length_within (n : Z) (z : Q) :
  (0 <= n)%Z -> 1 <= z ->
  (0 <= video_processing.py_int (inject_Z n / z) <= n)%Z.
Proof.
  intros Hn Hz.
  assert (Hq : 0 <= inject_Z n) by (change 0 with (inject_Z 0); rewrite <- Zle_Qle; exact Hn).
  assert (H0 : 0 <= inject_Z n / z) by (apply Qle_shift_div_l; lra).
  assert (H1 : inject_Z n / z <= inject_Z n) by (apply Qle_shift_div_r; [lra | nra]).
  rewrite (py_int_nonneg _ H0). split.
  - change 0%Z with (Qfloor 0). apply Qfloor_resp_le. exact H0.
  - rewrite <- (Qfloor_Z n) at 2. apply Qfloor_resp_le. exact H1.
Qed.

Lemma crop_frame_inside (h w : Z) (zoom_factor center_x center_y : Q) :
  (0 <= h)%Z -> (0 <= w)%Z -> 1 <= zoom_factor ->
  inside_frame h w (crop_frame h w zoom_factor center_x center_y).
Proof.
  intros Hh Hw Hz. unfold crop_frame.
  destruct (negb (Qeq_bool zoom_factor 1)); [|exact I].
  destruct (Qeq_bool zoom_factor 0) eqn:E0.
  { apply Qeq_bool_iff in E0. lra. }
  pose proof (crop_length_within h zoom_factor Hh Hz) as Hnh.
  pose proof (crop_length_within w zoom_factor Hw Hz) as Hnw.
  cbv zeta. unfold inside_frame. lia.
Qed.

Lemma zoom_function_inside_frame
    (zoom_keyframes : list ZoomKeyframe) (h w : Z) (t : Q) :
  (0 <= h)%Z -> (0 <= w)%Z ->
  (forall k, In k zoom_keyframes -> 1 <= zoom_factor k) ->
  inside_frame h w (zoom_function zoom_keyframes h w t).
Proof.
  intros Hh Hw Hall. unfold zoom_function.
  destruct zoom_keyframes as [|k0 rest].
  - cbn. exact I.
  - destruct (keyframes_bounded zoom_factor (k0 :: rest)) as (zlo & zhi & Hz).
    destruct (keyframes_bounded center_x (k0 :: rest)) as (xlo & xhi & Hx).
    destruct (keyframes_bounded center_y (k0 :: rest)) as (ylo & yhi & Hy).
    destruct (zoom_loop_within 1 zhi xlo xhi ylo yhi t (k0 :: rest) None)
      as ([[z cx] cy] & Hr & Hw1 & _).
    + intros k Hk. unfold params_within, keyframe_params.
      specialize (Hz k Hk). specialize (Hx k Hk). specialize (Hy k Hk).
      specialize (Hall k Hk). tauto.
    + discriminate.
    + unfold zoom_at. rewrite Hr. apply crop_frame_inside; tauto.
Qed.





End ZoomBounds.

Section ZoomQueueOrder.
Import composite_builder zoom_spec.

Lemma insert_by_time_perm (k : ZoomKeyframe) (l : list ZoomKeyframe) :
  Permutation (k :: l) (insert_by_time k l).
Proof.
  induction l as [|k' rest IH]; simpl; [apply Permutation_refl|].
  destruct (Qle_bool (time k) (time k')); [apply Permutation_refl|].
  eapply Permutation_trans; [apply perm_swap|].
  apply perm_skip. exact IH.
Qed.

Lemma insert_by_time_head (k : ZoomKeyframe) (l : list ZoomKeyframe) :
  keyframes_sorted (k :: l) -> insert_by_time k l = k :: l.
Proof.
  destruct l as [|k' rest]; simpl; [reflexivity|].
  intros [Hle _]. apply Qle_bool_iff in Hle. rewrite Hle. reflexivity.
Qed.

Lemma add_zoom_keyframes_perm (keyframes : list ZoomKeyframe)
    (self : CompositeVideoBuilder) :
  Permutation keyframes (zoom_keyframes (add_zoom_keyframes keyframes self)).
Proof.
  cbn. induction keyframes as [|k l IH]; simpl; [apply perm_nil|].
  eapply Permutation_trans; [apply perm_skip; exact IH|].
  apply insert_by_time_perm.
Qed.

(** X7: [add_zoom_keyframes] replaces the queue by the given keyframes in
    ascending order of time: the queue is sorted, holds exactly the given
    keyframes (none lost, none repeated), and equals the given list when
    that list is already ascending, keyframes of equal time keeping their
    order. *)
Theorem X7_add_zoom_keyframes_sorts_stably
    (keyframes : list ZoomKeyframe) (self : CompositeVideoBuilder) :
  keyframes_sorted (zoom_keyframes (add_zoom_keyframes keyframes self)) /\
  Permutation keyframes (zoom_keyframes (add_zoom_keyframes keyframes self)) /\
  (keyframes_sorted keyframes ->
   zoom_keyframes (add_zoom_keyframes keyframes self) = keyframes).
Proof.
  split; [apply add_zoom_keyframes_sorted|].
  split; [apply add_zoom_keyframes_perm|]. cbn.
  induction keyframes as [|k l IH]; intros Hs; simpl; [reflexivity|].
  rewrite (IH (keyframes_sorted_tail _ _ Hs)).
  apply insert_by_time_head. exact Hs.
Qed.

Lemma X7_add_zoom_keyframes_sorts_stably_witness :
  zoom_keyframes (add_zoom_keyframes example_keyframes (init "in.mp4"))
    = example_keyframes.
Proof.
  apply (X7_add_zoom_keyframes_sorts_stably example_keyframes (init "in.mp4")).
  simpl. repeat split; discriminate.
Defined.

End ZoomQueueOrder.

(** ** The builder in use: files closed, one encode *)

Section BuilderUse.
Import composite_builder builder_spec builder_use.

Lemma assign_keeps_registered (f : CompositeVideoBuilder -> CompositeVideoBuilder) :
  (forall self, _loaded_clips (f self) = _loaded_clips self) ->
  keeps_registered (assign f).
Proof.
  intros Hf s Hreg. cbn. intros handle Hin. cbn in Hin |- *.
  rewrite Hf. apply Hreg. exact Hin.
Qed.

Lemma queue_call_keeps_registered (c : QueueCall) : keeps_registered (queue_call c).
Proof.
  destruct c; cbn [queue_call];
    first [ apply assign_keeps_registered; intros self; reflexivity
          | apply add_intro_keeps_registered
          | apply add_outro_keeps_registered ].
Qed.

Lemma queue_calls_keeps_registered (calls : list QueueCall) :
  keeps_registered (queue_calls calls).
Proof.
  induction calls as [|c rest IH]; cbn [queue_calls].
  - apply hoare_ret. auto.
  - apply keeps_registered_bind; [apply queue_call_keeps_registered|].
    intros _. exact IH.
Qed.

Lemma queue_calls_returns (calls : list QueueCall) (s : State) :
  fst (queue_calls calls s) <> Raised.
Proof.
  revert s. induction calls as [|c rest IH]; intros s; cbn [queue_calls].
  - cbn. discriminate.
  - unfold bind.
    assert (Hc : exists s1, queue_call c s = (Return tt, s1)).
    { destruct c; cbn; eexists; reflexivity. }
    destruct Hc as [s1 ->]. apply IH.
Qed.

Lemma render_clears_loaded_clips (env : Env) (output_path preset : string) (s : State) :
  _loaded_clips (fst (snd (render env output_path preset s))) = [].
Proof.
  unfold render, try_finally.
  destruct (render_body env output_path preset s) as [r s1].
  unfold _cleanup, bind, get_self. cbn [fst].
  pose proof (close_all_returns (_loaded_clips (fst s1)) s1 I) as Hc.
  destruct (close_all (_loaded_clips (fst s1)) s1) as [[[]|] s2]; [|contradiction].
  destruct r; reflexivity.
Qed.

(** X8: a builder made by the constructor and any chain of its queueing
    calls, then rendered: unless a method raises on a freshly opened
    overlay clip, every file the builder opened, in the queueing calls or in
    [render], is closed when [render] ends, whether it returns or raises,
    and the list of loaded clips is empty again. *)
Theorem X8_build_and_render_closes_every_file
    (env : Env) (input_video_path : string) (calls : list QueueCall)
    (output_path preset : string) :
  (forall i, overlay_fault env i <> MethodRaises) ->
  let s' := snd (build_and_render env input_video_path calls output_path preset) in
  open_handles (snd s') = [] /\ _loaded_clips (fst s') = [].
Proof.
  intros Hfault. cbv zeta. unfold build_and_render, bind.
  pose proof (queue_calls_keeps_registered calls (init input_video_path, mkMedia 0 [] [])
                (init_registered input_video_path)) as Hq.
  destruct (queue_calls calls (init input_video_path, mkMedia 0 [] [])) as [[[]|] s1] eqn:Hr.
  - split.
    + apply render_closes_registered_handles; assumption.
    + apply render_clears_loaded_clips.
  - pose proof (queue_calls_returns calls (init input_video_path, mkMedia 0 [] [])) as Hn.
    rewrite Hr in Hn. exfalso. apply Hn. reflexivity.
Qed.

Lemma X8_build_and_render_closes_every_file_witness :
  let s' := snd (build_and_render (calm 10) "in.mp4"
                   [call_add_intro "intro.mp4";
                    call_add_media_overlays [example_overlay];
                    call_add_music "music.mp3" (3 # 10) 1;
                    call_add_outro "outro.mp4"]
                   "out.mp4" "medium") in
  open_handles (snd s') = [] /\ _loaded_clips (fst s') = [].
Proof.
  apply (X8_build_and_render_closes_every_file (calm 10) "in.mp4"
           [call_add_intro "intro.mp4";
            call_add_media_overlays [example_overlay];
            call_add_music "music.mp3" (3 # 10) 1;
            call_add_outro "outro.mp4"]
           "out.mp4" "medium").
  intros i. cbn. discriminate.
Defined.

Lemma quiet_keeps_nothing_written {A : Type} (m : M A) (before : list Event) :
  quiet m ->
  hoare (nothing_written before) m (fun _ => nothing_written before)
        (nothing_written before).
Proof.
  intros Hq s Hs. destruct (Hq s) as [_ He].
  assert (H : nothing_written before (snd (m s))).
  { unfold nothing_written in *. rewrite He. exact Hs. }
  destruct (m s) as [[a|] s']; exact H.
Qed.

Lemma run_step_keeps_nothing_written (step : RenderStep) (queued : bool)
    (apply : Clip -> M Clip) (clip : Clip) (before : list Event) :
  quiet (apply clip) ->
  hoare (nothing_written before) (run_step step queued apply clip)
        (fun _ => nothing_written before) (nothing_written before).
Proof.
  intros Hq. unfold run_step. destruct queued; [|apply hoare_ret; auto].
  eapply hoare_bind; [apply quiet_keeps_nothing_written; exact Hq|].
  intros output. eapply hoare_bind with (R := fun _ => nothing_written before).
  - intros s (stages & Hall & He). cbn.
    exists (stages ++ [Applied step clip output]). split.
    + rewrite forallb_app, Hall. reflexivity.
    + rewrite He, app_assoc. reflexivity.
  - intros _. apply hoare_ret. auto.
Qed.

Lemma render_body_writes_at_most_once (env : Env) (output_path preset : string)
    (before : list Event) :
  hoare (nothing_written before) (render_body env output_path preset)
        (fun _ => written_once before preset)
        (fun s => nothing_written before s \/ written_once before preset s).
Proof.
  unfold render_body.
  pose (Inv := nothing_written before).
  assert (Hquiet : forall (A : Type) (m : M A), quiet m ->
            hoare Inv m (fun _ => Inv) (fun s => Inv s \/ written_once before preset s)).
  { intros A m Hm. eapply hoare_weaken; [apply (quiet_keeps_nothing_written m before Hm)|..];
      unfold Inv; auto. }
  assert (Hstep : forall step queued apply clip, quiet (apply clip) ->
            hoare Inv (run_step step queued apply clip) (fun _ => Inv)
                  (fun s => Inv s \/ written_once before preset s)).
  { intros step q apply clip Hm.
    eapply hoare_weaken; [apply (run_step_keeps_nothing_written step q apply clip before Hm)|..];
      unfold Inv; auto. }
  eapply hoare_bind; [apply Hquiet, quiet_raise_if|]. intros ?; cbv beta.
  eapply hoare_bind; [apply Hquiet, quiet_open_file|]. intros handle.
  eapply hoare_bind; [apply Hquiet, quiet_get_self|]. intros self. cbv zeta.
  eapply hoare_bind; [apply Hquiet, quiet_set_base_clip|]. intros ?; cbv beta.
  eapply hoare_bind; [apply Hquiet, quiet_loaded_clips_append|]. intros ?; cbv beta.
  eapply hoare_bind; [apply Hstep, quiet_apply_silence_cuts|]. intros clip1.
  eapply hoare_bind; [apply Hstep, quiet_apply_zoom_effect|]. intros clip2.
  eapply hoare_bind; [apply Hstep, quiet_apply_media_overlays|]. intros clip3.
  eapply hoare_bind; [apply Hstep, quiet_apply_background_music|]. intros clip4.
  eapply hoare_bind; [apply Hstep; quiet_steps|]. intros clip5.
  eapply hoare_bind; [apply Hstep; quiet_steps|]. intros clip6.
  eapply hoare_bind with (R := fun _ => written_once before preset).
  - intros s (stages & Hall & He). cbn.
    exists stages, clip6. split; [exact Hall|]. rewrite He, app_assoc. reflexivity.
  - intros ?; cbv beta. eapply hoare_bind with (R := fun _ => written_once before preset).
    + apply hoare_raise_if; auto.
    + intros ?; cbv beta. apply hoare_ret. auto.
Qed.

(** X9: however [render] ends, it has called [write_videofile] at most
    once, with the codecs libx264 and aac and the given preset, and after
    every effect step it applied: the events it adds are effect steps only,
    or effect steps followed by the one encode.  A [render] that returns
    has encoded. *)
Theorem X9_render_encodes_at_most_once
    (env : Env) (output_path preset : string) (s : State) :
  let run := render env output_path preset s in
  (nothing_written (events (snd s)) (snd run)
   \/ written_once (events (snd s)) preset (snd run))
  /\ (forall out, fst run = Return out ->
       written_once (events (snd s)) preset (snd run)).
Proof.
  cbv zeta. unfold render, try_finally.
  assert (Hs : nothing_written (events (snd s)) s).
  { exists []. split; [reflexivity | rewrite app_nil_r; reflexivity]. }
  pose proof (render_body_writes_at_most_once env output_path preset _ s Hs) as Hbody.
  destruct (render_body env output_path preset s) as [r s1].
  destruct (quiet_cleanup s1) as [_ He].
  pose proof (cleanup_returns s1 I) as Hc.
  destruct (_cleanup s1) as [[[]|] s2]; [|contradiction].
  cbn in He |- *. unfold nothing_written, written_once in *. rewrite He.
  destruct r as [out|]; split; auto.
  intros out Hout. discriminate.
Qed.

End BuilderUse.

(** ** Overlap avoidance: what the pass keeps, and where *)

Section AvoidanceFacts.
Import video_processing avoidance_spec.

Lemma overlaps_sym (x y : Interval) :
  overlaps (start x) (end_ x) y = overlaps (start y) (end_ y) x.
Proof. unfold overlaps. apply andb_comm. Qed.

Lemma pairwise_apart_perm (l l' : list Interval) :
  Permutation l l' -> pairwise_apart l -> pairwise_apart l'.
Proof.
  induction 1 as [|x l l' Hp IH|x y l|l l' l'' Hp1 IH1 Hp2 IH2]; simpl.
  - trivial.
  - intros [Hx Hl]. split; [|apply IH; exact Hl].
    intros z Hz. apply Hx. apply (Permutation_in z (Permutation_sym Hp) Hz).
  - intros [Hy [Hx Hl]]. split; [|split; [|exact Hl]].
    + intros z [<-|Hz]; [|apply Hx; exact Hz].
      rewrite overlaps_sym. apply Hy. left. reflexivity.
    + intros z Hz. apply Hy. right. exact Hz.
  - intros H. apply IH2, IH1, H.
Qed.

Lemma pairwise_apart_before (acc : list Interval) (x : Interval) (rest : list Interval) :
  pairwise_apart (acc ++ x :: rest) ->
  forall r, In r acc -> overlaps (start x) (end_ x) r = false.
Proof.
  induction acc as [|a acc IH]; simpl; intros H r Hr; [contradiction|].
  destruct H as [Ha Hrest]. destruct Hr as [<-|Hr]; [|apply IH; assumption].
  rewrite overlaps_sym. apply Ha. apply in_or_app. right. left. reflexivity.
Qed.

Lemma resolve_conflicts_apart (video_duration : Q) (interval : Interval)
    (resolved_intervals : list Interval) :
  forall remaining,
  (forall r, In r remaining -> overlaps (start interval) (end_ interval) r = false) ->
  resolve_conflicts video_duration interval resolved_intervals remaining false
  = Some interval.
Proof.
  induction remaining as [|r rest IH]; intros H; cbn [resolve_conflicts]; [reflexivity|].
  rewrite (H r (or_introl eq_refl)). apply IH. intros r' Hr'. apply H. right. exact Hr'.
Qed.

Lemma resolve_all_apart (video_duration : Q) (all_intervals : list Interval) :
  forall resolved_intervals,
  pairwise_apart (resolved_intervals ++ all_intervals) ->
  resolve_all video_duration all_intervals resolved_intervals
  = resolved_intervals ++ all_intervals.
Proof.
  induction all_intervals as [|x rest IH]; intros acc H; cbn [resolve_all].
  - rewrite app_nil_r. reflexivity.
  - rewrite (resolve_conflicts_apart video_duration x acc acc
               (pairwise_apart_before acc x rest H)).
    rewrite IH; rewrite <- app_assoc; [reflexivity | exact H].
Qed.

Lemma to_intervals_type (ty : media_type) (clip_duration video_duration : Q)
    (suggestions : list Suggestion) : forall i x,
  In x (to_intervals ty clip_duration video_duration i suggestions) -> type x = ty.
Proof.
  induction suggestions as [|s rest IH]; intros i x; cbn [to_intervals]; [intros []|].
  cbv zeta. destruct (Qlt_bool 0 _); [|apply IH].
  intros [<-|Hx]; [reflexivity | apply (IH _ _ Hx)].
Qed.

Lemma to_intervals_all (ty : media_type) (clip_duration video_duration : Q)
    (suggestions : list Suggestion) : forall i,
  0 < clip_duration ->
  (forall s, In s suggestions -> start_time s < video_duration) ->
  map suggestion_ (to_intervals ty clip_duration video_duration i suggestions)
  = suggestions.
Proof.
  induction suggestions as [|s rest IH]; intros i Hd Hall; cbn [to_intervals]; [reflexivity|].
  cbv zeta.
  assert (E : Qlt_bool 0 (py_min clip_duration (video_duration - start_time s)) = true).
  { apply Qlt_bool_iff. specialize (Hall s (or_introl eq_refl)).
    unfold py_min. destruct (Qle_bool _ _); lra. }
  rewrite E. cbn [map suggestion_]. f_equal.
  apply IH; [exact Hd|]. intros s' Hs'. apply Hall. right. exact Hs'.
Qed.

Lemma filter_all {A : Type} (f : A -> bool) (l : list A) :
  (forall x, In x l -> f x = true) -> filter f l = l.
Proof.
  induction l as [|a l IH]; simpl; intros H; [reflexivity|].
  rewrite (H a (or_introl eq_refl)). f_equal. apply IH. intros x Hx. apply H. right. exact Hx.
Qed.

Lemma filter_none {A : Type} (f : A -> bool) (l : list A) :
  (forall x, In x l -> f x = false) -> filter f l = [].
Proof.
  induction l as [|a l IH]; simpl; intros H; [reflexivity|].
  rewrite (H a (or_introl eq_refl)). apply IH. intros x Hx. apply H. right. exact Hx.
Qed.

Lemma permutation_filter {A : Type} (f : A -> bool) (l l' : list A) :
  Permutation l l' -> Permutation (filter f l) (filter f l').
Proof.
  induction 1 as [|x l l' Hp IH|x y l|l l' l'' Hp1 IH1 Hp2 IH2]; simpl.
  - apply perm_nil.
  - destruct (f x); [apply perm_skip|]; exact IH.
  - destruct (f x), (f y); try apply Permutation_refl. apply perm_swap.
  - eapply Permutation_trans; eassumption.
Qed.

(** X10: when the candidate intervals of a call are pairwise at least the
    minimum gap apart, the avoidance pass shifts nothing and drops nothing:
    for positive clip durations and suggestions that start inside the video,
    it returns the B-roll suggestions and the image suggestions it was
    given, each list reordered by start time at most. *)
Theorem X10_avoidance_keeps_conflict_free_suggestions
    (broll_suggestions image_suggestions : list Suggestion)
    (video_duration broll_clip_duration image_display_duration : Q) :
  0 < broll_clip_duration -> 0 < image_display_duration ->
  (forall s, In s (broll_suggestions ++ image_suggestions) ->
     start_time s < video_duration) ->
  pairwise_apart (candidates broll_suggestions image_suggestions video_duration
                    broll_clip_duration image_display_duration) ->
  let final :=
    avoid_multimedia_overlaps broll_suggestions image_suggestions video_duration
      broll_clip_duration image_display_duration in
  Permutation broll_suggestions (fst final) /\ Permutation image_suggestions (snd final).
Proof.
  intros Hb Hi Hin Hapart. cbv zeta.
  unfold avoid_multimedia_overlaps, resolved_intervals_of. cbv zeta.
  fold (candidates broll_suggestions image_suggestions video_duration
          broll_clip_duration image_display_duration).
  set (all := candidates _ _ _ _ _) in *.
  rewrite (resolve_all_apart video_duration (sorted_by_start all) []).
  2:{ apply (pairwise_apart_perm all); [apply sorted_by_start_perm | exact Hapart]. }
  cbn [app fst snd]. unfold suggestions_of.
  assert (Hty : forall ty,
            Permutation (map suggestion_
                           (filter (fun interval => media_type_eqb (type interval) ty) all))
                        (map suggestion_
                           (filter (fun interval => media_type_eqb (type interval) ty)
                                   (sorted_by_start all)))).
  { intros ty. apply Permutation_map, permutation_filter, sorted_by_start_perm. }
  split; (eapply Permutation_trans; [|apply Hty]); unfold all, candidates;
    rewrite filter_app.
  - rewrite filter_all, filter_none, app_nil_r.
    + rewrite to_intervals_all; [apply Permutation_refl | exact Hb |].
      intros s Hs. apply Hin, in_or_app. left. exact Hs.
    + intros x Hx. rewrite (to_intervals_type _ _ _ _ _ _ Hx). reflexivity.
    + intros x Hx. rewrite (to_intervals_type _ _ _ _ _ _ Hx). reflexivity.
  - rewrite filter_none, filter_all. cbn [app].
    + rewrite to_intervals_all; [apply Permutation_refl | exact Hi |].
      intros s Hs. apply Hin, in_or_app. right. exact Hs.
    + intros x Hx. rewrite (to_intervals_type _ _ _ _ _ _ Hx). reflexivity.
    + intros x Hx. rewrite (to_intervals_type _ _ _ _ _ _ Hx). reflexivity.
Qed.

Lemma X10_avoidance_keeps_conflict_free_suggestions_witness :
  let final :=
    avoid_multimedia_overlaps [mkSuggestion 20 "b1"; mkSuggestion 0 "b0"]
                              [mkSuggestion 10 "i0"] 60 4 4 in
  Permutation [mkSuggestion 20 "b1"; mkSuggestion 0 "b0"] (fst final)
  /\ Permutation [mkSuggestion 10 "i0"] (snd final).
Proof.
  apply (X10_avoidance_keeps_conflict_free_suggestions
           [mkSuggestion 20 "b1"; mkSuggestion 0 "b0"] [mkSuggestion 10 "i0"] 60 4 4).
  - reflexivity.
  - reflexivity.
  - intros s [<-|[<-|[<-|[]]]]; reflexivity.
  - vm_compute. repeat split; intros y H; repeat destruct H as [<-|H]; try reflexivity;
      contradiction.
Defined.

(** What the scan makes of a candidate it keeps: the candidate itself, or
    the candidate moved, with its length, to just after or just before an
    accepted interval. *)
Lemma resolve_conflicts_cases (video_duration : Q) (interval : Interval)
    (resolved_intervals : list Interval) :
  forall remaining conflict_found placed,
  resolve_conflicts video_duration interval resolved_intervals remaining conflict_found
  = Some placed ->
  placed = interval
  \/ exists r new_start new_end,
       In r remaining /\ placed = moved interval new_start new_end
       /\ new_end - new_start == end_ interval - start interval
       /\ ((new_start = end_ r + min_gap /\ new_end <= video_duration)
           \/ (new_end = start r - min_gap /\ 0 <= new_start)).
Proof.
  induction remaining as [|r rest IH]; intros flag placed; cbn [resolve_conflicts].
  - destruct flag; [discriminate|]. intros H. injection H as <-. left. reflexivity.
  - assert (Hrest : forall flag',
              resolve_conflicts video_duration interval resolved_intervals rest flag'
              = Some placed ->
              placed = interval
              \/ exists r0 new_start new_end,
                   In r0 (r :: rest) /\ placed = moved interval new_start new_end
                   /\ new_end - new_start == end_ interval - start interval
                   /\ ((new_start = end_ r0 + min_gap /\ new_end <= video_duration)
                       \/ (new_end = start r0 - min_gap /\ 0 <= new_start))).
    { intros flag' H. destruct (IH flag' placed H) as [->|(r0 & ns & ne & Hin & Hrest)].
      - left. reflexivity.
      - right. exists r0, ns, ne. split; [right; exact Hin | exact Hrest]. }
    destruct (overlaps (start interval) (end_ interval) r); [|apply Hrest].
    cbv zeta.
    destruct (Qle_bool (end_ r + min_gap + (end_ interval - start interval)) video_duration)
      eqn:E1.
    + intros H. injection H as <-. right.
      exists r, (end_ r + min_gap), (end_ r + min_gap + (end_ interval - start interval)).
      split; [left; reflexivity|]. split; [reflexivity|]. split; [lra|].
      left. split; [reflexivity|]. apply Qle_bool_iff. exact E1.
    + destruct (Qle_bool 0 (start r - min_gap - (end_ interval - start interval))) eqn:E2;
        cbn [andb]; [|apply Hrest].
      destruct (negb (creates_new_conflict _ _ r resolved_intervals)); [|apply Hrest].
      intros H. injection H as <-. right.
      exists r, (start r - min_gap - (end_ interval - start interval)), (start r - min_gap).
      split; [left; reflexivity|]. split; [reflexivity|]. split; [lra|].
      right. split; [reflexivity|]. apply Qle_bool_iff. exact E2.
Qed.

Lemma resolve_conflicts_well_placed (video_duration : Q) (interval : Interval)
    (resolved_intervals : list Interval) (placed : Interval) :
  well_placed video_duration interval ->
  (forall r, In r resolved_intervals -> well_placed video_duration r) ->
  resolve_conflicts video_duration interval resolved_intervals resolved_intervals false
  = Some placed ->
  well_placed video_duration placed.
Proof.
  intros Hi Hacc H.
  destruct (resolve_conflicts_cases _ _ _ _ _ _ H)
    as [->|(r & ns & ne & Hin & -> & Hlen & Hcase)]; [exact Hi|].
  destruct Hi as (Hi0 & Hi1 & Hi2 & _).
  destruct (Hacc r Hin) as (Hr0 & Hr1 & Hr2 & _).
  unfold well_placed, moved, min_gap in *. cbn [start end_ suggestion_ start_time].
  destruct Hcase as [[-> Hle]|[-> Hge]]; repeat split; lra.
Qed.

Lemma resolve_all_well_placed (video_duration : Q) (all_intervals : list Interval) :
  forall resolved_intervals,
  (forall x, In x all_intervals -> well_placed video_duration x) ->
  (forall r, In r resolved_intervals -> well_placed video_duration r) ->
  forall x, In x (resolve_all video_duration all_intervals resolved_intervals) ->
  well_placed video_duration x.
Proof.
  induction all_intervals as [|c rest IH]; intros acc Hall Hacc; cbn [resolve_all];
    [exact Hacc|].
  destruct (resolve_conflicts video_duration c acc acc false) as [placed|] eqn:Hr.
  - apply IH; [intros x Hx; apply Hall; right; exact Hx|].
    intros r Hin. apply in_app_or in Hin. destruct Hin as [Hin|[<-|[]]]; [apply Hacc, Hin|].
    apply (resolve_conflicts_well_placed _ c acc); auto. apply Hall. left. reflexivity.
  - apply IH; [intros x Hx; apply Hall; right; exact Hx | exact Hacc].
Qed.

Lemma to_intervals_well_placed (ty : media_type) (clip_duration video_duration : Q)
    (suggestions : list Suggestion) : forall i x,
  (forall s, In s suggestions -> 0 <= start_time s) ->
  In x (to_intervals ty clip_duration video_duration i suggestions) ->
  well_placed video_duration x.
Proof.
  induction suggestions as [|s rest IH]; intros i x Hs; cbn [to_intervals]; [intros []|].
  cbv zeta.
  assert (Hrest : forall s', In s' rest -> 0 <= start_time s')
    by (intros s' Hs'; apply Hs; right; exact Hs').
  destruct (Qlt_bool 0 (py_min clip_duration (video_duration - start_time s))) eqn:E;
    [|apply IH; exact Hrest].
  intros [<-|Hx]; [|apply (IH _ _ Hrest Hx)].
  apply Qlt_bool_iff in E. specialize (Hs s (or_introl eq_refl)).
  unfold well_placed. cbn [start end_ suggestion_]. revert E. unfold py_min.
  destruct (Qle_bool clip_duration (video_duration - start_time s)) eqn:E2; intros E.
  - apply Qle_bool_iff in E2. repeat split; lra.
  - repeat split; lra.
Qed.

(** X11: when no suggestion given to the avoidance pass starts before 0,
    every interval it resolves, shifted or not, starts in the video and
    does not end before it starts ([0 <= start <= end] and
    [start <= video_duration]), and every suggestion it returns starts at
    or after 0 and no later than the end of the video. *)
Theorem X11_avoidance_starts_inside_video
    (broll_suggestions image_suggestions : list Suggestion)
    (video_duration broll_clip_duration image_display_duration : Q) :
  (forall s, In s (broll_suggestions ++ image_suggestions) -> 0 <= start_time s) ->
  (forall x,
     In x (resolved_intervals_of broll_suggestions image_suggestions video_duration
             broll_clip_duration image_display_duration) ->
     0 <= start x /\ start x <= end_ x /\ start x <= video_duration) /\
  (let final :=
     avoid_multimedia_overlaps broll_suggestions image_suggestions video_duration
       broll_clip_duration image_display_duration in
   forall s, In s (fst final ++ snd final) ->
     0 <= start_time s /\ start_time s <= video_duration).
Proof.
  intros Hin.
  assert (Hres : forall x,
            In x (resolved_intervals_of broll_suggestions image_suggestions video_duration
                    broll_clip_duration image_display_duration) ->
            well_placed video_duration x).
  { unfold resolved_intervals_of. cbv zeta.
    apply resolve_all_well_placed; [|intros r []].
    intros x Hx.
    apply (Permutation_in x (Permutation_sym (sorted_by_start_perm _))) in Hx.
    apply in_app_or in Hx. destruct Hx as [Hx|Hx].
    - apply (to_intervals_well_placed _ _ _ _ _ _
               (fun s Hs => Hin s (in_or_app _ _ _ (or_introl Hs))) Hx).
    - apply (to_intervals_well_placed _ _ _ _ _ _
               (fun s Hs => Hin s (in_or_app _ _ _ (or_intror Hs))) Hx). }
  split.
  - intros x Hx. destruct (Hres x Hx) as (H0 & H1 & H2 & _). repeat split; lra.
  - cbv zeta. unfold avoid_multimedia_overlaps. cbv zeta. cbn [fst snd].
    intros s Hs.
    assert (Hx : exists x,
              In x (resolved_intervals_of broll_suggestions image_suggestions
                      video_duration broll_clip_duration image_display_duration)
              /\ suggestion_ x = s).
    { unfold suggestions_of in Hs. apply in_app_or in Hs.
      destruct Hs as [Hs|Hs]; apply in_map_iff in Hs; destruct Hs as (x & Hx & Hf);
        apply filter_In in Hf; exists x; tauto. }
    destruct Hx as (x & Hx & <-). destruct (Hres x Hx) as (H0 & H1 & H2 & ->).
    split; lra.
Qed.

Lemma X11_avoidance_starts_inside_video_witness :
  (forall x,
     In x (resolved_intervals_of [mkSuggestion 0 "b0"; mkSuggestion 2 "b1"]
             [mkSuggestion 1 "i0"] 60 4 4) ->
     0 <= start x /\ start x <= end_ x /\ start x <= 60) /\
  (let final :=
     avoid_multimedia_overlaps [mkSuggestion 0 "b0"; mkSuggestion 2 "b1"]
       [mkSuggestion 1 "i0"] 60 4 4 in
   forall s, In s (fst final ++ snd final) -> 0 <= start_time s /\ start_time s <= 60).
Proof.
  apply (X11_avoidance_starts_inside_video
           [mkSuggestion 0 "b0"; mkSuggestion 2 "b1"] [mkSuggestion 1 "i0"] 60 4 4).
  intros s [<-|[<-|[<-|[]]]]; discriminate.
Defined.

Lemma resolve_conflicts_origin (video_duration : Q) (interval : Interval)
    (resolved_intervals remaining : list Interval) (conflict_found : bool)
    (placed : Interval) :
  resolve_conflicts video_duration interval resolved_intervals remaining conflict_found
  = Some placed ->
  origin placed = origin interval
  /\ content (suggestion_ placed) = content (suggestion_ interval).
Proof.
  intros H.
  destruct (resolve_conflicts_cases _ _ _ _ _ _ H) as [->|(r & ns & ne & _ & -> & _)];
    split; reflexivity.
Qed.

Lemma resolve_all_origins (video_duration : Q) (all_intervals : list Interval) :
  forall resolved_intervals,
  NoDup (map origin (resolved_intervals ++ all_intervals)) ->
  NoDup (map origin (resolve_all video_duration all_intervals resolved_intervals)).
Proof.
  induction all_intervals as [|c rest IH]; intros acc H; cbn [resolve_all].
  - rewrite app_nil_r in H. exact H.
  - destruct (resolve_conflicts video_duration c acc acc false) as [placed|] eqn:Hr.
    + apply IH. destruct (resolve_conflicts_origin _ _ _ _ _ _ Hr) as [Ho _].
      rewrite <- app_assoc. cbn [app]. rewrite map_app in H |- *. cbn [map] in H |- *.
      rewrite Ho. exact H.
    + apply IH. rewrite map_app in H |- *. cbn [map] in H.
      apply NoDup_remove_1 in H. exact H.
Qed.

Lemma resolve_all_from_candidates (video_duration : Q) (all_intervals : list Interval) :
  forall resolved_intervals x,
  In x (resolve_all video_duration all_intervals resolved_intervals) ->
  In x resolved_intervals
  \/ exists c, In c all_intervals /\ origin x = origin c
               /\ content (suggestion_ x) = content (suggestion_ c).
Proof.
  induction all_intervals as [|c rest IH]; intros acc x; cbn [resolve_all]; [auto|].
  assert (Hrest : (exists c0, In c0 rest /\ origin x = origin c0
                     /\ content (suggestion_ x) = content (suggestion_ c0)) ->
                  exists c0, In c0 (c :: rest) /\ origin x = origin c0
                     /\ content (suggestion_ x) = content (suggestion_ c0)).
  { intros (c0 & Hc0 & H). exists c0. split; [right; exact Hc0 | exact H]. }
  destruct (resolve_conflicts video_duration c acc acc false) as [placed|] eqn:Hr;
    intros Hx; apply IH in Hx; destruct Hx as [Hx|Hx]; auto.
  apply in_app_or in Hx. destruct Hx as [Hx|[<-|[]]]; [auto|].
  right. exists c. split; [left; reflexivity|].
  apply (resolve_conflicts_origin _ _ _ _ _ _ Hr).
Qed.

Lemma resolve_all_count (video_duration : Q) (f : Interval -> bool)
    (all_intervals : list Interval) :
  (forall a b, origin a = origin b -> f a = f b) ->
  forall resolved_intervals,
  (List.length (filter f (resolve_all video_duration all_intervals resolved_intervals))
   <= List.length (filter f resolved_intervals) + List.length (filter f all_intervals))%nat.
Proof.
  intros Hf. induction all_intervals as [|c rest IH]; intros acc; cbn [resolve_all].
  - simpl. lia.
  - destruct (resolve_conflicts video_duration c acc acc false) as [placed|] eqn:Hr.
    + specialize (IH (acc ++ [placed])). rewrite filter_app, length_app in IH.
      destruct (resolve_conflicts_origin _ _ _ _ _ _ Hr) as [Ho _].
      cbn [filter] in IH |- *. rewrite (Hf _ _ Ho) in IH.
      destruct (f c); cbn [List.length] in IH |- *; lia.
    + specialize (IH acc). cbn [filter]. destruct (f c); cbn [List.length]; lia.
Qed.

Lemma to_intervals_origin (ty : media_type) (clip_duration video_duration : Q)
    (suggestions : list Suggestion) : forall i x,
  In x (to_intervals ty clip_duration video_duration i suggestions) ->
  type x = ty /\ (i <= index x)%nat
  /\ nth_error suggestions (index x - i) = Some (suggestion_ x).
Proof.
  induction suggestions as [|s rest IH]; intros i x; cbn [to_intervals]; [intros []|].
  cbv zeta.
  assert (Hrest : In x (to_intervals ty clip_duration video_duration (S i) rest) ->
                  type x = ty /\ (i <= index x)%nat
                  /\ nth_error (s :: rest) (index x - i) = Some (suggestion_ x)).
  { intros Hx. destruct (IH _ _ Hx) as (Ht & Hi & Hn). split; [exact Ht|].
    split; [lia|]. replace (index x - i)%nat with (S (index x - S i)) by lia. exact Hn. }
  destruct (Qlt_bool 0 _); [|exact Hrest].
  intros [<-|Hx]; [|exact (Hrest Hx)].
  cbn [type index suggestion_]. rewrite Nat.sub_diag. auto.
Qed.

Lemma to_intervals_length (ty : media_type) (clip_duration video_duration : Q)
    (suggestions : list Suggestion) : forall i,
  (List.length (to_intervals ty clip_duration video_duration i suggestions)
   <= List.length suggestions)%nat.
Proof.
  induction suggestions as [|s rest IH]; intros i; cbn [to_intervals]; [apply Nat.le_refl|].
  cbv zeta. specialize (IH (S i)). destruct (Qlt_bool 0 _); simpl List.length; lia.
Qed.

Lemma to_intervals_nodup (ty : media_type) (clip_duration video_duration : Q)
    (suggestions : list Suggestion) : forall i,
  NoDup (map origin (to_intervals ty clip_duration video_duration i suggestions)).
Proof.
  induction suggestions as [|s rest IH]; intros i; cbn [to_intervals]; [apply NoDup_nil|].
  cbv zeta. destruct (Qlt_bool 0 _); [|apply IH].
  cbn [map]. apply NoDup_cons; [|apply IH].
  intros Hin. apply in_map_iff in Hin. destruct Hin as (x & Ho & Hx).
  destruct (to_intervals_origin _ _ _ _ _ _ Hx) as (_ & Hi & _).
  unfold origin in Ho. cbn [type index] in Ho. injection Ho as _ Hidx. lia.
Qed.

Lemma candidates_nodup (broll_suggestions image_suggestions : list Suggestion)
    (video_duration broll_clip_duration image_display_duration : Q) :
  NoDup (map origin (candidates broll_suggestions image_suggestions video_duration
                       broll_clip_duration image_display_duration)).
Proof.
  unfold candidates. rewrite map_app.
  assert (Hdisj : forall o,
            In o (map origin (to_intervals broll broll_clip_duration video_duration 0
                                broll_suggestions)) ->
            In o (map origin (to_intervals image image_display_duration video_duration 0
                                image_suggestions)) -> False).
  { intros o H1 H2. apply in_map_iff in H1, H2.
    destruct H1 as (x & <- & Hx), H2 as (y & Ho & Hy).
    apply to_intervals_origin in Hx, Hy. destruct Hx as (Hx & _), Hy as (Hy & _).
    unfold origin in Ho. injection Ho as Ht _. congruence. }
  revert Hdisj. generalize (to_intervals_nodup broll broll_clip_duration video_duration
                              broll_suggestions 0).
  generalize (to_intervals_nodup image image_display_duration video_duration
                image_suggestions 0).
  generalize (map origin (to_intervals image image_display_duration video_duration 0
                            image_suggestions)) as l2.
  generalize (map origin (to_intervals broll broll_clip_duration video_duration 0
                            broll_suggestions)) as l1.
  induction l1 as [|a l1 IH]; intros l2 H2 H1 Hd; cbn [app]; [exact H2|].
  inversion H1 as [|a' l' Ha Hl1]; subst. apply NoDup_cons.
  - intros Hin. apply in_app_or in Hin. destruct Hin as [Hin|Hin]; [contradiction|].
    apply (Hd a); [left; reflexivity | exact Hin].
  - apply IH; [exact H2 | exact Hl1|]. intros o Ho1 Ho2. apply (Hd o); [right|]; assumption.
Qed.

(** X12: the avoidance pass invents nothing and repeats nothing.  Every
    interval it resolves comes from one suggestion of its type's input list,
    at the interval's index, with that suggestion's content; no two resolved
    intervals come from the same suggestion; so neither returned list is
    longer than the list it was made from. *)
Theorem X12_avoidance_returns_each_suggestion_at_most_once
    (broll_suggestions image_suggestions : list Suggestion)
    (video_duration broll_clip_duration image_display_duration : Q) :
  let resolved :=
    resolved_intervals_of broll_suggestions image_suggestions video_duration
      broll_clip_duration image_display_duration in
  let final :=
    avoid_multimedia_overlaps broll_suggestions image_suggestions video_duration
      broll_clip_duration image_display_duration in
  NoDup (map origin resolved)
  /\ (forall x, In x resolved ->
        exists given,
          nth_error (match type x with
                     | broll => broll_suggestions
                     | image => image_suggestions
                     end) (index x) = Some given
          /\ content (suggestion_ x) = content given)
  /\ (List.length (fst final) <= List.length broll_suggestions)%nat
  /\ (List.length (snd final) <= List.length image_suggestions)%nat.
Proof.
  cbv zeta. unfold avoid_multimedia_overlaps, resolved_intervals_of. cbv zeta.
  fold (candidates broll_suggestions image_suggestions video_duration
          broll_clip_duration image_display_duration).
  set (all := candidates _ _ _ _ _).
  assert (Hperm : Permutation all (sorted_by_start all)) by apply sorted_by_start_perm.
  split; [|split].
  - apply resolve_all_origins. cbn [app].
    apply (Permutation_NoDup (Permutation_map origin Hperm)).
    apply candidates_nodup.
  - intros x Hx. apply resolve_all_from_candidates in Hx.
    destruct Hx as [[]|(c & Hc & Ho & Hcont)].
    apply (Permutation_in c (Permutation_sym Hperm)) in Hc.
    unfold origin in Ho. injection Ho as Ht Hi. rewrite Ht, Hi, Hcont.
    exists (suggestion_ c). split; [|reflexivity].
    unfold all, candidates in Hc. apply in_app_or in Hc.
    destruct Hc as [Hc|Hc]; apply to_intervals_origin in Hc;
      destruct Hc as (-> & _ & Hn); rewrite Nat.sub_0_r in Hn; exact Hn.
  - assert (Hcount : forall ty,
              (List.length (suggestions_of ty (resolve_all video_duration (sorted_by_start all) []))
               <= List.length (filter (fun interval => media_type_eqb (type interval) ty) all))%nat).
    { intros ty. unfold suggestions_of. rewrite length_map.
      pose proof (resolve_all_count video_duration
                    (fun interval => media_type_eqb (type interval) ty)
                    (sorted_by_start all)) as Hc.
      specialize (Hc (fun a b Hab => f_equal (fun o => media_type_eqb (fst o) ty) Hab) []).
      cbn [filter List.length] in Hc.
      rewrite <- (Permutation_length (permutation_filter _ _ _ Hperm)) in Hc. exact Hc. }
    cbn [fst snd]. split; (eapply Nat.le_trans; [apply Hcount|]);
      unfold all, candidates; rewrite filter_app, length_app.
    + rewrite (filter_none _ (to_intervals image _ _ _ _)).
      * cbn [List.length]. rewrite Nat.add_0_r.
        eapply Nat.le_trans; [apply filter_length_le | apply to_intervals_length].
      * intros x Hx. rewrite (to_intervals_type _ _ _ _ _ _ Hx). reflexivity.
    + rewrite (filter_none _ (to_intervals broll _ _ _ _)).
      * cbn [List.length Nat.add].
        eapply Nat.le_trans; [apply filter_length_le | apply to_intervals_length].
      * intros x Hx. rewrite (to_intervals_type _ _ _ _ _ _ Hx). reflexivity.
Qed.

End AvoidanceFacts.

(** ** Overlay timing in the compositor *)

Section OverlayTiming.
Import video_processing multimedia_overlays.

(** X13: an overlay that [create_comprehensive_multimedia_video] places
    has a positive duration, no longer than the configured one, and starts
    no later than the video ends; its fade-in and fade-out are at most
    0.5 s each and together no longer than the overlay, so they never run
    into each other. *)
Theorem X13_overlay_fits_video_and_fades_fit_overlay
    (start_time clip_duration duration placed : Q) :
  overlay_duration start_time clip_duration duration = Some placed ->
  0 < placed /\ placed <= clip_duration /\ start_time <= duration
  /\ 0 <= fade_duration placed /\ fade_duration placed <= 1 # 2
  /\ fade_duration placed + fade_duration placed <= placed.
Proof.
  unfold overlay_duration. cbv zeta.
  destruct (Qlt_bool duration (start_time + clip_duration)) eqn:E1;
    [apply Qlt_bool_iff in E1 | apply Qlt_bool_false_iff in E1].
  - destruct (Qle_bool (duration - start_time) 0) eqn:E2; [discriminate|].
    apply Qle_bool_false_iff in E2. intros H. injection H as <-.
    assert (Hq : (duration - start_time) / 4 == (duration - start_time) * (1 # 4))
      by (unfold Qdiv; reflexivity).
    unfold fade_duration, py_min.
    destruct (Qle_bool (1 # 2) ((duration - start_time) / 4)) eqn:E3;
      [apply Qle_bool_iff in E3 | apply Qle_bool_false_iff in E3];
      rewrite ?Hq in *; repeat split; lra.
  - destruct (Qle_bool clip_duration 0) eqn:E2; [discriminate|].
    apply Qle_bool_false_iff in E2. intros H. injection H as <-.
    assert (Hq : clip_duration / 4 == clip_duration * (1 # 4))
      by (unfold Qdiv; reflexivity).
    unfold fade_duration, py_min.
    destruct (Qle_bool (1 # 2) (clip_duration / 4)) eqn:E3;
      [apply Qle_bool_iff in E3 | apply Qle_bool_false_iff in E3];
      rewrite ?Hq in *; repeat split; lra.
Qed.

Lemma X13_overlay_fits_video_and_fades_fit_overlay_witness :
  0 < 1 /\ 1 <= 4 /\ 59 <= 60
  /\ 0 <= fade_duration 1 /\ fade_duration 1 <= 1 # 2
  /\ fade_duration 1 + fade_duration 1 <= 1.
Proof.
  apply (X13_overlay_fits_video_and_fades_fit_overlay 59 4 60 1).
  reflexivity.
Defined.

(** X14: the compositor and the avoidance pass agree on the span of a
    suggestion: the candidate interval the avoidance pass makes for a
    suggestion is exactly the span from its start over the duration the
    compositor gives the overlay, and the suggestions the avoidance pass
    leaves out as too late are the ones the compositor skips. *)
Theorem X14_compositor_span_is_avoidance_interval
    (ty : media_type) (suggestion : Suggestion) (i : nat)
    (clip_duration video_duration : Q) :
  to_intervals ty clip_duration video_duration i [suggestion]
  = match overlay_duration (start_time suggestion) clip_duration video_duration with
    | Some placed =>
        [mkInterval i (start_time suggestion) (start_time suggestion + placed)
           ty suggestion]
    | None => []
    end.
Proof.
  cbn [to_intervals]. cbv zeta. unfold overlay_duration, py_min. cbv zeta.
  assert (E : Qlt_bool video_duration (start_time suggestion + clip_duration)
              = negb (Qle_bool clip_duration (video_duration - start_time suggestion))).
  { unfold Qlt_bool. f_equal.
    destruct (Qle_bool clip_duration (video_duration - start_time suggestion)) eqn:E1.
    - apply Qle_bool_iff in E1. apply Qle_bool_iff. lra.
    - apply Qle_bool_false_iff in E1. apply Qle_bool_false_iff. lra. }
  rewrite E.
  destruct (Qle_bool clip_duration (video_duration - start_time suggestion));
    cbn [negb]; unfold Qlt_bool;
    match goal with |- context [Qle_bool ?a 0] => destruct (Qle_bool a 0) end;
    reflexivity.
Qed.

End OverlayTiming.

(** ** Smart B-roll and image counts *)

Section SmartSettings.
Import video_processing smart_settings.

(** [round] stays within half a unit of its argument. *)
Lemma py_round_near (x : Q) :
  x - (1 # 2) <= inject_Z (py_round x) /\ inject_Z (py_round x) <= x + (1 # 2).
Proof.
  pose proof (Qfloor_le x) as Hlo. pose proof (Qlt_floor x) as Hhi.
  rewrite inject_Z_plus in Hhi. change (inject_Z 1) with 1 in Hhi.
  unfold py_round. cbv zeta.
  destruct (Qlt_bool (x - inject_Z (Qfloor x)) (1 # 2)) eqn:E1;
    [apply Qlt_bool_iff in E1; split; lra | apply Qlt_bool_false_iff in E1].
  destruct (Qlt_bool (1 # 2) (x - inject_Z (Qfloor x))) eqn:E2;
    [apply Qlt_bool_iff in E2 | apply Qlt_bool_false_iff in E2].
  - rewrite inject_Z_plus. change (inject_Z 1) with 1. split; lra.
  - destruct (Z.even (Qfloor x)).
    + split; lra.
    + rewrite inject_Z_plus. change (inject_Z 1) with 1. split; lra.
Qed.

Lemma Qle_bool_comp (a b a' b' : Q) : a == a' -> b == b' -> Qle_bool a b = Qle_bool a' b'.
Proof.
  intros Ha Hb. destruct (Qle_bool a' b') eqn:E.
  - apply Qle_bool_iff in E. apply Qle_bool_iff. lra.
  - apply Qle_bool_false_iff in E. apply Qle_bool_false_iff. lra.
Qed.

Lemma py_round_comp (x y : Q) : x == y -> py_round x = py_round y.
Proof.
  intros H. unfold py_round, Qlt_bool. cbv zeta.
  rewrite (Qfloor_comp x y H).
  rewrite (Qle_bool_comp (1 # 2) (x - inject_Z (Qfloor y)) (1 # 2) (y - inject_Z (Qfloor y)))
    by lra.
  rewrite (Qle_bool_comp (x - inject_Z (Qfloor y)) (1 # 2) (y - inject_Z (Qfloor y)) (1 # 2))
    by lra.
  reflexivity.
Qed.

Lemma py_round_mono (x y : Q) : x <= y -> (py_round x <= py_round y)%Z.
Proof.
  intros Hxy. destruct (Z_le_gt_dec (py_round x) (py_round y)) as [Hle|Hgt]; [exact Hle|].
  destruct (py_round_near x) as [_ Hx]. destruct (py_round_near y) as [Hy _].
  assert (H1 : inject_Z (py_round y) + 1 <= inject_Z (py_round x)).
  { change 1 with (inject_Z 1). rewrite <- inject_Z_plus. rewrite <- Zle_Qle. lia. }
  assert (Heq : x == y) by lra.
  rewrite (py_round_comp x y Heq). lia.
Qed.

(** X15: [calculate_smart_multimedia_counts] never returns a negative count
    or more than 15 B-roll clips and 20 images, returns at least one of each
    for more than 10 s of video, and, with non-negative ratios, never
    returns fewer for a longer video. *)
Theorem X15_smart_counts_bounded_and_monotone
    (shorter longer broll_ratio image_ratio : Q) :
  0 <= broll_ratio -> 0 <= image_ratio -> shorter <= longer ->
  let counts := calculate_smart_multimedia_counts longer broll_ratio image_ratio in
  let fewer := calculate_smart_multimedia_counts shorter broll_ratio image_ratio in
  (0 <= fst counts <= 15)%Z /\ (0 <= snd counts <= 20)%Z
  /\ (10 < longer -> (1 <= fst counts)%Z /\ (1 <= snd counts)%Z)
  /\ (fst fewer <= fst counts)%Z /\ (snd fewer <= snd counts)%Z.
Proof.
  intros Hb Hi Hle. cbv zeta. unfold calculate_smart_multimedia_counts. cbv zeta.
  cbn [fst snd].
  assert (Hdiv : forall d r, d / 30 * r == d * r * (1 # 30))
    by (intros d r; unfold Qdiv; change (/ 30) with (1 # 30); ring).
  assert (Hmb : (py_round (shorter / 30 * broll_ratio)
                 <= py_round (longer / 30 * broll_ratio))%Z).
  { apply py_round_mono. rewrite !Hdiv. nra. }
  assert (Hmi : (py_round (shorter / 30 * image_ratio)
                 <= py_round (longer / 30 * image_ratio))%Z).
  { apply py_round_mono. rewrite !Hdiv. nra. }
  destruct (Qlt_bool 10 longer) eqn:El;
    [apply Qlt_bool_iff in El | apply Qlt_bool_false_iff in El];
    (destruct (Qlt_bool 10 shorter) eqn:Es;
     [apply Qlt_bool_iff in Es | apply Qlt_bool_false_iff in Es]);
    try lra; repeat split; try lia; intros; try lia; lra.
Qed.

Lemma X15_smart_counts_bounded_and_monotone_witness :
  let counts := calculate_smart_multimedia_counts 95 1 2 in
  let fewer := calculate_smart_multimedia_counts 45 1 2 in
  (0 <= fst counts <= 15)%Z /\ (0 <= snd counts <= 20)%Z
  /\ (10 < 95 -> (1 <= fst counts)%Z /\ (1 <= snd counts)%Z)
  /\ (fst fewer <= fst counts)%Z /\ (snd fewer <= snd counts)%Z.
Proof.
  apply (X15_smart_counts_bounded_and_monotone 45 95 1 2); discriminate.
Defined.

(** The six outcomes of [calculate_smart_broll_settings]. *)
Lemma smart_broll_settings_cases (d : Q) :
  let r := calculate_smart_broll_settings d in
  (d <= 30 /\ fst r = 2%Z /\ snd r == 2)
  \/ (30 < d /\ d <= 60 /\ fst r = 3%Z /\ snd r == 3)
  \/ (60 < d /\ d <= 180 /\ fst r = 4%Z /\ snd r == 4)
  \/ (180 < d /\ d <= 300 /\ fst r = 5%Z /\ snd r == 45 # 10)
  \/ (300 < d /\ d <= 600 /\ fst r = 6%Z /\ snd r == 5)
  \/ (600 < d /\ fst r = 10%Z /\ snd r == 6).
Proof.
  cbv zeta. unfold calculate_smart_broll_settings.
  destruct (Qle_bool d 30) eqn:E1;
    [apply Qle_bool_iff in E1; left; cbn; repeat split; solve [assumption | reflexivity]
    | apply Qle_bool_false_iff in E1; right].
  destruct (Qle_bool d 60) eqn:E2;
    [apply Qle_bool_iff in E2; left; cbn; repeat split; solve [assumption | reflexivity]
    | apply Qle_bool_false_iff in E2; right].
  destruct (Qle_bool d 180) eqn:E3;
    [apply Qle_bool_iff in E3; left; cbn; repeat split; solve [assumption | reflexivity]
    | apply Qle_bool_false_iff in E3; right].
  destruct (Qle_bool d 300) eqn:E4;
    [apply Qle_bool_iff in E4; left; cbn; repeat split; solve [assumption | reflexivity]
    | apply Qle_bool_false_iff in E4; right].
  destruct (Qle_bool d 600) eqn:E5;
    [apply Qle_bool_iff in E5; left; cbn; repeat split; solve [assumption | reflexivity]
    | apply Qle_bool_false_iff in E5; right].
  cbv zeta. cbn [fst snd].
  assert (Hd : 10 <= d / 60) by (apply Qle_shift_div_l; lra).
  assert (Hint : (10 <= py_int (d / 60))%Z).
  { unfold py_int. assert (H0 : Qle_bool 0 (d / 60) = true) by (apply Qle_bool_iff; lra).
    rewrite H0. change 10%Z with (Qfloor 10). apply Qfloor_resp_le. exact Hd. }
  rewrite (Z.min_r _ _ Hint).
  split; [exact E5|]. split; [reflexivity|].
  assert (Hq : d / inject_Z 10 * (1 # 10) == d * (1 # 100))
    by (unfold Qdiv; change (/ inject_Z 10) with (1 # 10); ring).
  unfold py_min.
  destruct (Qle_bool (d / inject_Z 10 * (1 # 10)) 6) eqn:E6; [|reflexivity].
  apply Qle_bool_iff in E6. rewrite Hq in E6. lra.
Qed.

(** X16: [calculate_smart_broll_settings] returns between 2 and 10 clips of
    between 2 and 6 seconds, never fewer or shorter clips for a longer
    video; and every video longer than 600 s gets exactly 10 clips of 6 s,
    however long it is. *)
Theorem X16_smart_broll_settings_bounded_monotone_saturating
    (shorter longer : Q) :
  shorter <= longer ->
  let settings := calculate_smart_broll_settings longer in
  let smaller := calculate_smart_broll_settings shorter in
  (2 <= fst settings <= 10)%Z /\ 2 <= snd settings /\ snd settings <= 6
  /\ (fst smaller <= fst settings)%Z /\ snd smaller <= snd settings
  /\ (600 < longer -> fst settings = 10%Z /\ snd settings == 6).
Proof.
  intros Hle. cbv zeta.
  pose proof (smart_broll_settings_cases longer) as Hl.
  pose proof (smart_broll_settings_cases shorter) as Hs.
  cbv zeta in Hl, Hs.
  destruct (calculate_smart_broll_settings longer) as [cl ql].
  destruct (calculate_smart_broll_settings shorter) as [cs qs].
  cbn [fst snd] in *.
  destruct Hl as [Hl|[Hl|[Hl|[Hl|[Hl|Hl]]]]];
    destruct Hs as [Hs|[Hs|[Hs|[Hs|[Hs|Hs]]]]];
    decompose [and] Hl; decompose [and] Hs; subst; try lra;
    repeat split; try lia; try lra; intros; try lra; try reflexivity; assumption.
Qed.

Lemma X16_smart_broll_settings_bounded_monotone_saturating_witness :
  let settings := calculate_smart_broll_settings 7200 in
  let smaller := calculate_smart_broll_settings 601 in
  (2 <= fst settings <= 10)%Z /\ 2 <= snd settings /\ snd settings <= 6
  /\ (fst smaller <= fst settings)%Z /\ snd smaller <= snd settings
  /\ (600 < 7200 -> fst settings = 10%Z /\ snd settings == 6).
Proof.
  apply (X16_smart_broll_settings_bounded_monotone_saturating 601 7200). discriminate.
Defined.

End SmartSettings.

(** ** The optimized pipeline (video_processing_optimized.py) *)

Section RunRules.
Import video_processing_optimized pipeline_spec.

Context {A B : Type}.

Lemma run_hoare_ret (P : RunState -> Prop) (a : A) (Q : A -> RunState -> Prop)
    (E : RunState -> Prop) :
  (forall s, P s -> Q a s) -> run_hoare P (ret a) Q E.
Proof. intros H s Hs. cbn. auto. Qed.

Lemma run_hoare_raise (P : RunState -> Prop) (Q : A -> RunState -> Prop)
    (E : RunState -> Prop) :
  (forall s, P s -> E s) -> run_hoare P raise Q E.
Proof. intros H s Hs. cbn. auto. Qed.

Lemma run_hoare_bind (P : RunState -> Prop) (m : Run A) (k : A -> Run B)
    (R : A -> RunState -> Prop) (Q : B -> RunState -> Prop) (E : RunState -> Prop) :
  run_hoare P m R E -> (forall a, run_hoare (R a) (k a) Q E) ->
  run_hoare P (bind m k) Q E.
Proof.
  intros Hm Hk s Hs. unfold bind. specialize (Hm s Hs).
  destruct (m s) as [[a|] s']; [apply (Hk a s' Hm) | exact Hm].
Qed.

Lemma run_hoare_weaken (P P' : RunState -> Prop) (m : Run A)
    (Q Q' : A -> RunState -> Prop) (E E' : RunState -> Prop) :
  run_hoare P' m Q' E' ->
  (forall s, P s -> P' s) -> (forall a s, Q' a s -> Q a s) -> (forall s, E' s -> E s) ->
  run_hoare P m Q E.
Proof.
  intros Hm HP HQ HE s Hs. specialize (Hm s (HP s Hs)).
  destruct (m s) as [[a|] s']; auto.
Qed.

End RunRules.

Section RunGating.
Import video_processing_optimized pipeline_spec.

Lemma call_keeps (world : World) (st : Step) (P : RunState -> Prop) :
  run_hoare P (call world st) (fun ok s => P s /\ ok = step_ok world st) P.
Proof.
  intros s Hs. unfold call. destruct (step_raises world st); cbn; auto.
Qed.

Lemma report_only (names : list string) (name : string) (total_steps : Z) :
  In name names ->
  run_hoare (only names) (report name total_steps) (fun _ => only names) (only names).
Proof.
  intros Hin s Hs. cbn. intros p Hp. cbn in Hp. apply in_app_or in Hp.
  destruct Hp as [Hp|[<-|[]]]; [apply Hs, Hp | exact Hin].
Qed.

Lemma video_stage_only (world : World) (names : list string) (guard : bool)
    (name : string) (total_steps : Z) (st : Step) :
  (guard = true -> In name names) ->
  run_hoare (only names) (video_stage world guard name total_steps st)
            (fun _ => only names) (only names).
Proof.
  intros Hin. unfold video_stage. destruct guard; [|apply run_hoare_ret; auto].
  eapply run_hoare_bind; [apply report_only; auto|]. intros ?; cbv beta.
  eapply run_hoare_bind; [apply call_keeps|]. intros ok. cbv beta.
  destruct ok.
  - intros s [Hs _]. cbn. exact Hs.
  - apply run_hoare_ret. tauto.
Qed.

(** X17: in the optimized pipeline a transcription that is skipped or
    returns failure switches off every stage that reads the transcript: GPT
    correction, subtitle burning and multimedia integration are not entered,
    whatever their own flags say and whatever file is on disk. *)
Theorem X17_optimized_pipeline_gates_on_transcript
    (args : Args) (world : World) :
  skip_transcription args = true \/ step_ok world Transcription = false ->
  let log := snd (process_video args world) in
  ~ entered "GPT Correction" log
  /\ ~ entered "Subtitle Burning" log
  /\ ~ entered "Multimedia Integration" log.
Proof.
  intros Hno. cbv zeta.
  set (names := ["Silence Removal"; "Topic Card"; "Transcription"; "Enhanced Auto Zoom";
                 "Background Music"; "Complete"]%string).
  assert (Hlog : forall p, In p (snd (process_video args world)) -> In (step p) names).
  { unfold process_video. cbv zeta.
    match goal with
    | |- context [let '(result, s) := ?body ?s0 in _] =>
        assert (Hb : run_hoare (only names) body (fun _ => only names) (only names));
        [|assert (H0 : only names s0) by (intros p []);
          specialize (Hb s0 H0); destruct (body s0) as [r s1]; cbn [snd];
          destruct r; exact Hb]
    end.
    - eapply run_hoare_bind;
        [apply video_stage_only; intros ?; unfold names; simpl; tauto|]. intros ?; cbv beta.
      eapply run_hoare_bind;
        [apply video_stage_only; intros ?; unfold names; simpl; tauto|]. intros ?; cbv beta.
      eapply run_hoare_bind with (R := fun transcript_path s =>
                                         only names s /\ transcript_path = false).
      + destruct (negb (skip_transcription args)) eqn:Es.
        * eapply run_hoare_bind;
            [apply report_only; unfold names; simpl; tauto|]. intros ?; cbv beta.
          apply run_hoare_weaken with
            (P' := only names)
            (Q' := fun ok s => only names s /\ ok = step_ok world Transcription)
            (E' := only names); [apply call_keeps | auto | | auto].
          intros ok s [Hs ->]. split; [exact Hs|].
          destruct Hno as [Hskip|Hok]; [|exact Hok].
          rewrite Hskip in Es. discriminate.
        * apply run_hoare_ret. auto.
      + intros transcript_path. destruct transcript_path.
        { intros s [_ H]. discriminate H. }
        apply run_hoare_weaken with
          (P' := only names) (Q' := fun _ => only names) (E' := only names);
          [|tauto|auto|auto].
        rewrite !andb_false_r. cbn [andb].
        eapply run_hoare_bind with (R := fun _ => only names);
          [apply run_hoare_ret; auto|]. intros ?; cbv beta.
        eapply run_hoare_bind;
          [apply video_stage_only; intros H; discriminate H|]. intros ?; cbv beta.
        eapply run_hoare_bind;
          [apply video_stage_only; intros ?; unfold names; simpl; tauto|]. intros ?; cbv beta.
        eapply run_hoare_bind;
          [apply video_stage_only; intros H; discriminate H|]. intros ?; cbv beta.
        eapply run_hoare_bind;
          [apply video_stage_only; intros ?; unfold names; simpl; tauto|]. intros ?; cbv beta.
        eapply run_hoare_bind; [apply call_keeps|]. intros ?. cbv beta.
        eapply run_hoare_bind with (R := fun _ => only names).
        * intros s [Hs _]. cbn. intros p Hp. cbn in Hp. apply in_app_or in Hp.
          destruct Hp as [Hp|[<-|[]]]; [apply Hs, Hp | unfold names; simpl; tauto].
        * intros ? s Hs. destruct (current_is_input s); [exact Hs|].
          unfold bind. pose proof (call_keeps world CopyOriginal (only names) s Hs) as Hc.
          destruct (call world CopyOriginal s) as [[ok|] s']; cbn; tauto. }
  unfold entered.
  repeat split; intros Hin; apply in_map_iff in Hin; destruct Hin as (p & Hp & Hin);
    apply Hlog in Hin; rewrite Hp in Hin; unfold names in Hin; simpl in Hin;
    intuition discriminate.
Qed.

Lemma X17_optimized_pipeline_gates_on_transcript_witness :
  let log :=
    snd (process_video
           (mkArgs false false false false false false false false false false "random")
           (mkWorld (fun _ => false)
                    (fun s => match s with Transcription => false | _ => true end)
                    (fun _ => true))) in
  ~ entered "GPT Correction" log
  /\ ~ entered "Subtitle Burning" log
  /\ ~ entered "Multimedia Integration" log.
Proof.
  apply (X17_optimized_pipeline_gates_on_transcript
           (mkArgs false false false false false false false false false false "random")
           (mkWorld (fun _ => false)
                    (fun s => match s with Transcription => false | _ => true end)
                    (fun _ => true))).
  right. reflexivity.
Defined.

End RunGating.

Section RunOutput.
Import video_processing_optimized pipeline_spec.

Lemma video_stage_keeps_input (world : World) (guard : bool) (name : string)
    (total_steps : Z) (st : Step) :
  (guard = true -> step_ok world st = false) ->
  run_hoare at_input (video_stage world guard name total_steps st)
            (fun _ => at_input) (fun _ => True).
Proof.
  intros Hok. unfold video_stage. destruct guard; [|apply run_hoare_ret; auto].
  eapply run_hoare_bind with (R := fun _ => at_input); [intros s Hs; exact Hs|].
  intros ?; cbv beta.
  eapply run_hoare_bind with (R := fun ok s => at_input s /\ ok = step_ok world st).
  - eapply run_hoare_weaken; [apply (call_keeps world st at_input)| | |]; cbv beta; auto.
  - intros ok s [Hs ->]. rewrite (Hok eq_refl). cbn. exact Hs.
Qed.

Lemma call_keeps_input (world : World) (st : Step) :
  run_hoare at_input (call world st) (fun _ => at_input) (fun _ => True).
Proof.
  intros s Hs. unfold call. destruct (step_raises world st); cbn; auto.
Qed.

Lemma report_returns (name : string) (total_steps : Z) (E : RunState -> Prop) :
  run_hoare (fun _ => True) (report name total_steps) (fun _ _ => True) E.
Proof. intros s _. cbn. exact I. Qed.

Lemma call_returns (world : World) (st : Step) (E : RunState -> Prop) :
  (forall st, step_raises world st = false) ->
  run_hoare (fun _ => True) (call world st) (fun _ _ => True) E.
Proof. intros Hr s _. unfold call. rewrite Hr. cbn. exact I. Qed.

Lemma video_stage_returns (world : World) (guard : bool) (name : string)
    (total_steps : Z) (st : Step) (E : RunState -> Prop) :
  (forall st, step_raises world st = false) ->
  run_hoare (fun _ => True) (video_stage world guard name total_steps st)
            (fun _ _ => True) E.
Proof.
  intros Hr. unfold video_stage. destruct guard; [|apply run_hoare_ret; auto].
  eapply run_hoare_bind; [apply report_returns|]. intros ?; cbv beta.
  eapply run_hoare_bind; [apply call_returns; exact Hr|]. intros ok; cbv beta.
  destruct ok; intros s _; cbn; exact I.
Qed.

(** X18: when no stage replaces the video (each video stage is switched
    off or returns failure), the optimized pipeline returns [None]: it moves
    the input file itself to the final location, and the copy of the
    original that follows finds it gone.  If no call raises before that, the
    completion update has already been printed. *)
Theorem X18_optimized_pipeline_fails_when_video_never_replaced
    (args : Args) (world : World) :
  (forall st, In st video_stages ->
     switched_off args st = true \/ step_ok world st = false) ->
  fst (process_video args world) = None
  /\ ((forall st, step_raises world st = false) ->
      entered "Complete" (snd (process_video args world))).
Proof.
  intros Hoff.
  assert (Hguard : forall st guard, In st video_stages ->
            (guard = true -> switched_off args st = false) ->
            guard = true -> step_ok world st = false).
  { intros st guard Hin Hg Htrue. destruct (Hoff st Hin) as [H|H]; [|exact H].
    rewrite (Hg Htrue) in H. discriminate H. }
  unfold process_video. cbv zeta.
  match goal with
  | |- context [let '(result, s) := ?body ?s0 in _] =>
      assert (Hnone : run_hoare at_input body (fun _ _ => False) (fun _ => True));
      [|assert (Hdone : (forall st, step_raises world st = false) ->
                        run_hoare (fun _ => True) body (fun _ => completed) completed);
        [|pose proof (Hnone s0 eq_refl) as H1;
          pose proof (fun Hr => Hdone Hr s0 I) as H2;
          destruct (body s0) as [[r|] s1]; [contradiction|];
          cbn [fst snd]; split; [reflexivity | exact H2]]]
  end.
  - eapply run_hoare_bind with (R := fun _ => at_input).
    { apply video_stage_keeps_input, (Hguard SilenceRemoval); [simpl; tauto|].
      cbn. intros H. apply negb_true_iff in H. exact H. }
    intros ?; cbv beta.
    eapply run_hoare_bind with (R := fun _ => at_input).
    { apply video_stage_keeps_input, (Hguard TopicCard); [simpl; tauto|].
      cbn. intros H. apply negb_true_iff in H. exact H. }
    intros ?; cbv beta.
    eapply run_hoare_bind with (R := fun _ => at_input).
    { destruct (negb (skip_transcription args)); [|apply run_hoare_ret; auto].
      eapply run_hoare_bind with (R := fun _ => at_input); [intros s Hs; exact Hs|].
      intros ?; cbv beta.
      apply call_keeps_input. }
    intros transcript_path; cbv beta.
    eapply run_hoare_bind with (R := fun _ => at_input).
    { match goal with |- context [if ?g then _ else _] => destruct g end;
        [|apply run_hoare_ret; auto].
      eapply run_hoare_bind with (R := fun _ => at_input); [intros s Hs; exact Hs|].
      intros ?; cbv beta.
      eapply run_hoare_bind; [apply call_keeps_input|].
      intros ?; cbv beta. apply run_hoare_ret. auto. }
    intros ?; cbv beta.
    eapply run_hoare_bind with (R := fun _ => at_input).
    { apply video_stage_keeps_input, (Hguard SubtitleBurning); [simpl; tauto|].
      cbn. intros H. apply andb_true_iff in H as [H _]. apply andb_true_iff in H as [H _].
      apply negb_true_iff in H. exact H. }
    intros ?; cbv beta.
    eapply run_hoare_bind with (R := fun _ => at_input).
    { apply video_stage_keeps_input, (Hguard EnhancedAutoZoom); [simpl; tauto|].
      cbn. intros H. apply negb_true_iff in H. exact H. }
    intros ?; cbv beta.
    eapply run_hoare_bind with (R := fun _ => at_input).
    { apply video_stage_keeps_input, (Hguard MultimediaIntegration); [simpl; tauto|].
      cbn. intros H. apply andb_true_iff in H as [H _]. apply andb_true_iff in H as [H _].
      destruct (skip_broll args), (skip_image_generation args); try reflexivity.
      discriminate H. }
    intros ?; cbv beta.
    eapply run_hoare_bind with (R := fun _ => at_input).
    { apply video_stage_keeps_input, (Hguard BackgroundMusic); [simpl; tauto|].
      cbn. intros H. apply andb_true_iff in H as [H1 H2].
      apply negb_true_iff in H1, H2. rewrite H1, H2. reflexivity. }
    intros ?; cbv beta.
    eapply run_hoare_bind with (R := fun _ => at_input).
    { apply call_keeps_input. }
    intros ?; cbv beta.
    eapply run_hoare_bind with (R := fun _ => at_input); [intros s Hs; exact Hs|].
    intros ? s Hs. unfold at_input in Hs. rewrite Hs. cbn. exact I.
  - intros Hr.
    eapply run_hoare_bind; [apply video_stage_returns; exact Hr|]. intros ?; cbv beta.
    eapply run_hoare_bind; [apply video_stage_returns; exact Hr|]. intros ?; cbv beta.
    eapply run_hoare_bind with (R := fun _ _ => True).
    { destruct (negb (skip_transcription args)); [|apply run_hoare_ret; auto].
      eapply run_hoare_bind; [apply report_returns|]. intros ?; cbv beta.
      apply call_returns. exact Hr. }
    intros transcript_path; cbv beta.
    eapply run_hoare_bind with (R := fun _ _ => True).
    { match goal with |- context [if ?g then _ else _] => destruct g end;
        [|apply run_hoare_ret; auto].
      eapply run_hoare_bind; [apply report_returns|]. intros ?; cbv beta.
      eapply run_hoare_bind; [apply call_returns; exact Hr|]. intros ?; cbv beta.
      apply run_hoare_ret. auto. }
    intros ?; cbv beta.
    eapply run_hoare_bind; [apply video_stage_returns; exact Hr|]. intros ?; cbv beta.
    eapply run_hoare_bind; [apply video_stage_returns; exact Hr|]. intros ?; cbv beta.
    eapply run_hoare_bind; [apply video_stage_returns; exact Hr|]. intros ?; cbv beta.
    eapply run_hoare_bind; [apply video_stage_returns; exact Hr|]. intros ?; cbv beta.
    eapply run_hoare_bind; [apply call_returns; exact Hr|]. intros ?; cbv beta.
    eapply run_hoare_bind with (R := fun _ => completed).
    { intros s _. cbn. unfold completed, entered. cbn. rewrite map_app.
      apply in_or_app. right. left. reflexivity. }
    intros ? s Hs. destruct (current_is_input s); [exact Hs|].
    unfold bind, call. rewrite Hr. cbn. exact Hs.
Qed.

Lemma X18_optimized_pipeline_fails_when_video_never_replaced_witness :
  fst (process_video
         (mkArgs true true true true true true true true true true "none")
         (mkWorld (fun _ => false) (fun _ => true) (fun _ => true))) = None
  /\ ((forall st, (fun _ : Step => false) st = false) ->
      entered "Complete"
        (snd (process_video
                (mkArgs true true true true true true true true true true "none")
                (mkWorld (fun _ => false) (fun _ => true) (fun _ => true))))).
Proof.
  apply (X18_optimized_pipeline_fails_when_video_never_replaced
           (mkArgs true true true true true true true true true true "none")
           (mkWorld (fun _ => false) (fun _ => true) (fun _ => true))).
  intros st Hin. left. simpl in Hin.
  repeat destruct Hin as [<-|Hin]; try reflexivity. contradiction.
Defined.

End RunOutput.

Section RunProgress.
Import video_processing video_processing_optimized pipeline_spec.

Lemma numbered_mono (total_steps b b' : Z) (s : RunState) :
  (b <= b')%Z -> numbered total_steps b s -> numbered total_steps b' s.
Proof. unfold numbered. intros Hb (H1 & H2 & H3). repeat split; try tauto; lia. Qed.

Lemma b2z_range (f : bool) : (0 <= b2z f <= 1)%Z.
Proof. destruct f; cbn; lia. Qed.

Lemma report_numbered (total_steps b : Z) (name : string) (E : RunState -> Prop) :
  run_hoare (numbered total_steps b) (report name total_steps)
            (fun _ => numbered total_steps (b + 1)) E.
Proof.
  intros s (Hc & Hm & Hall). cbn. unfold numbered. cbn.
  split; [lia|]. split.
  - rewrite map_app, Hm. cbn [map current send_step_progress].
    replace (Z.to_nat (current_step s + 1)) with (S (Z.to_nat (current_step s))) by lia.
    rewrite seq_S, map_app. cbn [map]. do 2 f_equal. lia.
  - apply Forall_app. split; [exact Hall|]. constructor; [reflexivity | constructor].
Qed.

Lemma call_numbered (world : World) (st : Step) (total_steps b : Z) :
  run_hoare (numbered total_steps b) (call world st)
            (fun _ => numbered total_steps b) (numbered total_steps b).
Proof.
  intros s Hs. unfold call. destruct (step_raises world st); cbn; exact Hs.
Qed.

Lemma video_stage_numbered (world : World) (guard f : bool) (name : string)
    (total_steps b : Z) (st : Step) :
  (guard = true -> f = true) ->
  run_hoare (numbered total_steps b) (video_stage world guard name total_steps st)
            (fun _ => numbered total_steps (b + b2z f))
            (numbered total_steps (b + b2z f)).
Proof.
  intros Hf. unfold video_stage. destruct guard.
  - rewrite (Hf eq_refl). cbn [b2z].
    eapply run_hoare_bind.
    { apply report_numbered. }
    intros ?; cbv beta.
    eapply run_hoare_bind; [apply call_numbered|]. intros ok; cbv beta.
    destruct ok; intros s Hs; cbn; exact Hs.
  - apply run_hoare_ret. intros s Hs.
    apply (numbered_mono total_steps b); [pose proof (b2z_range f); lia | exact Hs].
Qed.

Lemma counted_length (condition : bool) (name : string) :
  Z.of_nat (List.length (counted condition name)) = b2z condition.
Proof. destruct condition; reflexivity. Qed.

(** The updates of every run of [process_video], whatever is skipped and
    whatever fails. *)
Lemma process_video_progress_log (args : Args) (world : World) :
  exists total_steps complete,
    progress_log total_steps complete (snd (process_video args world))
    /\ (fst (process_video args world) <> None -> complete = true).
Proof.
  unfold process_video. cbv zeta.
  remember (negb (skip_silence args)) as f1 eqn:Ef1.
  remember (negb (skip_topic_card args)) as f2 eqn:Ef2.
  remember (negb (skip_transcription args)) as f3 eqn:Ef3.
  remember (negb (skip_gpt_correct args)) as f4 eqn:Ef4.
  remember (negb (skip_subtitle_burn args)) as f5 eqn:Ef5.
  remember (negb (skip_dynamic_zoom args || skip_enhanced_auto_zoom args)) as f6 eqn:Ef6.
  remember (negb (skip_broll args) || negb (skip_image_generation args)) as f7 eqn:Ef7.
  remember (negb (skip_background_music args)) as f8 eqn:Ef8.
  match goal with
  | |- context [Z.of_nat (List.length ?l)] => set (T := Z.of_nat (List.length l))
  end.
  assert (HT : T = (b2z f1 + b2z f2 + b2z f3 + b2z f4 + b2z f5 + b2z f6 + b2z f7
                    + b2z f8)%Z).
  { unfold T. rewrite !length_app, !Nat2Z.inj_add, !counted_length. lia. }
  pose proof (b2z_range f1). pose proof (b2z_range f2). pose proof (b2z_range f3).
  pose proof (b2z_range f4). pose proof (b2z_range f5). pose proof (b2z_range f6).
  pose proof (b2z_range f7). pose proof (b2z_range f8).
  exists T.
  match goal with
  | |- context [let '(result, s) := ?body ?s0 in _] =>
      assert (Hb : run_hoare (numbered T 0) body
                     (fun _ s => progress_log T true (printed s))
                     (fun s => exists complete, progress_log T complete (printed s)));
      [|assert (Hstart : numbered T 0 s0)
          by (unfold numbered; cbn; repeat split; [lia | lia | constructor]);
        specialize (Hb s0 Hstart); destruct (body s0) as [[r|] s1]; cbn [fst snd];
        [exists true; split; [exact Hb | reflexivity]
        |destruct Hb as [complete Hb]; exists complete; split; [exact Hb | congruence]]]
  end.
  assert (Hopen : forall b s, (b <= T)%Z -> numbered T b s ->
            exists complete, progress_log T complete (printed s)).
  { intros b s Hb (Hc & Hm & Hall). exists false, (printed s), (current_step s).
    rewrite app_nil_r. repeat split; try assumption; lia. }
  assert (Hweak : forall (A : Type) (m : Run A) b b', (b' <= T)%Z ->
            run_hoare (numbered T b) m (fun _ => numbered T b') (numbered T b') ->
            run_hoare (numbered T b) m (fun _ => numbered T b')
              (fun s => exists complete, progress_log T complete (printed s))).
  { intros A m b b' Hb' Hm. eapply run_hoare_weaken; [exact Hm| | |]; cbv beta; auto.
    intros s Hs. apply (Hopen b' s Hb' Hs). }
  eapply run_hoare_bind.
  { apply Hweak; [|apply (video_stage_numbered world _ f1); auto]. lia. }
  intros ?; cbv beta.
  eapply run_hoare_bind.
  { apply Hweak; [|apply (video_stage_numbered world _ f2); auto]. lia. }
  intros ?; cbv beta.
  eapply run_hoare_bind with (R := fun _ => numbered T (0 + b2z f1 + b2z f2 + b2z f3)).
  { apply Hweak; [lia|]. destruct f3; cbn [b2z].
    - eapply run_hoare_bind.
      { apply report_numbered. }
      intros ?; cbv beta. apply call_numbered.
    - apply run_hoare_ret. intros s Hs.
      refine (numbered_mono T _ _ s _ Hs); cbn [b2z]; lia. }
  intros transcript_path; cbv beta.
  eapply run_hoare_bind
    with (R := fun _ => numbered T (0 + b2z f1 + b2z f2 + b2z f3 + b2z f4)).
  { apply Hweak; [lia|].
    match goal with |- context [if ?g then _ else _] => destruct g eqn:Eg end.
    - apply andb_true_iff in Eg as [Eg _]. apply andb_true_iff in Eg as [Eg _].
      rewrite Eg. cbn [b2z].
      eapply run_hoare_bind.
      { apply report_numbered. }
      intros ?; cbv beta.
      eapply run_hoare_bind; [apply call_numbered|]. intros ?; cbv beta.
      apply run_hoare_ret. auto.
    - apply run_hoare_ret. intros s Hs.
      refine (numbered_mono T _ _ s _ Hs); cbn [b2z]; lia. }
  intros ?; cbv beta.
  eapply run_hoare_bind.
  { apply Hweak; [|apply (video_stage_numbered world _ f5)]; [lia|].
    intros Hg. apply andb_true_iff in Hg as [Hg _].
    apply andb_true_iff in Hg as [Hg _]. exact Hg. }
  intros ?; cbv beta.
  eapply run_hoare_bind.
  { apply Hweak; [|apply (video_stage_numbered world _ f6); auto]. lia. }
  intros ?; cbv beta.
  eapply run_hoare_bind.
  { apply Hweak; [|apply (video_stage_numbered world _ f7)]; [lia|].
    intros Hg. apply andb_true_iff in Hg as [Hg _].
    apply andb_true_iff in Hg as [Hg _]. exact Hg. }
  intros ?; cbv beta.
  eapply run_hoare_bind.
  { apply Hweak; [|apply (video_stage_numbered world _ f8)]; [lia|].
    intros Hg. apply andb_true_iff in Hg as [Hg _]. exact Hg. }
  intros ?; cbv beta.
  eapply run_hoare_bind.
  { apply Hweak; [|apply call_numbered]. lia. }
  intros ?; cbv beta.
  eapply run_hoare_bind with (R := fun _ s => progress_log T true (printed s)).
  { intros s (Hc & Hm & Hall). cbn. exists (printed s), (current_step s).
    repeat split; try assumption; lia. }
  intros ? s Hs. destruct (current_is_input s); cbn.
  - exists true. exact Hs.
  - unfold bind, call. destruct (step_raises world CopyOriginal); cbn.
    + exists true. exact Hs.
    + exact Hs.
Qed.

Lemma percentage_spec (name : string) (c T : Z) :
  (0 <= c <= T)%Z ->
  (0 <= percentage (send_step_progress name c T) <= 100)%Z
  /\ (forall name' c', (c <= c' <= T)%Z ->
        (percentage (send_step_progress name c T)
         <= percentage (send_step_progress name' c' T))%Z).
Proof.
  intros Hc. cbn [percentage send_step_progress].
  destruct (0 <? T)%Z eqn:ET; [|split; [lia | intros; lia]].
  apply Z.ltb_lt in ET.
  assert (HT : 0 < inject_Z T) by (change 0 with (inject_Z 0); rewrite <- Zlt_Qlt; exact ET).
  assert (Hi : 0 < / inject_Z T) by (apply Qinv_lt_0_compat; exact HT).
  assert (Hone : inject_Z T * / inject_Z T == 1) by (apply Qmult_inv_r; lra).
  assert (Hx : forall k, (0 <= k <= T)%Z ->
            0 <= inject_Z k / inject_Z T * 100 /\ inject_Z k / inject_Z T * 100 <= 100).
  { intros k Hk. unfold Qdiv.
    assert (H0 : 0 <= inject_Z k)
      by (change 0 with (inject_Z 0); rewrite <- Zle_Qle; lia).
    assert (H1 : inject_Z k <= inject_Z T) by (rewrite <- Zle_Qle; lia).
    assert (H2 : 0 <= inject_Z k * / inject_Z T) by (apply Qmult_le_0_compat; lra).
    assert (H3 : inject_Z k * / inject_Z T <= inject_Z T * / inject_Z T)
      by (apply Qmult_le_compat_r; lra).
    split; lra. }
  assert (Hfloor : forall k, (0 <= k <= T)%Z ->
            py_int (inject_Z k / inject_Z T * 100) = Qfloor (inject_Z k / inject_Z T * 100)).
  { intros k Hk. unfold py_int. destruct (Hx k Hk) as [H0 _].
    apply Qle_bool_iff in H0. rewrite H0. reflexivity. }
  split.
  - rewrite (Hfloor c Hc). destruct (Hx c Hc) as [H0 H1]. split.
    + change 0%Z with (Qfloor 0). apply Qfloor_resp_le. exact H0.
    + change 100%Z with (Qfloor 100). apply Qfloor_resp_le. exact H1.
  - intros name' c' Hc'. rewrite (Hfloor c Hc), (Hfloor c') by lia.
    apply Qfloor_resp_le. unfold Qdiv.
    assert (H1 : inject_Z c <= inject_Z c') by (rewrite <- Zle_Qle; lia).
    assert (H3 : inject_Z c * / inject_Z T <= inject_Z c' * / inject_Z T)
      by (apply Qmult_le_compat_r; lra).
    lra.
Qed.

Lemma nondecreasing_snoc (l : list Z) (y : Z) :
  nondecreasing l -> (forall x, In x l -> (x <= y)%Z) -> nondecreasing (l ++ [y]).
Proof.
  induction l as [|x rest IH]; intros Hl Hy; cbn [app]; [cbn; auto|].
  destruct Hl as [Hx Hrest]. split.
  - destruct rest as [|z rest']; cbn [app]; [apply Hy; left; reflexivity | exact Hx].
  - apply IH; [exact Hrest|]. intros z Hz. apply Hy. right. exact Hz.
Qed.

Lemma nondecreasing_map_seq (f : nat -> Z) (len : nat) : forall a,
  (forall k, (a <= k)%nat -> (S k < a + len)%nat -> (f k <= f (S k))%Z) ->
  nondecreasing (map f (seq a len)).
Proof.
  induction len as [|len IH]; intros a Hf; cbn [seq map]; [exact I|].
  split.
  - destruct len; cbn [seq map]; [exact I|]. apply Hf; lia.
  - apply IH. intros k Hk1 Hk2. apply Hf; lia.
Qed.

(** X19: in every run of the optimized pipeline, whatever is skipped and
    whatever fails, the progress updates are sound: the step number of an
    update never exceeds the total it is printed with, the percentage lies
    between 0 and 100, neither the step numbers nor the percentages ever go
    down, and a run that returns a path has printed the completion update
    last. *)
Theorem X19_optimized_pipeline_progress_is_sound (args : Args) (world : World) :
  let run := process_video args world in
  Forall (fun p => (0 <= current p <= total p)%Z /\ (0 <= percentage p <= 100)%Z)
         (snd run)
  /\ nondecreasing (map current (snd run))
  /\ nondecreasing (map percentage (snd run))
  /\ (fst run <> None ->
      exists reports last,
        snd run = reports ++ [last] /\ step last = "Complete"%string
        /\ current last = total last).
Proof.
  cbv zeta.
  destruct (process_video_progress_log args world)
    as (T & complete & (reports & n & Hn & Hcur & Hall & Hlog) & Hcomplete).
  rewrite Hlog. clear Hlog.
  assert (Hin : forall p, In p reports ->
            exists k, (1 <= k <= Z.to_nat n)%nat
                      /\ p = send_step_progress (step p) (Z.of_nat k) T).
  { intros p Hp. rewrite Forall_forall in Hall. pose proof (Hall p Hp) as Hp'.
    assert (Hc : In (current p) (map current reports)) by (apply in_map; exact Hp).
    rewrite Hcur in Hc. apply in_map_iff in Hc. destruct Hc as (k & Hk & Hseq).
    apply in_seq in Hseq. exists k. split; [lia|]. rewrite Hk. exact Hp'. }
  assert (Hpct : map percentage reports
                 = map (fun k => percentage (send_step_progress "" (Z.of_nat k) T))
                       (seq 1 (Z.to_nat n))).
  { rewrite <- (map_map Z.of_nat (fun c => percentage (send_step_progress "" c T))).
    rewrite <- Hcur, map_map. apply map_ext_in. intros p Hp.
    rewrite Forall_forall in Hall. rewrite (Hall p Hp) at 1. reflexivity. }
  split; [|split; [|split]].
  - apply Forall_app. split.
    + apply Forall_forall. intros p Hp. destruct (Hin p Hp) as (k & Hk & Hp').
      rewrite Hp'. split.
      * cbn [current total send_step_progress]. lia.
      * apply (percentage_spec (step p) (Z.of_nat k) T). lia.
    + destruct complete; constructor; [|constructor]. split.
      * cbn [current total send_step_progress]. lia.
      * apply (percentage_spec "Complete" T T). lia.
  - rewrite map_app, Hcur.
    assert (Hseq : nondecreasing (map Z.of_nat (seq 1 (Z.to_nat n))))
      by (apply nondecreasing_map_seq; intros; lia).
    destruct complete; [|rewrite app_nil_r; exact Hseq].
    apply nondecreasing_snoc; [exact Hseq|]. cbn [current send_step_progress].
    intros x Hx. apply in_map_iff in Hx. destruct Hx as (k & <- & Hk).
    apply in_seq in Hk. lia.
  - rewrite map_app, Hpct.
    assert (Hseq : nondecreasing
                     (map (fun k => percentage (send_step_progress "" (Z.of_nat k) T))
                          (seq 1 (Z.to_nat n)))).
    { apply nondecreasing_map_seq. intros k Hk1 Hk2.
      apply (percentage_spec "" (Z.of_nat k) T); lia. }
    destruct complete; [|rewrite app_nil_r; exact Hseq].
    apply nondecreasing_snoc; [exact Hseq|].
    intros x Hx. apply in_map_iff in Hx. destruct Hx as (k & <- & Hk).
    apply in_seq in Hk. cbn [map].
    apply (percentage_spec "" (Z.of_nat k) T); lia.
  - intros Hsome. rewrite (Hcomplete Hsome).
    exists reports, (send_step_progress "Complete" T T). repeat split.
Qed.

End RunProgress.

(** ** The stage orchestrator of video_processing.py *)

Section OrchestratorGating.
Import video_processing.

(** X20: in [process_video] of video_processing.py a transcription that
    was attempted and failed keeps GPT correction and subtitle burning from
    running and B-roll out of the multimedia stage, whatever the flags; the
    AI highlights stage is kept from running only when
    [use_ai_word_highlighting] is off. *)
Theorem X20_failed_transcription_skips_dependent_stages
    (flags : Flags) (world : World) :
  skip_transcription flags = false ->
  whisper_returns (whisper world) = false ->
  let stages := fst (process_video flags world) in
  ~ In GPTCorrection stages
  /\ ~ In SubtitleBurning stages
  /\ (forall with_images, ~ In (Multimedia true with_images) stages)
  /\ (use_ai_word_highlighting flags = false -> ~ In AIHighlights stages).
Proof.
  intros Hskip Hfail.
  destruct (failed_transcription_disables flags world Hskip Hfail) as (H1 & H2 & H3).
  cbv zeta. split; [exact H1|]. split; [exact H2|]. split; [exact H3|].
  intros Hw. unfold process_video. rewrite Hskip, Hfail, Hw.
  cbn [negb andb]. rewrite !orb_true_r. cbn [negb andb orb].
  cbn [fst]. intros H. rewrite ?in_app_iff, ?in_when in H.
  intuition (try discriminate).
Qed.

Lemma X20_failed_transcription_skips_dependent_stages_witness :
  let stages :=
    fst (process_video default_flags
           (mkWorld (mkTranscriptFile true true) FailedBeforeWrite false false
                    FailedBeforeWrite)) in
  ~ In GPTCorrection stages
  /\ ~ In SubtitleBurning stages
  /\ (forall with_images, ~ In (Multimedia true with_images) stages)
  /\ (use_ai_word_highlighting default_flags = false -> ~ In AIHighlights stages).
Proof.
  apply (X20_failed_transcription_skips_dependent_stages default_flags
           (mkWorld (mkTranscriptFile true true) FailedBeforeWrite false false
                    FailedBeforeWrite)); reflexivity.
Defined.

(** X21: [process_video] of video_processing.py never returns a final
    video when it is run with transcription, GPT correction, B-roll and
    image generation all skipped, no non-empty transcript left by an
    earlier run, and a highlights guard that passes (highlights not
    skipped, or word highlighting on).  The touched transcript file exists
    and stays empty, so nothing binds [transcript_text] before the AI
    highlights stage reads it; at most audio enhancement and silence
    removal have run by then. *)
Theorem X21_skipped_transcription_never_finishes
    (flags : Flags) (world : World) :
  skip_transcription flags = true ->
  file_exists (transcript_before world) && file_nonempty (transcript_before world)
    = false ->
  skip_gpt_correct flags = true ->
  skip_broll flags = true -> skip_image_generation flags = true ->
  skip_ai_highlights flags = false \/ use_ai_word_highlighting flags = true ->
  snd (process_video flags world) <> Finished
  /\ (forall stage, In stage (fst (process_video flags world)) ->
       stage = AudioEnhancement \/ stage = SilenceRemoval).
Proof.
  intros Hskip Hempty Hgpt Hbroll Himg Hguard. unfold process_video.
  rewrite Hskip, Hgpt, Hbroll, Himg. cbn [negb andb orb].
  unfold touch. cbn [file_exists file_nonempty]. rewrite Hempty.
  rewrite !andb_false_r. cbn [andb orb when app].
  rewrite !orb_false_r.
  assert (Hg : negb (skip_ai_highlights flags) || use_ai_word_highlighting flags = true).
  { destruct Hguard as [H|H]; rewrite H; [reflexivity | apply orb_true_r]. }
  rewrite Hg. cbn [file_exists negb andb fst snd]. split; [discriminate|].
  intros stage Hin. rewrite !app_nil_r in Hin. apply in_app_or in Hin.
  destruct Hin as [Hin|Hin]; [left | right];
    unfold when in Hin;
    match type of Hin with
    | In _ (if ?b then _ else _) => destruct b
    end; cbn in Hin; intuition.
Qed.

Lemma X21_skipped_transcription_never_finishes_witness :
  snd (process_video
         (mkFlags false false true true false false true false false false false
                  false false true true false false)
         (mkWorld (mkTranscriptFile false false) FailedBeforeWrite false false
                  FailedBeforeWrite)) <> Finished
  /\ (forall stage,
        In stage (fst (process_video
                         (mkFlags false false true true false false true false false
                                  false false false false true true false false)
                         (mkWorld (mkTranscriptFile false false) FailedBeforeWrite false
                                  false FailedBeforeWrite))) ->
        stage = AudioEnhancement \/ stage = SilenceRemoval).
Proof.
  apply (X21_skipped_transcription_never_finishes
           (mkFlags false false true true false false true false false false false
                    false false true true false false)
           (mkWorld (mkTranscriptFile false false) FailedBeforeWrite false false
                    FailedBeforeWrite)); try reflexivity.
  right. reflexivity.
Defined.

End OrchestratorGating.

(** ** Caption timestamps: when they are well formed, and reading them back *)

Section SrtRoundTrip.
Import video_processing srt_spec srt_parsing.

(** The fields of a timestamp for a time from 0 up to 100 hours. *)
Lemma format_time_srt_fields (t : Q) :
  0 <= t -> t < 360000 ->
  let seconds := Qfloor t in
  let millisec := py_round ((t - inject_Z seconds) * 1000) in
  _format_time_srt t
  = (format_0d 2 (seconds / 60 / 60) ++ ":" ++ format_0d 2 ((seconds / 60) mod 60)
     ++ ":" ++ format_0d 2 (seconds mod 60) ++ "," ++ format_0d 3 millisec)%string
  /\ (0 <= seconds / 60 / 60 < 100)%Z
  /\ (0 <= (seconds / 60) mod 60 < 60)%Z
  /\ (0 <= seconds mod 60 < 60)%Z
  /\ (seconds = seconds / 60 / 60 * 3600 + (seconds / 60) mod 60 * 60 + seconds mod 60)%Z
  /\ (0 <= millisec <= 1000)%Z.
Proof.
  intros H0 Hmax. cbv zeta.
  assert (Hint : py_int t = Qfloor t).
  { unfold py_int. apply Qle_bool_iff in H0. rewrite H0. reflexivity. }
  assert (Hf0 : (0 <= Qfloor t)%Z).
  { change 0%Z with (Qfloor 0). apply Qfloor_resp_le. exact H0. }
  assert (Hf1 : (Qfloor t < 360000)%Z).
  { assert (Hq : inject_Z (Qfloor t) < 360000) by (pose proof (Qfloor_le t); lra).
    rewrite (Zlt_Qlt (Qfloor t) 360000). exact Hq. }
  split; [unfold _format_time_srt; rewrite Hint; reflexivity|].
  split; [split; [apply Z.div_pos; [apply Z.div_pos; lia | lia]
                 |apply Z.div_lt_upper_bound; [lia|]; apply Z.div_lt_upper_bound; lia]|].
  split; [apply Z.mod_pos_bound; lia|].
  split; [apply Z.mod_pos_bound; lia|].
  split.
  - pose proof (Z.div_mod (Qfloor t) 60 ltac:(lia)).
    pose proof (Z.div_mod (Qfloor t / 60) 60 ltac:(lia)). lia.
  - pose proof (Qfloor_le t) as Hlo. pose proof (Qlt_floor t) as Hhi.
    rewrite inject_Z_plus in Hhi. change (inject_Z 1) with 1 in Hhi.
    destruct (py_round_near ((t - inject_Z (Qfloor t)) * 1000)) as [Hn1 Hn2].
    split.
    + assert (Hq : inject_Z (-1) < inject_Z (py_round ((t - inject_Z (Qfloor t)) * 1000)))
        by (change (inject_Z (-1)) with (-1); lra).
      rewrite <- Zlt_Qlt in Hq. lia.
    + assert (Hq : inject_Z (py_round ((t - inject_Z (Qfloor t)) * 1000)) < inject_Z 1001)
        by (change (inject_Z 1001) with 1001; lra).
      rewrite <- Zlt_Qlt in Hq. lia.
Qed.

(** The millisecond field overflows exactly when the fraction of the time
    is 0.9995 or more. *)
Lemma millisec_overflow (t : Q) :
  let millisec := py_round ((t - inject_Z (Qfloor t)) * 1000) in
  (millisec < 1000)%Z <-> t - inject_Z (Qfloor t) < 9995 # 10000.
Proof.
  cbv zeta. set (x := (t - inject_Z (Qfloor t)) * 1000).
  pose proof (Qfloor_le t) as Hlo. pose proof (Qlt_floor t) as Hhi.
  rewrite inject_Z_plus in Hhi. change (inject_Z 1) with 1 in Hhi.
  destruct (py_round_near x) as [Hn1 Hn2].
  split.
  - intros Hms. apply Qnot_le_lt. intros Hge.
    assert (Hx : 9995 # 10 <= x) by (unfold x; lra).
    assert (Hx1 : x < 1000) by (unfold x; lra).
    pose proof (Qfloor_le x) as Hfl. pose proof (Qlt_floor x) as Hfh.
    rewrite inject_Z_plus in Hfh. change (inject_Z 1) with 1 in Hfh.
    assert (Hf : Qfloor x = 999%Z).
    { assert (H1 : inject_Z (Qfloor x) < inject_Z 1000)
        by (change (inject_Z 1000) with 1000; lra).
      assert (H2 : inject_Z 998 < inject_Z (Qfloor x))
        by (change (inject_Z 998) with 998; lra).
      rewrite <- Zlt_Qlt in H1, H2. lia. }
    revert Hms. unfold py_round. cbv zeta. fold x. rewrite Hf.
    change (inject_Z 999) with 999.
    destruct (Qlt_bool (x - 999) (1 # 2)) eqn:E1;
      [apply Qlt_bool_iff in E1; lra|].
    destruct (Qlt_bool (1 # 2) (x - 999)); cbn; lia.
  - intros Hfrac.
    assert (Hq : inject_Z (py_round x) < inject_Z 1000)
      by (change (inject_Z 1000) with 1000; unfold x in *; lra).
    rewrite <- Zlt_Qlt in Hq. exact Hq.
Qed.

Lemma four_digit_field_is_malformed (h m s : string) :
  two_digits h = true -> two_digits m = true -> two_digits s = true ->
  is_srt_timestamp (h ++ ":" ++ m ++ ":" ++ s ++ "," ++ "1000") = false.
Proof.
  unfold two_digits, is_srt_timestamp.
  rewrite !list_ascii_of_string_app.
  destruct (list_ascii_of_string h) as [|h1 [|h2 [|]]]; try discriminate.
  destruct (list_ascii_of_string m) as [|m1 [|m2 [|]]]; try discriminate.
  destruct (list_ascii_of_string s) as [|s1 [|s2 [|]]]; try discriminate.
  reflexivity.
Qed.

(** X22: for a time from 0 up to 100 hours [_format_time_srt] writes the
    exact shape HH:MM:SS,mmm when the fraction of the time is at most
    0.9994 s, and a timestamp that is not of that shape, its millisecond
    field reading 1000, when the fraction is 0.9995 s or more.  (In
    between, how the product [(t - int(t)) * 1000] rounds decides.) *)
Theorem X22_srt_timestamp_well_formed_up_to_9994_not_from_9995 (t : Q) :
  0 <= t -> t < 360000 ->
  (t - inject_Z (Qfloor t) <= 9994 # 10000 ->
   is_srt_timestamp (_format_time_srt t) = true)
  /\ (9995 # 10000 <= t - inject_Z (Qfloor t) ->
      is_srt_timestamp (_format_time_srt t) = false).
Proof.
  intros H0 Hmax.
  destruct (format_time_srt_fields t H0 Hmax) as (Hfmt & Hh & Hm & Hs & _ & Hms).
  cbv zeta in Hfmt, Hms.
  pose proof (millisec_overflow t) as Hov. cbv zeta in Hov.
  split.
  - intros Hfrac.
    assert (Hlt : (py_round ((t - inject_Z (Qfloor t)) * 1000) < 1000)%Z)
      by (apply Hov; lra).
    rewrite Hfmt. apply fields_make_timestamp.
    + apply two_digits_below_100. lia.
    + apply two_digits_below_100. lia.
    + apply two_digits_below_100. lia.
    + apply three_digits_below_1000. lia.
  - intros Hfrac.
    assert (E : py_round ((t - inject_Z (Qfloor t)) * 1000) = 1000%Z).
    { destruct (Z.eq_dec (py_round ((t - inject_Z (Qfloor t)) * 1000)) 1000) as [E|E];
        [exact E|].
      assert (Hlt : (py_round ((t - inject_Z (Qfloor t)) * 1000) < 1000)%Z) by lia.
      apply Hov in Hlt. lra. }
    rewrite Hfmt, E. change (format_0d 3 1000) with "1000"%string.
    apply four_digit_field_is_malformed; apply two_digits_below_100; lia.
Qed.

Lemma X22_srt_timestamp_well_formed_up_to_9994_not_from_9995_witness :
  ((7323 + (1 # 2)) - inject_Z (Qfloor (7323 + (1 # 2))) <= 9994 # 10000 ->
   is_srt_timestamp (_format_time_srt (7323 + (1 # 2))) = true)
  /\ (9995 # 10000 <= (7323 + (1 # 2)) - inject_Z (Qfloor (7323 + (1 # 2))) ->
      is_srt_timestamp (_format_time_srt (7323 + (1 # 2))) = false).
Proof.
  apply (X22_srt_timestamp_well_formed_up_to_9994_not_from_9995 (7323 + (1 # 2)));
    [discriminate | reflexivity].
Defined.

Lemma digit_is_no_separator (c : ascii) :
  is_digit c = true ->
  Ascii.eqb c ":" = false /\ Ascii.eqb c "," = false /\ Ascii.eqb c "." = false.
Proof.
  destruct c as [[] [] [] [] [] [] [] []]; intros H; try discriminate H;
    repeat split; reflexivity.
Qed.

Lemma two_digits_inv (s : string) :
  two_digits s = true ->
  exists a b, s = String a (String b EmptyString)
              /\ is_digit a = true /\ is_digit b = true.
Proof.
  unfold two_digits. intros H.
  rewrite <- (string_of_list_ascii_of_string s).
  destruct (list_ascii_of_string s) as [|a [|b [|]]]; try discriminate.
  apply andb_true_iff in H as [Ha Hb]. exists a, b. auto.
Qed.

Lemma three_digits_inv (s : string) :
  three_digits s = true ->
  exists a b c, s = String a (String b (String c EmptyString))
                /\ is_digit a = true /\ is_digit b = true /\ is_digit c = true.
Proof.
  unfold three_digits. intros H.
  rewrite <- (string_of_list_ascii_of_string s).
  destruct (list_ascii_of_string s) as [|a [|b [|c [|]]]]; try discriminate.
  apply andb_true_iff in H as [H Hc]. apply andb_true_iff in H as [Ha Hb].
  exists a, b, c. auto.
Qed.

(** The parts [_parse_srt_time] finds in a well-formed timestamp. *)
Lemma timestamp_parts (h m s f : string) :
  two_digits h = true -> two_digits m = true -> two_digits s = true ->
  three_digits f = true ->
  split ":" (replace "," "." (h ++ ":" ++ m ++ ":" ++ s ++ "," ++ f))
  = [h; m; (s ++ "." ++ f)%string].
Proof.
  intros Hh Hm Hs Hf.
  destruct (two_digits_inv h Hh) as (h1 & h2 & -> & Hh1 & Hh2).
  destruct (two_digits_inv m Hm) as (m1 & m2 & -> & Hm1 & Hm2).
  destruct (two_digits_inv s Hs) as (s1 & s2 & -> & Hs1 & Hs2).
  destruct (three_digits_inv f Hf) as (f1 & f2 & f3 & -> & Hf1 & Hf2 & Hf3).
  destruct (digit_is_no_separator h1 Hh1) as (A1 & B1 & _).
  destruct (digit_is_no_separator h2 Hh2) as (A2 & B2 & _).
  destruct (digit_is_no_separator m1 Hm1) as (A3 & B3 & _).
  destruct (digit_is_no_separator m2 Hm2) as (A4 & B4 & _).
  destruct (digit_is_no_separator s1 Hs1) as (A5 & B5 & _).
  destruct (digit_is_no_separator s2 Hs2) as (A6 & B6 & _).
  destruct (digit_is_no_separator f1 Hf1) as (A7 & B7 & _).
  destruct (digit_is_no_separator f2 Hf2) as (A8 & B8 & _).
  destruct (digit_is_no_separator f3 Hf3) as (A9 & B9 & _).
  cbn [append replace].
  rewrite B1, B2, B3, B4, B5, B6, B7, B8, B9.
  change (Ascii.eqb ":" ",") with false. change (Ascii.eqb "," ",") with true.
  cbv iota. cbn [split].
  rewrite A1, A2, A3, A4, A5, A6, A7, A8, A9.
  change (Ascii.eqb ":" ":") with true. change (Ascii.eqb "." ":") with false.
  reflexivity.
Qed.

(** X23: a caption time written by [_format_time_srt] is read back by
    [_parse_srt_time] to within a millisecond: for a time from 0 up to 100
    hours whose fraction is at most 0.9994 s, and for [int] and [float]
    that read zero-padded decimal numerals as Python's do, [float] to
    within a millionth, parsing the formatted time raises nothing and
    returns a value at most 0.001 s from the time. *)
Theorem X23_srt_time_round_trip
    (int : string -> option Z) (float : string -> option Q) (t : Q) :
  (forall n, (0 <= n < 100)%Z -> int (format_0d 2 n) = Some n) ->
  (forall s ms, (0 <= s < 100)%Z -> (0 <= ms < 1000)%Z ->
     exists q, float (format_0d 2 s ++ "." ++ format_0d 3 ms)%string = Some q
               /\ Qabs (q - (inject_Z s + inject_Z ms / 1000)) <= 1 # 1000000) ->
  0 <= t -> t < 360000 -> t - inject_Z (Qfloor t) <= 9994 # 10000 ->
  exists v,
    _parse_srt_time int float (_format_time_srt t) = Some v
    /\ t - (1 # 1000) <= v /\ v <= t + (1 # 1000).
Proof.
  intros Hint Hfloat H0 Hmax Hfrac.
  destruct (format_time_srt_fields t H0 Hmax) as (Hfmt & Hh & Hm & Hs & Hsum & Hms).
  cbv zeta in Hfmt, Hms, Hsum, Hh, Hm, Hs.
  assert (Hlt : t - inject_Z (Qfloor t) < 9995 # 10000) by lra.
  apply millisec_overflow in Hlt. cbv zeta in Hlt.
  set (ms := py_round ((t - inject_Z (Qfloor t)) * 1000)) in *.
  set (hours := (Qfloor t / 60 / 60)%Z) in *.
  set (minutes := ((Qfloor t / 60) mod 60)%Z) in *.
  set (seconds := (Qfloor t mod 60)%Z) in *.
  destruct (Hfloat seconds ms ltac:(lia) ltac:(lia)) as (q & Hq & Hqv).
  exists (inject_Z hours * 3600 + inject_Z minutes * 60 + q).
  split.
  - unfold _parse_srt_time. cbv zeta. rewrite Hfmt.
    rewrite timestamp_parts;
      [|apply two_digits_below_100; lia ..|apply three_digits_below_1000; lia].
    cbn [nth_error].
    rewrite (Hint hours), (Hint minutes), Hq by lia. reflexivity.
  - assert (Hfl : inject_Z (Qfloor t)
                  == inject_Z hours * 3600 + inject_Z minutes * 60 + inject_Z seconds).
    { rewrite Hsum at 1. rewrite !inject_Z_plus, !inject_Z_mult. reflexivity. }
    destruct (py_round_near ((t - inject_Z (Qfloor t)) * 1000)) as [Hn1 Hn2].
    fold ms in Hn1, Hn2.
    assert (Hdiv : inject_Z ms / 1000 == inject_Z ms * (1 # 1000))
      by (unfold Qdiv; reflexivity).
    rewrite Hdiv in Hqv. apply Qabs_Qle_condition in Hqv. destruct Hqv as [Hq1 Hq2].
    split; lra.
Qed.

Lemma plain_int_two_digits (n : Z) :
  (0 <= n < 100)%Z -> plain_int (format_0d 2 n) = Some n.
Proof.
  intros Hn.
  assert (Hall : forallb (fun k => match plain_int (format_0d 2 (Z.of_nat k)) with
                                   | Some v => Z.eqb v (Z.of_nat k)
                                   | None => false
                                   end) (seq 0 100) = true)
    by (vm_compute; reflexivity).
  rewrite forallb_forall in Hall.
  specialize (Hall (Z.to_nat n)). rewrite Z2Nat.id in Hall by lia.
  specialize (Hall ltac:(apply in_seq; lia)).
  destruct (plain_int (format_0d 2 n)) as [v|]; [|discriminate].
  apply Z.eqb_eq in Hall. congruence.
Qed.

Lemma plain_int_three_digits (n : Z) :
  (0 <= n < 1000)%Z -> plain_int (format_0d 3 n) = Some n.
Proof.
  intros Hn.
  assert (Hall : forallb (fun k => match plain_int (format_0d 3 (Z.of_nat k)) with
                                   | Some v => Z.eqb v (Z.of_nat k)
                                   | None => false
                                   end) (seq 0 1000) = true)
    by (vm_compute; reflexivity).
  rewrite forallb_forall in Hall.
  specialize (Hall (Z.to_nat n)). rewrite Z2Nat.id in Hall by lia.
  specialize (Hall ltac:(apply in_seq; lia)).
  destruct (plain_int (format_0d 3 n)) as [v|]; [|discriminate].
  apply Z.eqb_eq in Hall. congruence.
Qed.

Lemma plain_float_parts (whole fraction : string) :
  two_digits whole = true -> three_digits fraction = true ->
  plain_float (whole ++ "." ++ fraction)
  = match plain_int whole, plain_int fraction with
    | Some w, Some f => Some (inject_Z w + inject_Z f / inject_Z (10 ^ 3))
    | _, _ => None
    end.
Proof.
  intros Hw Hf.
  destruct (two_digits_inv whole Hw) as (a1 & a2 & -> & Ha1 & Ha2).
  destruct (three_digits_inv fraction Hf) as (f1 & f2 & f3 & -> & Hf1 & Hf2 & Hf3).
  destruct (digit_is_no_separator a1 Ha1) as (_ & _ & C1).
  destruct (digit_is_no_separator a2 Ha2) as (_ & _ & C2).
  destruct (digit_is_no_separator f1 Hf1) as (_ & _ & C3).
  destruct (digit_is_no_separator f2 Hf2) as (_ & _ & C4).
  destruct (digit_is_no_separator f3 Hf3) as (_ & _ & C5).
  unfold plain_float. cbn [append split]. rewrite C1, C2, C3, C4, C5.
  change (Ascii.eqb "." ".") with true. cbv iota. reflexivity.
Qed.

Lemma plain_float_seconds (s ms : Z) :
  (0 <= s < 100)%Z -> (0 <= ms < 1000)%Z ->
  exists q, plain_float (format_0d 2 s ++ "." ++ format_0d 3 ms) = Some q
            /\ Qabs (q - (inject_Z s + inject_Z ms / 1000)) <= 1 # 1000000.
Proof.
  intros Hs Hms.
  rewrite plain_float_parts
    by (apply two_digits_below_100 || apply three_digits_below_1000; lia).
  rewrite (plain_int_two_digits s Hs), (plain_int_three_digits ms Hms).
  eexists. split; [reflexivity|].
  change (inject_Z (10 ^ 3)) with 1000.
  assert (E : inject_Z s + inject_Z ms / 1000 - (inject_Z s + inject_Z ms / 1000) == 0)
    by ring.
  rewrite E. discriminate.
Qed.

Lemma X23_srt_time_round_trip_witness :
  exists v,
    _parse_srt_time plain_int plain_float (_format_time_srt (7323 + (1 # 2))) = Some v
    /\ (7323 + (1 # 2)) - (1 # 1000) <= v /\ v <= (7323 + (1 # 2)) + (1 # 1000).
Proof.
  apply (X23_srt_time_round_trip plain_int plain_float (7323 + (1 # 2))
           plain_int_two_digits plain_float_seconds).
  - discriminate.
  - reflexivity.
  - discriminate.
Defined.

End SrtRoundTrip.

(** ** The periodic zoom keyframes of video_analysis.py *)

Section ZoomAnalysis.
Import composite_builder zoom_spec zoom_frames zoom_analysis.

Lemma py_mod_cycle (t : Q) : 0 <= py_mod t 6 / 6 /\ py_mod t 6 / 6 <= 1.
Proof.
  unfold py_mod.
  pose proof (Qfloor_le (t / 6)) as Hlo. pose proof (Qlt_floor (t / 6)) as Hhi.
  rewrite inject_Z_plus in Hhi. change (inject_Z 1) with 1 in Hhi.
  assert (Hq : (t - 6 * inject_Z (Qfloor (t / 6))) / 6
               == t / 6 - inject_Z (Qfloor (t / 6)))
    by (unfold Qdiv; change (/ 6) with (1 # 6); ring).
  rewrite Hq. generalize dependent (inject_Z (Qfloor (t / 6))). intros f Hlo Hhi _.
  generalize dependent (t / 6). intros q Hlo Hhi. split; lra.
Qed.

Lemma intensity_map_range (intensity : string) :
  1 <= intensity_map intensity /\ intensity_map intensity <= 125 # 100.
Proof.
  unfold intensity_map.
  destruct (String.eqb intensity "subtle"); [split; discriminate|].
  destruct (String.eqb intensity "medium"); [split; discriminate|].
  destruct (String.eqb intensity "strong"); split; discriminate.
Qed.

Lemma arange_half (duration t : Q) :
  In t (arange 0 duration (1 # 2)) -> 0 <= t /\ t < duration.
Proof.
  unfold arange. intros H. apply in_map_iff in H. destruct H as (k & <- & Hk).
  apply in_seq in Hk.
  assert (H0 : 0 <= inject_Z (Z.of_nat k))
    by (change 0 with (inject_Z 0); rewrite <- Zle_Qle; lia).
  split; [lra|].
  pose proof (Qceiling_lt ((duration - 0) / (1 # 2))) as Hc.
  assert (Hk' : inject_Z (Z.of_nat k) <= inject_Z (Qceiling ((duration - 0) / (1 # 2)) - 1))
    by (rewrite <- Zle_Qle; lia).
  assert (Hd : (duration - 0) / (1 # 2) == duration * 2)
    by (unfold Qdiv; change (/ (1 # 2)) with 2; ring).
  rewrite Hd in Hc at 2. lra.
Qed.

Lemma keyframes_sorted_map_seq (f : nat -> ZoomKeyframe) (len : nat) : forall a,
  (forall k, time (f k) <= time (f (S k))) ->
  keyframes_sorted (map f (seq a len)).
Proof.
  induction len as [|len IH]; intros a Hf; cbn [seq map]; [exact I|].
  split; [|apply IH; exact Hf].
  destruct len; cbn [seq map]; [exact I | apply Hf].
Qed.

(** X24: for a sine that stays between 0 and 1 on [0, pi], the keyframes
    [analyze_zoom_keyframes] generates are in ascending order of time, lie
    in [0, duration), zoom by a factor between 1 and 1.25 and keep the
    centre at (0.5, 0.5); queued in a builder, they make [zoom_function]
    take its slice inside the frame at every time, with no division by
    zero. *)
Theorem X24_analyzed_zoom_keyframes_are_safe
    (pi : Q) (sin : Q -> Q) (duration : Q) (intensity : string) :
  0 <= pi -> (forall x, 0 <= x -> x <= pi -> 0 <= sin x /\ sin x <= 1) ->
  let keyframes := analyze_zoom_keyframes pi sin duration intensity in
  keyframes_sorted keyframes
  /\ (forall k, In k keyframes ->
        0 <= time k /\ time k < duration
        /\ 1 <= zoom_factor k /\ zoom_factor k <= 125 # 100
        /\ center_x k = 1 # 2 /\ center_y k = 1 # 2)
  /\ (forall (self : CompositeVideoBuilder) (h w : Z) (t : Q),
        (0 <= h)%Z -> (0 <= w)%Z ->
        inside_frame h w
          (zoom_function (zoom_keyframes (add_zoom_keyframes keyframes self)) h w t)).
Proof.
  intros Hpi Hsin. cbv zeta.
  assert (Hall : forall k, In k (analyze_zoom_keyframes pi sin duration intensity) ->
            0 <= time k /\ time k < duration
            /\ 1 <= zoom_factor k /\ zoom_factor k <= 125 # 100
            /\ center_x k = 1 # 2 /\ center_y k = 1 # 2).
  { intros k Hk. unfold analyze_zoom_keyframes in Hk. cbv zeta in Hk.
    apply in_map_iff in Hk. destruct Hk as (t & <- & Ht).
    cbn [time zoom_factor center_x center_y].
    destruct (arange_half duration t Ht) as [Ht0 Ht1].
    destruct (py_mod_cycle t) as [Hc0 Hc1].
    destruct (intensity_map_range intensity) as [Hm0 Hm1].
    assert (Hx0 : 0 <= py_mod t 6 / 6 * pi) by (apply Qmult_le_0_compat; assumption).
    assert (Hx1 : py_mod t 6 / 6 * pi <= pi).
    { assert (H : py_mod t 6 / 6 * pi <= 1 * pi)
        by (apply Qmult_le_compat_r; assumption). lra. }
    destruct (Hsin _ Hx0 Hx1) as [Hs0 Hs1].
    split; [exact Ht0|]. split; [exact Ht1|].
    assert (Hp : 0 <= (intensity_map intensity - 1) * sin (py_mod t 6 / 6 * pi))
      by (apply Qmult_le_0_compat; lra).
    assert (Hq : (intensity_map intensity - 1) * sin (py_mod t 6 / 6 * pi)
                 <= (intensity_map intensity - 1) * 1).
    { rewrite (Qmult_comm _ (sin _)), (Qmult_comm _ 1).
      apply Qmult_le_compat_r; lra. }
    repeat split; try reflexivity; lra. }
  split; [|split; [exact Hall|]].
  - unfold analyze_zoom_keyframes, arange. cbv zeta. rewrite map_map.
    apply keyframes_sorted_map_seq. intros k. cbn [time].
    assert (H : inject_Z (Z.of_nat k) <= inject_Z (Z.of_nat (S k)))
      by (rewrite <- Zle_Qle; lia).
    lra.
  - intros self h w t Hh Hw. apply zoom_function_inside_frame; [exact Hh | exact Hw|].
    intros k Hk.
    apply (Permutation_in k (Permutation_sym (add_zoom_keyframes_perm _ self))) in Hk.
    destruct (Hall k Hk) as (_ & _ & H1 & _). exact H1.
Qed.

Lemma parabola_sin_range (x : Q) :
  0 <= x -> x <= parabola_pi -> 0 <= parabola_sin x /\ parabola_sin x <= 1.
Proof.
  unfold parabola_sin, parabola_pi. intros H0 H1.
  assert (Hd : 4 * x * ((22 # 7) - x) / ((22 # 7) * (22 # 7))
               == 4 * x * ((22 # 7) - x) * (49 # 484))
    by (unfold Qdiv; change (/ ((22 # 7) * (22 # 7))) with (49 # 484); reflexivity).
  rewrite Hd.
  assert (H2 : 0 <= x * ((22 # 7) - x)) by (apply Qmult_le_0_compat; lra).
  assert (H3 : 0 <= (x - (11 # 7)) * (x - (11 # 7))).
  { destruct (Qlt_le_dec x (11 # 7)) as [Hx|Hx].
    - assert (H : (x - (11 # 7)) * (x - (11 # 7)) == ((11 # 7) - x) * ((11 # 7) - x))
        by ring.
      rewrite H. apply Qmult_le_0_compat; lra.
    - apply Qmult_le_0_compat; lra. }
  assert (E2 : 4 * x * ((22 # 7) - x) * (49 # 484)
               == (49 # 121) * (x * ((22 # 7) - x))) by ring.
  assert (E3 : (x - (11 # 7)) * (x - (11 # 7))
               == (121 # 49) - x * ((22 # 7) - x)) by ring.
  rewrite E2. rewrite E3 in H3. split; lra.
Qed.

Lemma X24_analyzed_zoom_keyframes_are_safe_witness :
  let keyframes := analyze_zoom_keyframes parabola_pi parabola_sin 10 "strong" in
  keyframes_sorted keyframes
  /\ (forall k, In k keyframes ->
        0 <= time k /\ time k < 10
        /\ 1 <= zoom_factor k /\ zoom_factor k <= 125 # 100
        /\ center_x k = 1 # 2 /\ center_y k = 1 # 2)
  /\ (forall (self : CompositeVideoBuilder) (h w : Z) (t : Q),
        (0 <= h)%Z -> (0 <= w)%Z ->
        inside_frame h w
          (zoom_function (zoom_keyframes (add_zoom_keyframes keyframes self)) h w t)).
Proof.
  apply (X24_analyzed_zoom_keyframes_are_safe parabola_pi parabola_sin 10 "strong").
  - discriminate.
  - apply parabola_sin_range.
Defined.

End ZoomAnalysis.

(** ** Looping the music: the two implementations *)

Section MusicLoops.
Import video_processing legacy_music binary64.

(** Rounding can add a copy: for a video of 1169.0 s and music of 233.8 s
    the exact quotient of the two binary64 numbers is just below 5 and
    rounds to 5.0, so six copies are made where the exact quotient would
    give five. *)
Lemma loops_needed_after_rounding :
  loops_needed (rnd 1169) (rnd (2338 # 10)) = 6%Z
  /\ (Qfloor (rnd 1169 / rnd (2338 # 10)) + 1 = 5)%Z.
Proof. split; vm_compute; reflexivity. Qed.

(** X25: for a music clip shorter than the video (and no shorter than a
    [2^52]-th of it), the [loops_needed] copies that [add_background_music]
    of video_processing.py concatenates last longer than the video, by
    less than two copies; they are as many as the ceiling of the same
    binary64 quotient, which is what the composite builder counts, or one
    more. *)
Theorem X25_legacy_music_loops_cover_video (video_duration music_duration : Q) :
  0 < music_duration -> music_duration < video_duration ->
  video_duration <= inject_Z (2 ^ 52) * music_duration ->
  let loops := loops_needed video_duration music_duration in
  video_duration < inject_Z loops * music_duration
  /\ inject_Z loops * music_duration < video_duration + 2 * music_duration
  /\ (Qceiling (fdiv video_duration music_duration) <= loops
      <= Qceiling (fdiv video_duration music_duration) + 1)%Z.
Proof.
  intros Hm Hlt Hmax. cbv zeta. unfold loops_needed, fdiv.
  set (x := video_duration / music_duration).
  assert (Hv : video_duration == x * music_duration) by (unfold x; field; lra).
  assert (Hx : 0 <= x).
  { unfold x. apply Qle_shift_div_l; lra. }
  assert (Hx52 : x <= inject_Z (2 ^ 52)).
  { unfold x. apply Qle_shift_div_r; [exact Hm | exact Hmax]. }
  pose proof (Qfloor_le x) as Hlo. pose proof (Qlt_floor x) as Hhi.
  pose proof (Qle_ceiling x) as Hcl. pose proof (Qceiling_lt x) as Hch.
  assert (Hf0 : (0 <= Qfloor x)%Z).
  { change 0%Z with (Qfloor 0). apply Qfloor_resp_le. exact Hx. }
  assert (Hc52 : (Qceiling x <= 2 ^ 52)%Z).
  { rewrite <- (Qceiling_Z (2 ^ 52)). apply Qceiling_resp_le. exact Hx52. }
  assert (Hfc : (Qfloor x <= Qceiling x)%Z) by (rewrite Zle_Qle; lra).
  set (y := rnd x).
  assert (Hy1 : inject_Z (Qfloor x) <= y).
  { apply rnd_ge_int; [|exact Hlo]. split; [exact Hf0|].
    apply Z.le_lt_trans with (2 ^ 52)%Z; [lia | reflexivity]. }
  assert (Hy2 : y <= inject_Z (Qceiling x)).
  { apply rnd_le_int; [|exact Hx|exact Hcl]. split; [lia|].
    apply Z.le_lt_trans with (2 ^ 52)%Z; [exact Hc52 | reflexivity]. }
  assert (Hy0 : 0 <= y).
  { assert (H : inject_Z 0 <= inject_Z (Qfloor x)) by (rewrite <- Zle_Qle; exact Hf0).
    change (inject_Z 0) with 0 in H. lra. }
  assert (Hint : py_int y = Qfloor y).
  { unfold py_int. apply Qle_bool_iff in Hy0. rewrite Hy0. reflexivity. }
  rewrite Hint.
  assert (Hfy1 : (Qfloor x <= Qfloor y)%Z).
  { rewrite <- (Qfloor_Z (Qfloor x)). apply Qfloor_resp_le. exact Hy1. }
  assert (Hfy2 : (Qfloor y <= Qceiling x)%Z).
  { rewrite <- (Qfloor_Z (Qceiling x)). apply Qfloor_resp_le. exact Hy2. }
  rewrite inject_Z_plus in Hhi |- *. change (inject_Z 1) with 1 in Hhi |- *.
  assert (Hc1 : inject_Z (Qceiling x - 1) == inject_Z (Qceiling x) - 1)
    by (unfold Z.sub; rewrite inject_Z_plus; reflexivity).
  rewrite Hc1 in Hch.
  assert (Hq1 : inject_Z (Qfloor x) <= inject_Z (Qfloor y)) by (rewrite <- Zle_Qle; exact Hfy1).
  assert (Hq2 : inject_Z (Qfloor y) <= inject_Z (Qceiling x)) by (rewrite <- Zle_Qle; exact Hfy2).
  split; [|split].
  - rewrite Hv at 1. apply Qmult_lt_compat_r; lra.
  - rewrite Hv at 1.
    assert (H : x * music_duration + 2 * music_duration == (x + 2) * music_duration) by ring.
    rewrite H. apply Qmult_lt_compat_r; lra.
  - pose proof (Qfloor_le y) as Hyl. pose proof (Qlt_floor y) as Hyh.
    pose proof (Qle_ceiling y) as Hycl. pose proof (Qceiling_lt y) as Hych.
    rewrite inject_Z_plus in Hyh. change (inject_Z 1) with 1 in Hyh.
    assert (Hc2 : inject_Z (Qceiling y - 1) == inject_Z (Qceiling y) - 1)
      by (unfold Z.sub; rewrite inject_Z_plus; reflexivity).
    rewrite Hc2 in Hych.
    assert (H1 : inject_Z (Qceiling y) < inject_Z (Qfloor y + 2)).
    { rewrite inject_Z_plus. change (inject_Z 2) with 2. lra. }
    assert (H2 : inject_Z (Qfloor y) <= inject_Z (Qceiling y)) by lra.
    rewrite <- Zlt_Qlt in H1. rewrite <- Zle_Qle in H2. lia.
Qed.

Lemma X25_legacy_music_loops_cover_video_witness :
  let loops := loops_needed 10 4 in
  10 < inject_Z loops * 4
  /\ inject_Z loops * 4 < 10 + 2 * 4
  /\ (Qceiling (fdiv 10 4) <= loops <= Qceiling (fdiv 10 4) + 1)%Z.
Proof.
  apply (X25_legacy_music_loops_cover_video 10 4); [reflexivity | reflexivity | discriminate].
Defined.

End MusicLoops.

(** ** How many files a render leaves open *)

Section LeakCount.
Import composite_builder builder_spec builder_use leak_spec.

Lemma remove_as_filter (handle : nat) (l : list nat) :
  remove Nat.eq_dec handle l = filter (fun x => negb (Nat.eqb x handle)) l.
Proof.
  induction l as [|x l IH]; cbn; [reflexivity|].
  destruct (Nat.eq_dec handle x) as [->|Hne].
  - rewrite Nat.eqb_refl. cbn. exact IH.
  - assert (E : Nat.eqb x handle = false) by (apply Nat.eqb_neq; congruence).
    rewrite E. cbn. rewrite IH. reflexivity.
Qed.

Lemma filter_filter {A : Type} (f g : A -> bool) (l : list A) :
  filter f (filter g l) = filter (fun x => g x && f x) l.
Proof.
  induction l as [|x l IH]; cbn; [reflexivity|].
  destruct (g x); cbn; [destruct (f x)|]; rewrite IH; reflexivity.
Qed.

(** [close_all] closes exactly the handles its clips hold, and touches
    nothing else. *)
Lemma close_all_filter (clips : list Clip) : forall s,
  close_all clips s
  = (Return tt,
     (fst s,
      mkMedia (next_handle (snd s))
              (filter (fun handle => negb (held clips handle)) (open_handles (snd s)))
              (events (snd s)))).
Proof.
  induction clips as [|clip rest IH]; intros [self media]; cbn [close_all].
  - cbn. rewrite (filter_all (fun _ => true)); [destruct media; reflexivity|auto].
  - unfold bind, try_except, close. cbn [fst snd]. rewrite IH. cbn [fst snd next_handle
      open_handles events]. do 3 f_equal.
    unfold held, readers. cbn [flat_map].
    destruct (reader clip) as [handle|]; cbn [app existsb].
    + rewrite remove_as_filter, filter_filter. apply filter_ext. intros x.
      rewrite negb_orb. reflexivity.
    + reflexivity.
Qed.

Lemma cleanup_leaves_unregistered (s : State) :
  open_handles (snd (snd (_cleanup s))) = unregistered s.
Proof.
  unfold _cleanup, bind, get_self. cbn [fst snd]. rewrite close_all_filter.
  reflexivity.
Qed.

Lemma readers_app (a b : list Clip) : readers (a ++ b) = readers a ++ readers b.
Proof. unfold readers. apply flat_map_app. Qed.

Lemma held_app (a b : list Clip) (handle : nat) :
  held (a ++ b) handle = held a handle || held b handle.
Proof. unfold held. rewrite readers_app. apply existsb_app. Qed.

Lemma held_in (clips : list Clip) (handle : nat) :
  held clips handle = true <-> In handle (readers clips).
Proof.
  unfold held. rewrite existsb_exists. split.
  - intros (x & Hx & E). apply Nat.eqb_eq in E. subst. exact Hx.
  - intros H. exists handle. split; [exact H | apply Nat.eqb_refl].
Qed.

(** Leaking depends on the handle counter, the open handles and the
    registered clips only. *)
Lemma leaking_same (n : nat) (s s' : State) :
  next_handle (snd s') = next_handle (snd s) ->
  open_handles (snd s') = open_handles (snd s) ->
  _loaded_clips (fst s') = _loaded_clips (fst s) ->
  leaking n s -> leaking n s'.
Proof.
  unfold leaking, handles_below_next, unregistered.
  intros -> -> ->. tauto.
Qed.

(** Registering the clip that holds the handle just opened. *)
Lemma pending_registered (overlays : list MediaOverlay) (n handle : nat)
    (clip : Clip) (s s' : State) :
  reader clip = Some handle ->
  media_overlays (fst s') = media_overlays (fst s) ->
  next_handle (snd s') = next_handle (snd s) ->
  open_handles (snd s') = open_handles (snd s) ->
  _loaded_clips (fst s') = _loaded_clips (fst s) ++ [clip] ->
  pending overlays n handle s -> leaking_with overlays n s'.
Proof.
  intros Hr Hov Hnext Hopen Hloaded (Ho & Hn & opened & Ho' & (Hbelow & Hopened) & Hlen).
  cbn [fst snd next_handle open_handles] in Hbelow, Hopened, Hlen.
  unfold unregistered in Hlen. cbn [fst snd open_handles] in Hlen.
  assert (Hreaders : readers (_loaded_clips (fst s) ++ [clip])
                     = readers (_loaded_clips (fst s)) ++ [handle]).
  { rewrite readers_app. unfold readers at 2. cbn. rewrite Hr. reflexivity. }
  split; [congruence|]. split; [split|].
  - rewrite Hnext, Hopen, Hn, Ho'. intros h [<-|Hh]; [lia|].
    specialize (Hbelow h Hh). lia.
  - rewrite Hnext, Hloaded, Hn, Hreaders. intros h Hh. apply in_app_or in Hh.
    destruct Hh as [Hh|[<-|[]]]; [|lia]. specialize (Hopened h Hh). lia.
  - unfold unregistered. rewrite Hopen, Hloaded, Ho'. cbn [filter].
    assert (Hheld : held (_loaded_clips (fst s) ++ [clip]) handle = true).
    { apply held_in. rewrite Hreaders. apply in_or_app. right. left. reflexivity. }
    rewrite Hheld. cbn [negb]. rewrite <- Hlen. f_equal.
    apply filter_ext_in. intros h Hh. f_equal. rewrite held_app.
    assert (E : held [clip] h = false).
    { unfold held, readers. cbn. rewrite Hr. cbn.
      assert (Hne : Nat.eqb h handle = false)
        by (apply Nat.eqb_neq; specialize (Hbelow h Hh); lia).
      rewrite Hne. reflexivity. }
    rewrite E. apply orb_false_r.
Qed.

(** Leaving the handle just opened without a clip that is registered. *)
Lemma pending_leaked (overlays : list MediaOverlay) (n handle : nat) (s : State) :
  pending overlays n handle s -> leaking_with overlays (S n) s.
Proof.
  intros (Ho & Hn & opened & Ho' & (Hbelow & Hopened) & Hlen).
  cbn [fst snd next_handle open_handles] in Hbelow, Hopened, Hlen.
  unfold unregistered in Hlen. cbn [fst snd open_handles] in Hlen.
  split; [exact Ho|]. split; [split|].
  - rewrite Hn, Ho'. intros h [<-|Hh]; [lia|]. specialize (Hbelow h Hh). lia.
  - rewrite Hn. intros h Hh. specialize (Hopened h Hh). lia.
  - unfold unregistered. rewrite Ho'. cbn [filter].
    assert (Hheld : held (_loaded_clips (fst s)) handle = false).
    { destruct (held (_loaded_clips (fst s)) handle) eqn:E; [|reflexivity].
      apply held_in in E. specialize (Hopened handle E). lia. }
    rewrite Hheld. cbn [negb List.length]. rewrite Hlen. reflexivity.
Qed.

Lemma open_file_pending (overlays : list MediaOverlay) (n : nat) (s : State) :
  leaking_with overlays n s ->
  pending overlays n (next_handle (snd s)) (snd (open_file s)).
Proof.
  intros [Ho Hl]. unfold pending, open_file. cbn [fst snd next_handle open_handles events].
  split; [exact Ho|]. split; [reflexivity|].
  exists (open_handles (snd s)). split; [reflexivity|].
  apply (leaking_same n s); [reflexivity .. | exact Hl].
Qed.

Lemma overlay_clip_reader (overlay : MediaOverlay) (handle : nat) :
  reader
    (set_position
       (set_start
          (match size overlay with
           | Some new_size =>
               resize
                 (if String.eqb (transition overlay) "fade"
                  then crossfadeout
                         (crossfadein
                            (if String.eqb (media_type overlay) "image"
                             then set_duration (ImageClip handle (media_path overlay))
                                    (duration overlay)
                             else subclip (VideoFileClip handle (media_path overlay)) 0
                                    (duration overlay)) (1 # 2)) (1 # 2)
                  else
                    if String.eqb (media_type overlay) "image"
                    then set_duration (ImageClip handle (media_path overlay))
                           (duration overlay)
                    else subclip (VideoFileClip handle (media_path overlay)) 0
                           (duration overlay)) new_size
           | None =>
               if String.eqb (transition overlay) "fade"
               then crossfadeout
                      (crossfadein
                         (if String.eqb (media_type overlay) "image"
                          then set_duration (ImageClip handle (media_path overlay))
                                 (duration overlay)
                          else subclip (VideoFileClip handle (media_path overlay)) 0
                                 (duration overlay)) (1 # 2)) (1 # 2)
               else
                 if String.eqb (media_type overlay) "image"
                 then set_duration (ImageClip handle (media_path overlay))
                        (duration overlay)
                 else subclip (VideoFileClip handle (media_path overlay)) 0
                        (duration overlay)
           end) (start_time overlay)) (position overlay))
  = Some handle.
Proof.
  destruct (size overlay), (String.eqb (transition overlay) "fade"),
    (String.eqb (media_type overlay) "image"); reflexivity.
Qed.

(** One turn of the overlay loop: the file it opens is registered, unless
    a method raises on the opened clip; then it stays open and
    unregistered. *)
Lemma overlay_turn_leaks (env : Env) (overlays : list MediaOverlay) (n i : nat)
    (overlay : MediaOverlay) (overlay_clips : list Clip) :
  hoare (leaking_with overlays n)
        (try_except
           (media_clip <- load_overlay env i overlay ;;
            loaded_clips_append media_clip ;;;
            ret (overlay_clips ++ [media_clip]))
           (ret overlay_clips))
        (fun _ => leaking_with overlays
                    (if is_method_raises (overlay_fault env i) then S n else n))
        (fun _ => False).
Proof.
  intros s Hs. pose proof (open_file_pending overlays n s Hs) as Hp.
  unfold try_except, bind, load_overlay.
  destruct (overlay_fault env i); cbn [is_method_raises].
  - cbn. exact Hs.
  - unfold bind, open_file in *. cbn [raise ret fst snd] in *.
    apply pending_leaked in Hp. exact Hp.
  - unfold bind, open_file in *. cbn [ret loaded_clips_append fst snd] in *.
    match goal with
    | |- leaking_with _ _ (set_loaded_clips (_ ++ [?c]) _, ?m) =>
        apply (pending_registered overlays n (next_handle (snd s)) c (fst s, m))
    end; try reflexivity; [apply overlay_clip_reader | exact Hp].
Qed.

Lemma method_faults_cons (env : Env) (i : nat) (overlay : MediaOverlay)
    (rest : list MediaOverlay) :
  method_faults env i (overlay :: rest)
  = (if is_method_raises (overlay_fault env i) then [i] else [])
    ++ method_faults env (S i) rest.
Proof.
  unfold method_faults. cbn [List.length seq filter].
  destruct (is_method_raises (overlay_fault env i)); reflexivity.
Qed.

(** The overlay loop leaves one more file unregistered for every overlay
    on whose clip a method raises. *)
Lemma load_overlays_leaks (env : Env) (overlays : list MediaOverlay)
    (rest : list MediaOverlay) : forall i overlay_clips n,
  hoare (leaking_with overlays n) (load_overlays env i rest overlay_clips)
        (fun _ => leaking_with overlays (n + List.length (method_faults env i rest)))
        (fun _ => False).
Proof.
  induction rest as [|overlay rest IH]; intros i acc n; cbn [load_overlays].
  - apply hoare_ret. intros s Hs. cbn. rewrite Nat.add_0_r. exact Hs.
  - eapply hoare_bind; [apply overlay_turn_leaks|]. intros acc'. cbv beta.
    set (n' := if is_method_raises (overlay_fault env i) then S n else n).
    apply hoare_weaken with
      (P' := leaking_with overlays n')
      (Q' := fun _ => leaking_with overlays
                        (n' + List.length (method_faults env (S i) rest)))
      (E' := fun _ => False); [apply IH | auto | | auto].
    intros _ s Hs. rewrite method_faults_cons, length_app. unfold n' in Hs.
    destruct (is_method_raises (overlay_fault env i)); cbn [List.length] in *;
      [match goal with
       | |- leaking_with _ ?a _ =>
           replace a with (S n + List.length (method_faults env (S i) rest))%nat by lia
       end|];
      exact Hs.
Qed.

Lemma apply_media_overlays_leaks (env : Env) (overlays : list MediaOverlay)
    (n : nat) (clip : Clip) :
  hoare (leaking_with overlays n) (_apply_media_overlays env clip)
        (fun _ => leaking_with overlays (n + List.length (method_faults env 0 overlays)))
        (leaking_with overlays (n + List.length (method_faults env 0 overlays))).
Proof.
  intros s Hs. pose proof Hs as [Hov _].
  unfold _apply_media_overlays, bind at 1, get_self. cbn [fst snd]. rewrite Hov.
  destruct overlays as [|overlay rest].
  - cbn. rewrite Nat.add_0_r. exact Hs.
  - unfold bind.
    pose proof (load_overlays_leaks env (overlay :: rest) (overlay :: rest) 0 [] n s Hs)
      as Hl.
    destruct (load_overlays env 0 (overlay :: rest) [] s) as [[clips|] s1];
      [|contradiction].
    destruct clips; [cbn; exact Hl|].
    destruct (step_raises env MediaOverlays); cbn; exact Hl.
Qed.

Lemma record_event_leaking (overlays : list MediaOverlay) (n : nat) (e : Event)
    (E : State -> Prop) :
  hoare (leaking_with overlays n) (record_event e)
        (fun _ => leaking_with overlays n) E.
Proof.
  intros s [Ho Hl]. cbn. split; [exact Ho|].
  apply (leaking_same n s); [reflexivity .. | exact Hl].
Qed.

Lemma run_step_leaking (overlays : list MediaOverlay) (n m : nat) (step : RenderStep)
    (queued : bool) (apply : Clip -> M Clip) (clip : Clip) (E : State -> Prop) :
  hoare (leaking_with overlays n) (apply clip) (fun _ => leaking_with overlays m) E ->
  (queued = false -> n = m) ->
  hoare (leaking_with overlays n) (run_step step queued apply clip)
        (fun _ => leaking_with overlays m) E.
Proof.
  intros Happly Hq. unfold run_step. destruct queued.
  - eapply hoare_bind; [exact Happly|]. intros output. cbv beta.
    eapply hoare_bind; [apply record_event_leaking|]. intros ?. cbv beta.
    apply hoare_ret. auto.
  - rewrite <- (Hq eq_refl). apply hoare_ret. auto.
Qed.

Lemma apply_silence_cuts_steady (env : Env) (clip : Clip) (P E : State -> Prop) :
  step_raises env SilenceCuts = false ->
  hoare P (_apply_silence_cuts env clip) (fun _ => P) E.
Proof.
  intros Hr s Hs. unfold _apply_silence_cuts, bind at 1, get_self. cbn [fst snd].
  destruct (silence_cuts (fst s)); [cbn; exact Hs|].
  destruct (extract_subclips env clip 0 _); [cbn; exact Hs|].
  unfold bind. rewrite Hr. cbn. exact Hs.
Qed.

Lemma apply_zoom_effect_steady (env : Env) (clip : Clip) (P E : State -> Prop) :
  step_raises env ZoomEffects = false ->
  hoare P (_apply_zoom_effect env clip) (fun _ => P) E.
Proof.
  intros Hr s Hs. unfold _apply_zoom_effect, bind at 1, get_self. cbn [fst snd].
  destruct (zoom_keyframes (fst s)); [cbn; exact Hs|].
  unfold bind. rewrite Hr. cbn. exact Hs.
Qed.

Lemma concatenation_steady {A : Type} (b : bool) (a : A) (P : State -> Prop) :
  hoare P (raise_if b ;;; ret a) (fun _ => P) P.
Proof. intros s Hs. unfold bind. destruct b; cbn; exact Hs. Qed.

(** The music step registers the file it opens at once. *)
Lemma apply_background_music_leaks (env : Env) (overlays : list MediaOverlay)
    (n : nat) (clip : Clip) :
  hoare (leaking_with overlays n) (_apply_background_music env clip)
        (fun _ => leaking_with overlays n) (leaking_with overlays n).
Proof.
  intros s Hs. pose proof (open_file_pending overlays n s Hs) as Hp.
  unfold _apply_background_music, bind at 1, get_self. cbn [fst snd].
  destruct (background_music (fst s)) as [music_path|]; [|cbn; exact Hs].
  unfold bind at 1. destruct (step_raises env BackgroundMusic); cbn [raise_if raise ret];
    [exact Hs|].
  destruct (negb (music_exists env)); [cbn; exact Hs|].
  assert (Hreg : leaking_with overlays n
                   (set_loaded_clips
                      (_loaded_clips (fst s)
                       ++ [AudioFileClip (next_handle (snd s)) music_path]) (fst s),
                    snd (snd (open_file s)))).
  { apply (pending_registered overlays n (next_handle (snd s))
             (AudioFileClip (next_handle (snd s)) music_path) (snd (open_file s)));
      try reflexivity. exact Hp. }
  unfold try_except, bind, open_file, fit_music in *.
  cbn [fst snd loaded_clips_append] in *.
  destruct (music_file_raises env); cbn [raise_if raise ret]; [exact Hs|].
  destruct (Qlt_bool _ _); unfold bind.
  - destruct (Qeq_bool _ 0); cbn [raise_if raise ret]; [exact Hreg|].
    unfold call_concatenate_videoclips.
    destruct (repeat _ _); [exact Hreg|].
    destruct (forallb has_size _); cbn [ret raise]; [|exact Hreg].
    destruct (music_mix_raises env); cbn [raise_if raise ret]; exact Hreg.
  - cbn [ret]. destruct (music_mix_raises env); cbn [raise_if raise ret]; exact Hreg.
Qed.

(** The [try] block of [render]: once the overlay step is reached, the
    files left unregistered are those of the overlays on whose clip a
    method raised, however the block ends. *)
Lemma render_body_leaks (env : Env) (output_path preset : string)
    (overlays : list MediaOverlay) :
  base_clip_raises env = false ->
  step_raises env SilenceCuts = false ->
  step_raises env ZoomEffects = false ->
  hoare (leaking_with overlays 0) (render_body env output_path preset)
        (fun _ => leaking_with overlays (List.length (method_faults env 0 overlays)))
        (leaking_with overlays (List.length (method_faults env 0 overlays))).
Proof.
  intros Hbase Hsil Hzoom. unfold render_body. rewrite Hbase. cbn [raise_if].
  set (c := List.length (method_faults env 0 overlays)).
  eapply hoare_bind with (R := fun _ => leaking_with overlays 0);
    [apply hoare_ret; auto|]. intros ?; cbv beta.
  eapply hoare_bind with (R := fun handle => pending overlays 0 handle).
  { intros s Hs. apply (open_file_pending overlays 0 s Hs). }
  intros handle; cbv beta.
  eapply hoare_bind
    with (R := fun self s => media_overlays self = overlays /\ pending overlays 0 handle s).
  { intros s Hs. cbn. split; [destruct Hs as [Ho _]; exact Ho | exact Hs]. }
  intros self; cbv beta zeta. apply hoare_pure. intros Hself.
  eapply hoare_bind with (R := fun _ => pending overlays 0 handle).
  { intros s (Ho & Hn & opened & Hop & Hl). cbn.
    split; [exact Ho|]. split; [exact Hn|]. exists opened. split; [exact Hop|].
    apply (leaking_same 0 (fst s, mkMedia handle opened (events (snd s))));
      [reflexivity .. | exact Hl]. }
  intros ?; cbv beta.
  eapply hoare_bind with (R := fun _ => leaking_with overlays 0).
  { intros s Hs. cbn.
    apply (pending_registered overlays 0 handle
             (VideoFileClip handle (input_video_path self)) s);
      try reflexivity. exact Hs. }
  intros ?; cbv beta.
  eapply hoare_bind with (R := fun _ => leaking_with overlays 0).
  { apply run_step_leaking; [apply apply_silence_cuts_steady; exact Hsil | reflexivity]. }
  intros clip1; cbv beta.
  eapply hoare_bind with (R := fun _ => leaking_with overlays 0).
  { apply run_step_leaking; [apply apply_zoom_effect_steady; exact Hzoom | reflexivity]. }
  intros clip2; cbv beta.
  eapply hoare_bind with (R := fun _ => leaking_with overlays c).
  { apply run_step_leaking; [apply (apply_media_overlays_leaks env overlays 0)|].
    unfold queued. rewrite Hself. unfold c. destruct overlays; [reflexivity|discriminate]. }
  intros clip3; cbv beta.
  eapply hoare_bind with (R := fun _ => leaking_with overlays c).
  { apply run_step_leaking; [apply apply_background_music_leaks | reflexivity]. }
  intros clip4; cbv beta.
  eapply hoare_bind with (R := fun _ => leaking_with overlays c).
  { apply run_step_leaking; [apply concatenation_steady | reflexivity]. }
  intros clip5; cbv beta.
  eapply hoare_bind with (R := fun _ => leaking_with overlays c).
  { apply run_step_leaking; [apply concatenation_steady | reflexivity]. }
  intros clip6; cbv beta.
  eapply hoare_bind with (R := fun _ => leaking_with overlays c);
    [apply record_event_leaking|]. intros ?; cbv beta.
  apply concatenation_steady.
Qed.

Lemma queue_call_leaking (c : QueueCall) (n : nat) (s : State) :
  leaking n s ->
  fst (queue_call c s) = Return tt /\ leaking n (snd (queue_call c s)).
Proof.
  intros Hl.
  assert (Hopen : forall path,
            leaking n
              (snd ((handle <- open_file ;;
                     fun s0 => (Return tt,
                                (set_loaded_clips
                                   (_loaded_clips (fst s0) ++ [VideoFileClip handle path])
                                   (fst s0), snd s0))) s))).
  { intros path.
    pose proof (open_file_pending (media_overlays (fst s)) n s (conj eq_refl Hl)) as Hp.
    unfold bind, open_file in *. cbn [fst snd] in *.
    match goal with
    | |- leaking _ (set_loaded_clips (_ ++ [?c]) _, ?m) =>
        apply (pending_registered (media_overlays (fst s)) n (next_handle (snd s)) c
                 (fst s, m))
    end; try reflexivity. exact Hp. }
  destruct c; cbn [queue_call]; (split; [reflexivity|]);
    try (apply (leaking_same n s); [reflexivity .. | exact Hl]).
  - specialize (Hopen intro_clip_path).
    revert Hopen. apply leaking_same; reflexivity.
  - specialize (Hopen outro_clip_path).
    revert Hopen. apply leaking_same; reflexivity.
Qed.

Lemma queue_calls_leaking (calls : list QueueCall) (n : nat) : forall s,
  leaking n s ->
  fst (queue_calls calls s) = Return tt /\ leaking n (snd (queue_calls calls s)).
Proof.
  induction calls as [|c rest IH]; intros s Hl; cbn [queue_calls].
  - cbn. auto.
  - unfold bind. destruct (queue_call_leaking c n s Hl) as [Hr Hl'].
    destruct (queue_call c s) as [r s1]. cbn [fst snd] in Hr, Hl'. subst r.
    apply IH. exact Hl'.
Qed.

(** X26: a builder made by the constructor and any chain of queueing
    calls, then rendered with a base clip that loads and no exception in the
    silence and zoom steps: however [render] ends after that, it leaves
    exactly as many files open as there are queued overlays on whose freshly
    opened clip a method raises; every other file it opened is closed. *)
Theorem X26_render_leaks_one_file_per_failing_overlay
    (env : Env) (input_video_path : string) (calls : list QueueCall)
    (output_path preset : string) :
  base_clip_raises env = false ->
  step_raises env SilenceCuts = false ->
  step_raises env ZoomEffects = false ->
  let queued := snd (queue_calls calls (init input_video_path, mkMedia 0 [] [])) in
  let s' := snd (build_and_render env input_video_path calls output_path preset) in
  List.length (open_handles (snd s'))
  = List.length (method_faults env 0 (media_overlays (fst queued))).
Proof.
  intros Hbase Hsil Hzoom. cbv zeta. unfold build_and_render, bind.
  assert (H0 : leaking 0 (init input_video_path, mkMedia 0 [] [])).
  { split; [split; intros h []|reflexivity]. }
  destruct (queue_calls_leaking calls 0 _ H0) as [Hr Hl].
  destruct (queue_calls calls (init input_video_path, mkMedia 0 [] [])) as [r s1].
  cbn [fst snd] in *. subst r.
  unfold render, try_finally.
  pose proof (render_body_leaks env output_path preset (media_overlays (fst s1))
                Hbase Hsil Hzoom s1 (conj eq_refl Hl)) as Hbody.
  destruct (render_body env output_path preset s1) as [r s2].
  assert (Hs2 : leaking (List.length (method_faults env 0 (media_overlays (fst s1)))) s2)
    by (destruct r; apply Hbody).
  pose proof (cleanup_leaves_unregistered s2) as Hc.
  destruct (_cleanup s2) as [[[]|] s3]; cbn [fst snd] in *; rewrite Hc; apply Hs2.
Qed.

Lemma X26_render_leaks_one_file_per_failing_overlay_witness :
  let queued :=
    snd (queue_calls [call_add_intro "intro.mp4";
                      call_add_media_overlays [example_overlay; example_overlay]]
           (init "in.mp4", mkMedia 0 [] [])) in
  let s' :=
    snd (build_and_render (first_overlay_method_raises 10) "in.mp4"
           [call_add_intro "intro.mp4";
            call_add_media_overlays [example_overlay; example_overlay]]
           "out.mp4" "medium") in
  List.length (open_handles (snd s'))
  = List.length (method_faults (first_overlay_method_raises 10) 0
                   (media_overlays (fst queued))).
Proof.
  apply (X26_render_leaks_one_file_per_failing_overlay
           (first_overlay_method_raises 10) "in.mp4"
           [call_add_intro "intro.mp4";
            call_add_media_overlays [example_overlay; example_overlay]]
           "out.mp4" "medium"); reflexivity.
Defined.

End LeakCount.
